(** * A feed-aggregation pipeline: article stores, worker pool, fan-out/fan-in
      handler and background dispatch loop.

    The development embeds, function by function,
    - the article store of [go-news/api/internal/store] (identity cache plus
      sorted slice),
    - the article store of [chapter11/api/internal/store] (sorted slice only),
    - the worker pool of [go-news/api/internal/worker],
    - [SyncHandler] of [go-news/api/internal/handlers],
    - [App.run] and [App.Close] of [go-news/api/internal/app],
    and proves the properties of the pipeline over these definitions.
    Further parts embed [ProcessFeed], the HTTP handlers of both
    services, the key-value store of [chapter07/main.go] and the generic
    linked list of [chapter06/main.go]. *)

From Stdlib Require Import ZArith Lia.
From stdpp Require Import gmap strings list sorting pretty.

Open Scope Z_scope.

(** ** Go values shared by all packages *)

(** What a Go call does: it returns, it panics, or it blocks its goroutine. *)
Inductive exec (A : Type) : Type :=
  | Returns (a : A)
  | Panics (msg : string)
  | Blocks.
Arguments Returns {A} a.
Arguments Panics {A} msg.
Arguments Blocks {A}.

Global Instance exec_ret : MRet exec := λ A a, Returns a.

Global Instance exec_bind : MBind exec := λ A B k m,
  match m with
  | Returns a => k a
  | Panics msg => Panics msg
  | Blocks => Blocks
  end.
Global Arguments exec_bind _ _ _ !_ / : assert.

Definition returns {A} (m : exec A) : Prop := ∃ a, m = Returns a.
Definition panics {A} (m : exec A) : Prop := ∃ msg, m = Panics msg.

(** [time.Time] as an instant on the integer time line; [Compare], [After]
    and [Before] compare instants. *)
Module Time.
Definition Time := Z.

Definition Compare (t u : Time) : Z :=
  match t ?= u with
  | Lt => -1
  | Eq => 0
  | Gt => 1
  end.

Definition After (t u : Time) : bool := u <? t.
Definition Before (t u : Time) : bool := t <? u.
End Time.

(** [feed.Article].  [Published] is a [*time.Time]: [None] is the nil
    pointer.  The go-news variant of the struct has further payload fields
    (Content, Updated, Author, GUID, Categories, FeedDescription) that no
    store operation reads.  The stores keep [*Article] pointers; articles
    are never written after creation, so a pointer is modelled by the value
    it points to. *)
Record Article := mkArticle {
  Title : string;
  Description : string;
  Link : string;
  Published : option Time.Time;
  FeedTitle : string
}.

Global Instance Article_eq_dec : EqDecision Article.
Proof. solve_decision. Defined.

(** ** Slice primitives

    A slice is read here through its elements; which backing array it lives
    in is the subject of the [Mem] model further down. *)

(** Stands for the nil pointer in a slice freshly returned by [make]. *)
Definition nilArticle : Article :=
  {| Title := ""; Description := ""; Link := ""; Published := None;
     FeedTitle := "" |}.

(** [make([]*Article, n)]: [n] nil elements; a negative length panics. *)
Definition make (n : Z) : exec (list Article) :=
  if n <? 0 then Panics "makeslice: len out of range"
  else Returns (replicate (Z.to_nat n) nilArticle).

(** [l[:n]] for a slice whose capacity is its length. *)
Definition slice_upto (l : list Article) (n : Z) : exec (list Article) :=
  if (n <? 0) || (Z.of_nat (length l) <? n)
  then Panics "slice bounds out of range"
  else Returns (take (Z.to_nat n) l).

(** [copy(dst, src)]: the first [min(len(dst), len(src))] elements of [dst]
    are overwritten; the value is [dst] afterwards. *)
Definition copy (dst src : list Article) : list Article :=
  take (length dst) src ++ drop (length src) dst.

(** ** [slices.SortFunc] *)

(** The order a comparator induces: [a] goes strictly before [b]. *)
Definition cmp_lt (cmp : Article → Article → Z) (a b : Article) : Prop :=
  cmp a b < 0.

(** [cmp] behaves as a strict weak ordering on the elements of [l]:
    asymmetric and negatively transitive. *)
Definition StrictWeakOn (cmp : Article → Article → Z) (l : list Article) : Prop :=
  (∀ a b, a ∈ l → b ∈ l → cmp_lt cmp a b → ¬ cmp_lt cmp b a) ∧
  (∀ a b c, a ∈ l → b ∈ l → c ∈ l →
     ¬ cmp_lt cmp a b → ¬ cmp_lt cmp b c → ¬ cmp_lt cmp a c).

Lemma StrictWeakOn_mono cmp l1 l2 :
  (∀ x, x ∈ l1 → x ∈ l2) → StrictWeakOn cmp l2 → StrictWeakOn cmp l1.
Proof.
  intros Hsub [Hasym Htrans]. split.
  - intros a b Ha Hb. apply Hasym; auto.
  - intros a b c Ha Hb Hc. apply Htrans; auto.
Qed.

(** No element is strictly before an earlier one. *)
Definition SortedBy (cmp : Article → Article → Z) : list Article → Prop :=
  StronglySorted (λ a b, ¬ cmp_lt cmp b a).

(** [slices.SortFunc] belongs to Go's standard library and is taken as a
    parameter with its documented contract: the slice is rearranged in
    place, and it ends up in ascending [cmp] order when [cmp] is a strict
    weak ordering.  Nothing is promised about the order otherwise, nor about
    stability. *)
Class Sorter := {
  SortFunc : (Article → Article → Z) → list Article → list Article;
  SortFunc_perm : ∀ cmp l, SortFunc cmp l ≡ₚ l;
  SortFunc_sorted : ∀ cmp l, StrictWeakOn cmp l → SortedBy cmp (SortFunc cmp l)
}.

(** The insertion sort that [slices.SortFunc] runs on slices of at most
    twelve elements:
    [for i := a+1; i < b; i++ {
       for j := i; j > a && cmp(data[j], data[j-1]) < 0; j-- { swap j, j-1 } }].
    [insertBack cmp x rp] is the inner loop: [rp] is the already processed
    prefix [data[a:i]] read from its last element backwards, [x] is
    [data[i]]. *)
Fixpoint insertBack (cmp : Article → Article → Z) (x : Article)
    (rp : list Article) : list Article :=
  match rp with
  | [] => [x]
  | y :: rp' => if cmp x y <? 0 then y :: insertBack cmp x rp' else x :: rp
  end.

Definition insertionSortCmpFunc (cmp : Article → Article → Z)
    (data : list Article) : list Article :=
  reverse (fold_left (λ rp x, insertBack cmp x rp) data []).

(** ** The go-news article store ([go-news/api/internal/store]) *)

Module GoNews.

(** [cache] is a [map[string]any] whose values are all nil: a set of
    links.  [sortPasses] is a ghost counter of the calls to
    [slices.SortFunc]; no operation reads it. *)
Record ArticleStore := mkStore {
  cache : gset string;
  sorted : list Article;
  sortPasses : nat
}.

Definition NewArticleStore : ArticleStore :=
  {| cache := ∅; sorted := []; sortPasses := 0 |}.

(** The comparator literal passed to [slices.SortFunc] in [AddArticle] and
    [AddArticles]. *)
Definition byPublished (a b : Article) : Z :=
  match Published a, Published b with
  | Some ta, Some tb => Time.Compare tb ta
  | _, _ => 0
  end.

Section ops.
Context `{Sorter}.

Definition AddArticle (s : ArticleStore) (article : Article) : ArticleStore :=
  if decide (Link article ∈ cache s) then s
  else
    {| cache := {[Link article]} ∪ cache s;
       sorted := SortFunc byPublished (sorted s ++ [article]);
       sortPasses := S (sortPasses s) |}.

(** The body of the [for _, article := range articles] loop, on the pair
    of the store and the [dirty] flag. *)
Definition addLoop (st : ArticleStore * bool) (article : Article)
    : ArticleStore * bool :=
  let '(s, dirty) := st in
  if decide (Link article ∈ cache s) then (s, dirty)
  else
    ({| cache := {[Link article]} ∪ cache s;
        sorted := sorted s ++ [article];
        sortPasses := sortPasses s |}, true).

Definition AddArticles (s : ArticleStore) (articles : list Article)
    : ArticleStore :=
  let '(s', dirty) := fold_left addLoop articles (s, false) in
  if dirty then
    {| cache := cache s';
       sorted := SortFunc byPublished (sorted s');
       sortPasses := S (sortPasses s') |}
  else s'.
End ops.

(** [GetRecent] returns [s.sorted] itself, or the reslice [s.sorted[:n]];
    a negative [n] is a slice bound out of range. *)
Definition GetRecent (s : ArticleStore) (n : Z) : exec (list Article) :=
  if Z.of_nat (length (sorted s)) <? n then Returns (sorted s)
  else slice_upto (sorted s) n.

(** The number of stored articles ([len(s.sorted)]; the status handler
    reads it as [len(GetRecent(1000000))]). *)
Definition Count (s : ArticleStore) : nat := length (sorted s).

End GoNews.

(** ** The article store of [chapter11/api/internal/store] *)

Module Api.

Record ArticleStore := mkStore {
  articles : list Article
}.

Definition NewArticleStore : ArticleStore := {| articles := [] |}.

(** The comparator literal of [AddArticles]: nil dates go to the end, the
    rest newest first. *)
Definition byPublished (a b : Article) : Z :=
  match Published a, Published b with
  | None, None => 0
  | None, Some _ => 1
  | Some _, None => -1
  | Some ta, Some tb =>
      if Time.After ta tb then -1
      else if Time.Before ta tb then 1
      else 0
  end.

Section ops.
Context `{Sorter}.

(** Appends the whole batch and sorts; the error returned is always nil
    ([None]). *)
Definition AddArticles (s : ArticleStore) (batch : list Article)
    : ArticleStore * option string :=
  ({| articles := SortFunc byPublished (articles s ++ batch) |}, None).
End ops.

Definition GetRecent (s : ArticleStore) (n : Z) : exec (list Article) :=
  if n <=? 0 then Returns []
  else
    let n := if Z.of_nat (length (articles s)) <? n
             then Z.of_nat (length (articles s)) else n in
    result ← make n;
    src ← slice_upto (articles s) n;
    Returns (copy result src).

Definition Count (s : ArticleStore) : nat := length (articles s).

End Api.

(** ** Backing arrays: which memory a returned slice lives in *)

Module Mem.

Definition loc := nat.

(** The backing arrays of all slices, by address. *)
Abbreviation heap := (gmap loc (list Article)).

(** A slice header whose offset into its backing array is zero (no
    operation below reslices from a non-zero start); its capacity is the
    length of the array. *)
Record slice := mkSlice {
  base : loc;
  len : nat
}.

Definition array (h : heap) (sl : slice) : list Article :=
  default [] (h !! base sl).

Definition cap (h : heap) (sl : slice) : nat := length (array h sl).

(** The elements seen through a slice. *)
Definition contents (h : heap) (sl : slice) : list Article :=
  take (len sl) (array h sl).

(** [make([]*Article, n)]: a fresh backing array of [n] nil elements. *)
Definition make (h : heap) (n : Z) : exec (heap * slice) :=
  if n <? 0 then Panics "makeslice: len out of range"
  else
    let p := fresh (dom h) in
    Returns (<[p := replicate (Z.to_nat n) nilArticle]> h,
             {| base := p; len := Z.to_nat n |}).

(** [sl[:n]]: the same backing array, another length. *)
Definition slice_upto (h : heap) (sl : slice) (n : Z) : exec slice :=
  if (n <? 0) || (Z.of_nat (cap h sl) <? n)
  then Panics "slice bounds out of range"
  else Returns {| base := base sl; len := Z.to_nat n |}.

(** [copy(dst, src)] writes into the backing array of [dst]. *)
Definition copy (h : heap) (dst src : slice) : heap :=
  <[base dst := copy (contents h dst) (contents h src)
                ++ drop (len dst) (array h dst)]> h.

(** [sl[i] = v]. *)
Definition set (h : heap) (sl : slice) (i : Z) (v : Article) : exec heap :=
  if (i <? 0) || (Z.of_nat (len sl) <=? i)
  then Panics "index out of range"
  else Returns (<[base sl := <[Z.to_nat i := v]> (array h sl)]> h).

(** A run of element assignments through one slice. *)
Fixpoint setAll (h : heap) (sl : slice) (ws : list (Z * Article)) : exec heap :=
  match ws with
  | [] => Returns h
  | (i, v) :: ws' => h' ← set h sl i v; setAll h' sl ws'
  end.

End Mem.

(** [GetRecent] of the go-news store, on the heap: [sorted] is the header
    of [s.sorted]. *)
Module GoNewsMem.
Import Mem.

Definition GetRecent (h : heap) (sorted : slice) (n : Z) : exec (heap * slice) :=
  if Z.of_nat (len sorted) <? n then Returns (h, sorted)
  else r ← slice_upto h sorted n; Returns (h, r).
End GoNewsMem.

(** [GetRecent] of the chapter11/api store, on the heap: [articles] is the
    header of [s.articles]. *)
Module ApiMem.
Import Mem.

Definition GetRecent (h : heap) (articles : slice) (n : Z) : exec (heap * slice) :=
  if n <=? 0 then make h 0
  else
    let n := if Z.of_nat (len articles) <? n
             then Z.of_nat (len articles) else n in
    '(h1, result) ← make h n;
    src ← slice_upto h1 articles n;
    Returns (copy h1 result src, result).
End ApiMem.

(** ** Buffered channels *)

Module Chan.

(** A buffered channel: the queued values, the capacity given to [make],
    and whether [close] was called.  Every channel of the pipeline is
    buffered; a send finding the buffer full blocks. *)
Record chan (A : Type) := mkChan {
  buf : list A;
  cap : nat;
  closed : bool
}.
Arguments mkChan {A} buf cap closed.
Arguments buf {A} c.
Arguments cap {A} c.
Arguments closed {A} c.

Definition make {A} (n : nat) : chan A :=
  {| buf := []; cap := n; closed := false |}.

(** [c <- v] *)
Definition send {A} (c : chan A) (v : A) : exec (chan A) :=
  if closed c then Panics "send on closed channel"
  else if (length (buf c) <? cap c)%nat
  then Returns {| buf := buf c ++ [v]; cap := cap c; closed := closed c |}
  else Blocks.

(** [v, ok := <-c]; [zero] is the zero value of the element type. *)
Definition recv {A} (zero : A) (c : chan A) : exec (A * bool * chan A) :=
  match buf c with
  | v :: rest => Returns (v, true, {| buf := rest; cap := cap c; closed := closed c |})
  | [] => if closed c then Returns (zero, false, c) else Blocks
  end.

(** [close(c)] *)
Definition close {A} (c : chan A) : exec (chan A) :=
  if closed c then Panics "close of closed channel"
  else Returns {| buf := buf c; cap := cap c; closed := true |}.

(** Whether a receive case of a [select] can proceed. *)
Definition ready {A} (c : chan A) : bool :=
  match buf c with
  | _ :: _ => true
  | [] => closed c
  end.

End Chan.

(** ** The worker pool ([go-news/api/internal/worker]) *)

Module Worker.

Section pool.
(** The [FeedProcessor] handed to the pool. *)
Context {P : Type}.

(** The [incomingFeeds] field of a worker is the pool's channel itself;
    the shared channel is kept once, in the pool. *)
Record Worker := mkWorker {
  processor : P
}.

Record WorkerPool := mkPool {
  workers : list Worker;
  incomingFeeds : Chan.chan string
}.

Definition NewWorker (processor : P) : Worker :=
  {| processor := processor |}.

(** [for i := 0; i < count; i++] appends [count] workers (none when
    [count <= 0]). *)
Definition NewWorkerPool (processor : P) (count : Z) : WorkerPool :=
  {| incomingFeeds := Chan.make 100;
     workers := replicate (Z.to_nat count) (NewWorker processor) |}.

Definition Submit (wp : WorkerPool) (url : string) : exec WorkerPool :=
  c ← Chan.send (incomingFeeds wp) url;
  Returns {| workers := workers wp; incomingFeeds := c |}.

Definition Stop (wp : WorkerPool) : exec WorkerPool :=
  c ← Chan.close (incomingFeeds wp);
  Returns {| workers := workers wp; incomingFeeds := c |}.

(** One round of [for url := range w.incomingFeeds] in some worker: the
    URL taken from the queue ([None] when the queue is closed and empty
    and the worker leaves its loop). *)
Definition take1 (wp : WorkerPool) : exec (option string * WorkerPool) :=
  '(url, ok, c) ← Chan.recv "" (incomingFeeds wp);
  Returns (if ok : bool then Some url else None,
           {| workers := workers wp; incomingFeeds := c |}).

(** [Submit] called on one URL after the other. *)
Fixpoint SubmitAll (wp : WorkerPool) (urls : list string) : exec WorkerPool :=
  match urls with
  | [] => Returns wp
  | url :: urls' => wp' ← Submit wp url; SubmitAll wp' urls'
  end.

(** The number of pending feeds ([len(wp.incomingFeeds)] in
    [PrintStatus]). *)
Definition pending (wp : WorkerPool) : nat :=
  length (Chan.buf (incomingFeeds wp)).
End pool.
Arguments Worker : clear implicits.
Arguments WorkerPool : clear implicits.

End Worker.

(** ** [SyncHandler]: fan-out, fan-in ([go-news/api/internal/handlers]) *)

Module Handlers.

(** The local [result] struct: [err] is [None] for a nil error, else the
    text of [err.Error()]. *)
Record result := mkResult {
  articles : list Article;
  err : option string
}.

(** [fetcher i url] is what [FetchFeedSync(ctx, url)] returns to the
    goroutine launched [i]-th: the call leaves the program, and two
    fetches of one URL need not agree. *)
Record Handler := mkHandler {
  fetcher : nat → string → result;
  feedURLs : list string
}.

(** A launched goroutine: its launch index, its [url] argument, and
    whether it is past [resultsChan <- result{...}] (what is left then is
    the deferred [wg.Done()]). *)
Record goroutine := mkGoroutine {
  idx : nat;
  url : string;
  sent : bool
}.

(** The goroutine [go func() { wg.Wait(); close(resultsChan) }()]. *)
Inductive closer := NotSpawned | Waiting | Finished.

(** What is written to the [http.ResponseWriter]: the status, and the
    JSON body, either the bare article list or the object with the
    ["articles"] and ["errors"] keys. *)
Record response := mkResponse {
  status : Z;
  body_articles : list Article;
  body_errors : option (list string)
}.

(** Where the handler's own goroutine stands. *)
Inductive pc := FanOut | FanIn | Responded (resp : response).

Record state := mkState {
  launched : nat;
  toLaunch : list string;
  running : list goroutine;
  wg : Z;
  resultsChan : Chan.chan result;
  closing : closer;
  main : pc;
  errors : list string;
  collected : list Article
}.

Definition zeroResult : result := {| articles := []; err := None |}.

Definition init (h : Handler) : state :=
  {| launched := 0;
     toLaunch := feedURLs h;
     running := [];
     wg := 0;
     resultsChan := Chan.make (length (feedURLs h));
     closing := NotSpawned;
     main := FanOut;
     errors := [];
     collected := [] |}.

(** The tail of the handler, after the [range resultsChan] loop. *)
Definition respond (errors : list string) (collected : list Article) : response :=
  if (0 <? length errors)%nat
  then {| status := 206; body_articles := collected; body_errors := Some errors |}
  else {| status := 200; body_articles := collected; body_errors := None |}.

(** The steps the scheduler can pick.  [Send i] and [Done i] name the
    [i]-th goroutine still alive. *)
Inductive event :=
  | Launch          (* one round of the fan-out loop: wg.Add(1); go func *)
  | Send (i : nat)  (* FetchFeedSync returns; resultsChan <- result *)
  | Done (i : nat)  (* the deferred wg.Done() *)
  | SpawnCloser     (* go func() { wg.Wait(); close(resultsChan) }() *)
  | CloseResults    (* wg.Wait() returns; close(resultsChan) *)
  | Receive.        (* one receive of for res := range resultsChan *)

(** One step; [Blocks] when the goroutine meant cannot move now. *)
Definition step (h : Handler) (ev : event) (s : state) : exec state :=
  match ev with
  | Launch =>
      match main s, toLaunch s with
      | FanOut, feedURL :: rest =>
          Returns {| launched := S (launched s);
                     toLaunch := rest;
                     running := running s ++
                       [{| idx := launched s; url := feedURL; sent := false |}];
                     wg := wg s + 1;
                     resultsChan := resultsChan s;
                     closing := closing s;
                     main := main s;
                     errors := errors s;
                     collected := collected s |}
      | _, _ => Blocks
      end
  | Send i =>
      match running s !! i with
      | Some g =>
          if sent g then Blocks
          else
            c ← Chan.send (resultsChan s) (fetcher h (idx g) (url g));
            Returns {| launched := launched s;
                       toLaunch := toLaunch s;
                       running := <[i := {| idx := idx g; url := url g; sent := true |}]>
                                    (running s);
                       wg := wg s;
                       resultsChan := c;
                       closing := closing s;
                       main := main s;
                       errors := errors s;
                       collected := collected s |}
      | None => Blocks
      end
  | Done i =>
      match running s !! i with
      | Some g =>
          if sent g then
            if wg s - 1 <? 0 then Panics "sync: negative WaitGroup counter"
            else
              Returns {| launched := launched s;
                         toLaunch := toLaunch s;
                         running := delete i (running s);
                         wg := wg s - 1;
                         resultsChan := resultsChan s;
                         closing := closing s;
                         main := main s;
                         errors := errors s;
                         collected := collected s |}
          else Blocks
      | None => Blocks
      end
  | SpawnCloser =>
      match main s, toLaunch s with
      | FanOut, [] =>
          Returns {| launched := launched s;
                     toLaunch := toLaunch s;
                     running := running s;
                     wg := wg s;
                     resultsChan := resultsChan s;
                     closing := Waiting;
                     main := FanIn;
                     errors := errors s;
                     collected := collected s |}
      | _, _ => Blocks
      end
  | CloseResults =>
      match closing s with
      | Waiting =>
          if wg s =? 0 then
            c ← Chan.close (resultsChan s);
            Returns {| launched := launched s;
                       toLaunch := toLaunch s;
                       running := running s;
                       wg := wg s;
                       resultsChan := c;
                       closing := Finished;
                       main := main s;
                       errors := errors s;
                       collected := collected s |}
          else Blocks
      | _ => Blocks
      end
  | Receive =>
      match main s with
      | FanIn =>
          '(res, ok, c) ← Chan.recv zeroResult (resultsChan s);
          if ok : bool then
            match err res with
            | Some e =>
                Returns {| launched := launched s;
                           toLaunch := toLaunch s;
                           running := running s;
                           wg := wg s;
                           resultsChan := c;
                           closing := closing s;
                           main := main s;
                           errors := errors s ++ [e];
                           collected := collected s |}
            | None =>
                Returns {| launched := launched s;
                           toLaunch := toLaunch s;
                           running := running s;
                           wg := wg s;
                           resultsChan := c;
                           closing := closing s;
                           main := main s;
                           errors := errors s;
                           collected := collected s ++ articles res |}
            end
          else
            Returns {| launched := launched s;
                       toLaunch := toLaunch s;
                       running := running s;
                       wg := wg s;
                       resultsChan := c;
                       closing := closing s;
                       main := Responded (respond (errors s) (collected s));
                       errors := errors s;
                       collected := collected s |}
      | _ => Blocks
      end
  end.

(** A schedule: the events in the order the scheduler picks them. *)
Fixpoint run (h : Handler) (evs : list event) (s : state) : exec state :=
  match evs with
  | [] => Returns s
  | ev :: evs' => s' ← step h ev s; run h evs' s'
  end.

(** The outcome of every fetch, in the order of [feedURLs]. *)
Definition outcomesFrom (h : Handler) (i : nat) (urls : list string) : list result :=
  imap (λ j u, fetcher h (i + j) u) urls.

Definition outcomes (h : Handler) : list result :=
  outcomesFrom h 0 (feedURLs h).

Definition failed (r : result) : bool :=
  match err r with Some _ => true | None => false end.

(** What the fan-in loop makes of the results it receives in the order
    [rs]. *)
Definition errorsOf (rs : list result) : list string :=
  omap err rs.

Definition articlesOf (rs : list result) : list Article :=
  concat (articles <$> filter (λ r, failed r = false) rs).

End Handlers.

(** ** The application and its dispatch loop ([go-news/api/internal/app]) *)

Module App.

(** The worker pool's processor is the application itself; the pointer
    back is not needed to run the dispatch loop and is left as a token.
    [errChan] carries [error] values: [None] is nil, else the message. *)
Record App := mkApp {
  store : GoNews.ArticleStore;
  feedRead : Chan.chan string;
  errChan : Chan.chan (option string);
  workerPool : Worker.WorkerPool unit
}.

Definition NewApp : App :=
  {| store := GoNews.NewArticleStore;
     feedRead := Chan.make 5;
     errChan := Chan.make 5;
     workerPool := Worker.NewWorkerPool tt 3 |}.

(** Which receive case of the [select] the runtime takes when both can
    proceed. *)
Inductive pick := PickFeed | PickErr.

(** One round of [for { select { ... } }]: the state after it and the
    line printed, if any. *)
Definition runIter (p : pick) (a : App) : exec (App * option string) :=
  let feedReady := Chan.ready (feedRead a) in
  let errReady := Chan.ready (errChan a) in
  if feedReady && (negb errReady || match p with PickFeed => true | PickErr => false end) then
    '(feed, _, c) ← Chan.recv "" (feedRead a);
    wp ← Worker.Submit (workerPool a) feed;
    Returns ({| store := store a; feedRead := c; errChan := errChan a;
                workerPool := wp |}, None)
  else if errReady then
    '(err, _, c) ← Chan.recv None (errChan a);
    Returns ({| store := store a; feedRead := feedRead a; errChan := c;
                workerPool := workerPool a |},
             Some ("error: " +:+ default "<nil>" err))
  else
    Returns (a, None).

(** The loop has no [break] and no [return]: [run ps a] is the state after
    [length ps] rounds, and the goroutine ends only if a round panics. *)
Fixpoint run (ps : list pick) (a : App) : exec App :=
  match ps with
  | [] => Returns a
  | p :: ps' => '(a', _) ← runIter p a; run ps' a'
  end.

Definition Close (a : App) : exec App :=
  fr ← Chan.close (feedRead a);
  ec ← Chan.close (errChan a);
  wp ← Worker.Stop (workerPool a);
  Returns {| store := store a; feedRead := fr; errChan := ec; workerPool := wp |}.

(** The state [Close] leaves behind: all three channels closed. *)
Definition shutDown (a : App) : Prop :=
  Chan.closed (feedRead a) = true ∧
  Chan.closed (errChan a) = true ∧
  Chan.closed (Worker.incomingFeeds (workerPool a)) = true.

End App.

(** ** Vocabulary of the properties *)

(** The articles of [l] that a store whose identity set is [seen] takes in:
    the first copy of every link not seen before. *)
Fixpoint firstCopies (seen : gset string) (l : list Article) : list Article :=
  match l with
  | [] => []
  | a :: l' =>
      if decide (Link a ∈ seen) then firstCopies seen l'
      else a :: firstCopies ({[Link a]} ∪ seen) l'
  end.

(** The distinct identities of a run of articles. *)
Definition identities (l : list Article) : gset string :=
  list_to_set (Link <$> l).

(** [a] may stand before [b] in a newest-first listing: no later date
    follows an earlier one, and nothing dated follows an undated article. *)
Definition recentOrder (a b : Article) : Prop :=
  match Published a, Published b with
  | Some ta, Some tb => tb ≤ ta
  | Some _, None => True
  | None, Some _ => False
  | None, None => True
  end.

Definition NewestFirst : list Article → Prop := StronglySorted recentOrder.

Definition dated (a : Article) : Prop := is_Some (Published a).

Module GoNewsRuns.
Import GoNews.
Section runs.
Context `{Sorter}.

(** A sequence of [AddArticles] calls on a store. *)
Definition addBatches (s : ArticleStore) (batches : list (list Article))
    : ArticleStore :=
  fold_left AddArticles batches s.

(** [AddArticle] called on each element of a batch in order. *)
Definition addEach (s : ArticleStore) (batch : list Article) : ArticleStore :=
  fold_left AddArticle batch s.

(** The states a store goes through. *)
Inductive reachable : ArticleStore → Prop :=
  | reach_new : reachable NewArticleStore
  | reach_AddArticle s a : reachable s → reachable (AddArticle s a)
  | reach_AddArticles s batch : reachable s → reachable (AddArticles s batch).
End runs.
End GoNewsRuns.

Module ApiRuns.
Import Api.
Section runs.
Context `{Sorter}.

Definition addBatches (s : ArticleStore) (batches : list (list Article))
    : ArticleStore :=
  fold_left (λ s batch, (AddArticles s batch).1) batches s.

Inductive reachable : ArticleStore → Prop :=
  | reach_new : reachable NewArticleStore
  | reach_AddArticles s batch : reachable s → reachable (AddArticles s batch).1.
End runs.
End ApiRuns.

(** ** The insertion sort meets the contract of [slices.SortFunc] *)

Section insertion_sort.
Variable cmp : Article → Article → Z.

Lemma insertBack_perm x rp : insertBack cmp x rp ≡ₚ x :: rp.
Proof.
  induction rp as [|y rp IH]; simpl; [done|].
  destruct (cmp x y <? 0); [|done].
  rewrite IH. apply Permutation_swap.
Qed.

Lemma insertion_fold_perm data rp :
  fold_left (λ rp x, insertBack cmp x rp) data rp ≡ₚ data ++ rp.
Proof.
  revert rp. induction data as [|x data IH]; intros rp; simpl; [done|].
  rewrite IH, insertBack_perm. by rewrite Permutation_middle.
Qed.

Lemma insertionSortCmpFunc_perm data : insertionSortCmpFunc cmp data ≡ₚ data.
Proof.
  unfold insertionSortCmpFunc.
  rewrite reverse_Permutation, insertion_fold_perm. by rewrite app_nil_r.
Qed.

(** The processed prefix, read backwards: no element is strictly before a
    later one of the list (an earlier one of the slice). *)
Definition RevSorted : list Article → Prop :=
  StronglySorted (λ a b, ¬ cmp_lt cmp a b).

Lemma insertBack_sorted x rp :
  StrictWeakOn cmp (x :: rp) → RevSorted rp → RevSorted (insertBack cmp x rp).
Proof.
  induction rp as [|y rp IH]; intros Hsw Hs; simpl.
  - repeat constructor.
  - apply StronglySorted_inv in Hs as [Hs Hy].
    rewrite Forall_forall in Hy.
    destruct Hsw as [Hasym Htrans].
    destruct (Z.ltb_spec (cmp x y) 0) as [Hlt|Hge].
    + constructor.
      * apply IH; [|done].
        eapply StrictWeakOn_mono; [|by split].
        intros z Hz. apply elem_of_cons in Hz as [->|Hz]; repeat constructor; done.
      * apply Forall_forall. intros z Hz.
        rewrite insertBack_perm in Hz. apply elem_of_cons in Hz as [->|Hz].
        -- apply Hasym; [repeat constructor..|done].
        -- by apply Hy.
    + constructor; [constructor; [done|by apply Forall_forall]|].
      constructor; [unfold cmp_lt; lia|].
      apply Forall_forall. intros z Hz.
      apply (Htrans x y z); [repeat constructor; done..| unfold cmp_lt; lia | by apply Hy].
Qed.

Lemma insertion_fold_sorted data rp :
  StrictWeakOn cmp (data ++ rp) → RevSorted rp →
  RevSorted (fold_left (λ rp x, insertBack cmp x rp) data rp).
Proof.
  revert rp. induction data as [|x data IH]; intros rp Hsw Hs; simpl; [done|].
  apply IH.
  - eapply StrictWeakOn_mono; [|exact Hsw].
    intros z. rewrite !elem_of_app, insertBack_perm, !elem_of_cons. tauto.
  - apply insertBack_sorted; [|done].
    eapply StrictWeakOn_mono; [|exact Hsw].
    intros z. rewrite elem_of_app, !elem_of_cons. tauto.
Qed.

Lemma RevSorted_reverse l : RevSorted l → SortedBy cmp (reverse l).
Proof.
  unfold RevSorted, SortedBy. induction 1 as [|x l Hs IH Hx].
  - constructor.
  - rewrite reverse_cons. apply StronglySorted_app_2; [|done|repeat constructor].
    intros a b Ha Hb. apply list_elem_of_singleton in Hb as ->.
    rewrite elem_of_reverse in Ha. rewrite Forall_forall in Hx. by apply Hx.
Qed.

Lemma insertionSortCmpFunc_sorted data :
  StrictWeakOn cmp data → SortedBy cmp (insertionSortCmpFunc cmp data).
Proof.
  intros Hsw. apply RevSorted_reverse, insertion_fold_sorted.
  - by rewrite app_nil_r.
  - constructor.
Qed.
End insertion_sort.

(** The sorter used to run the stores on concrete inputs. *)
Definition insertionSorter : Sorter :=
  {| SortFunc := insertionSortCmpFunc;
     SortFunc_perm := insertionSortCmpFunc_perm;
     SortFunc_sorted := insertionSortCmpFunc_sorted |}.

(** ** The go-news store: identity set and stored sequence *)

Section gonews_store.
Context `{Sorter}.
Import GoNews GoNewsRuns.

(** The loop of [AddArticles] appends exactly the first copies of the
    links the cache does not hold. *)
Lemma addLoop_fold articles s dirty :
  fold_left addLoop articles (s, dirty) =
    ({| cache := identities articles ∪ cache s;
        sorted := sorted s ++ firstCopies (cache s) articles;
        sortPasses := sortPasses s |},
     dirty || bool_decide (firstCopies (cache s) articles ≠ [])).
Proof.
  revert s dirty. induction articles as [|a l IH]; intros s dirty; simpl.
  - unfold identities; simpl. rewrite union_empty_l_L, app_nil_r, orb_false_r.
    by destruct s.
  - destruct (decide (Link a ∈ cache s)) as [Hin|Hnin].
    + rewrite IH. unfold identities; simpl.
      do 2 f_equal. set_solver.
    + rewrite IH; simpl. unfold identities; simpl.
      rewrite <- app_assoc; simpl. rewrite orb_true_r.
      do 2 f_equal. set_solver.
Qed.

Lemma AddArticles_cache s batch :
  cache (AddArticles s batch) = identities batch ∪ cache s.
Proof.
  unfold AddArticles. rewrite addLoop_fold; simpl.
  by case_bool_decide.
Qed.

Lemma AddArticles_sorted s batch :
  sorted (AddArticles s batch) ≡ₚ sorted s ++ firstCopies (cache s) batch.
Proof.
  unfold AddArticles. rewrite addLoop_fold; simpl.
  case_bool_decide; simpl; [|done]. apply SortFunc_perm.
Qed.

Lemma AddArticles_nothing_new s batch :
  firstCopies (cache s) batch = [] →
  sorted (AddArticles s batch) = sorted s ∧
  sortPasses (AddArticles s batch) = sortPasses s.
Proof.
  intros Hnil. unfold AddArticles. rewrite addLoop_fold; simpl.
  case_bool_decide; [done|]. simpl. by rewrite Hnil, app_nil_r.
Qed.

Lemma AddArticles_something_new s batch :
  firstCopies (cache s) batch ≠ [] →
  sorted (AddArticles s batch) =
    SortFunc byPublished (sorted s ++ firstCopies (cache s) batch) ∧
  sortPasses (AddArticles s batch) = S (sortPasses s).
Proof.
  intros Hnew. unfold AddArticles. rewrite addLoop_fold; simpl.
  by case_bool_decide.
Qed.

Lemma AddArticle_cache s a :
  cache (AddArticle s a) = {[Link a]} ∪ cache s.
Proof.
  unfold AddArticle. destruct (decide _); simpl; [set_solver|done].
Qed.

Lemma AddArticle_sorted s a :
  sorted (AddArticle s a) ≡ₚ sorted s ++ firstCopies (cache s) [a].
Proof.
  unfold AddArticle; simpl. destruct (decide _); simpl.
  - by rewrite app_nil_r.
  - apply SortFunc_perm.
Qed.

Lemma firstCopies_app seen l1 l2 :
  firstCopies seen (l1 ++ l2) =
    firstCopies seen l1 ++ firstCopies (identities l1 ∪ seen) l2.
Proof.
  revert seen. induction l1 as [|a l1 IH]; intros seen; simpl.
  - unfold identities; simpl. by rewrite union_empty_l_L.
  - unfold identities in *; simpl. destruct (decide _) as [Hin|Hnin].
    + rewrite IH. do 2 f_equal. set_solver.
    + rewrite IH; simpl. do 3 f_equal. set_solver.
Qed.

Lemma firstCopies_links seen l a :
  a ∈ firstCopies seen l → a ∈ l ∧ Link a ∉ seen.
Proof.
  revert seen. induction l as [|b l IH]; intros seen; simpl; [by intros ?%elem_of_nil|].
  destruct (decide _) as [Hin|Hnin].
  - intros [? ?]%IH. split; [by right|done].
  - intros [->|[? ?]%IH]%elem_of_cons; [split; [by left|done]|].
    split; [by right|set_solver].
Qed.

Lemma firstCopies_NoDup seen l : NoDup (Link <$> firstCopies seen l).
Proof.
  revert seen. induction l as [|a l IH]; intros seen; simpl; [constructor|].
  destruct (decide _); [done|]. simpl. constructor; [|done].
  intros (b & Hb & [_ Hnin]%firstCopies_links)%list_elem_of_fmap. set_solver.
Qed.

Lemma firstCopies_identities seen l :
  identities (firstCopies seen l) = identities l ∖ seen.
Proof.
  revert seen. induction l as [|a l IH]; intros seen; simpl.
  - unfold identities; simpl. set_solver.
  - replace (identities (a :: l)) with ({[Link a]} ∪ identities l) by done.
    destruct (decide _) as [Hin|Hnin].
    + rewrite IH. set_solver.
    + replace (identities (a :: firstCopies ({[Link a]} ∪ seen) l))
        with ({[Link a]} ∪ identities (firstCopies ({[Link a]} ∪ seen) l)) by done.
      rewrite IH. apply set_eq. intros x.
      destruct (decide (x = Link a)) as [->|]; set_solver.
Qed.

(** The store invariant: the cache holds exactly the links of the stored
    articles, and no link is stored twice. *)
Definition consistent (s : ArticleStore) : Prop :=
  cache s = identities (sorted s) ∧ NoDup (Link <$> sorted s).

Lemma identities_perm l1 l2 : l1 ≡ₚ l2 → identities l1 = identities l2.
Proof. intros Hp. unfold identities. apply set_eq. intros x.
  rewrite !elem_of_list_to_set. by rewrite Hp. Qed.

Lemma identities_app l1 l2 : identities (l1 ++ l2) = identities l1 ∪ identities l2.
Proof. unfold identities. rewrite fmap_app. apply set_eq. intros x.
  rewrite elem_of_union, !elem_of_list_to_set, elem_of_app. done. Qed.

Lemma consistent_grow seen l extra stored :
  seen = identities l → NoDup (Link <$> l) →
  stored ≡ₚ l ++ firstCopies seen extra →
  identities extra ∪ seen = identities stored ∧ NoDup (Link <$> stored).
Proof.
  intros -> Hnd Hp. split.
  - rewrite (identities_perm _ _ Hp), identities_app, firstCopies_identities.
    apply set_eq. intros x. destruct (decide (x ∈ identities l)); set_solver.
  - rewrite Hp, fmap_app. apply NoDup_app. split_and!; [done| |apply firstCopies_NoDup].
    intros x Hx (b & -> & [_ Hnin]%firstCopies_links)%list_elem_of_fmap.
    apply Hnin. unfold identities. by apply elem_of_list_to_set.
Qed.

Lemma AddArticles_consistent s batch :
  consistent s → consistent (AddArticles s batch).
Proof.
  intros [Hc Hnd]. unfold consistent. rewrite AddArticles_cache.
  eapply consistent_grow; [done..|apply AddArticles_sorted].
Qed.

Lemma AddArticle_consistent s a :
  consistent s → consistent (AddArticle s a).
Proof.
  intros [Hc Hnd]. unfold consistent. rewrite AddArticle_cache.
  replace ({[Link a]} ∪ cache s) with (identities [a] ∪ cache s)
    by (unfold identities; simpl; set_solver).
  eapply consistent_grow; [done..|apply AddArticle_sorted].
Qed.

Lemma reachable_consistent s : reachable s → consistent s.
Proof.
  induction 1.
  - split; [done|constructor].
  - by apply AddArticle_consistent.
  - by apply AddArticles_consistent.
Qed.
End gonews_store.

(** ** Sequences of batch insertions *)

Section dedup.
Context `{Sorter}.

(** What [firstCopies] keeps: the occurrences that no earlier article of
    the run, and no identity already seen, has the link of. *)
Lemma firstCopies_first seen l a :
  a ∈ firstCopies seen l ↔
  ∃ i, l !! i = Some a ∧ (Link a ∉ seen) ∧
       ∀ j b, (j < i)%nat → l !! j = Some b → Link b ≠ Link a.
Proof.
  revert seen. induction l as [|b l IH]; intros seen; simpl.
  - split; [by intros ?%elem_of_nil|]. by intros (i & ? & _).
  - destruct (decide (Link b ∈ seen)) as [Hin|Hnin].
    + rewrite IH. split.
      * intros (i & Hi & Hs & Hfirst). exists (S i). split_and!; [done..|].
        intros [|j] c Hj Hc; simpl in Hc.
        -- injection Hc as <-. congruence.
        -- apply (Hfirst j); [lia|done].
      * intros ([|i] & Hi & Hs & Hfirst); simpl in Hi.
        -- injection Hi as <-. done.
        -- exists i. split_and!; [done..|].
           intros j c Hj Hc. apply (Hfirst (S j)); [lia|done].
    + rewrite elem_of_cons, IH. split.
      * intros [->|(i & Hi & Hs & Hfirst)].
        -- exists 0%nat. split_and!; [done..|]. intros j c Hj. lia.
        -- exists (S i). split_and!; [done|set_solver|].
           intros [|j] c Hj Hc; simpl in Hc.
           ++ injection Hc as <-. set_solver.
           ++ apply (Hfirst j); [lia|done].
      * intros ([|i] & Hi & Hs & Hfirst); simpl in Hi.
        -- injection Hi as <-. by left.
        -- right. exists i. split_and!; [done| |].
           ++ assert (Link b ≠ Link a) by (apply (Hfirst 0%nat); [lia|done]).
              set_solver.
           ++ intros j c Hj Hc. apply (Hfirst (S j)); [lia|done].
Qed.

Lemma firstCopies_length l :
  length (firstCopies ∅ l) = size (identities l).
Proof.
  rewrite <- (length_fmap Link).
  rewrite <- (size_list_to_set (C := gset string)) by apply firstCopies_NoDup.
  change (size (identities (firstCopies ∅ l)) = size (identities l)).
  rewrite firstCopies_identities. f_equal. set_solver.
Qed.

Lemma GoNews_addBatches_spec s batches :
  GoNews.cache (GoNewsRuns.addBatches s batches)
    = identities (concat batches) ∪ GoNews.cache s ∧
  GoNews.sorted (GoNewsRuns.addBatches s batches)
    ≡ₚ GoNews.sorted s ++ firstCopies (GoNews.cache s) (concat batches).
Proof.
  revert s. induction batches as [|b bs IH]; intros s; simpl.
  - unfold identities; simpl. split; [set_solver|by rewrite app_nil_r].
  - destruct (IH (GoNews.AddArticles s b)) as [Hc Hs].
    unfold GoNewsRuns.addBatches in *. rewrite Hc, Hs.
    rewrite AddArticles_cache, AddArticles_sorted, identities_app, firstCopies_app.
    split; [set_solver|by rewrite <- app_assoc].
Qed.

Lemma Api_addBatches_spec s batches :
  Api.articles (ApiRuns.addBatches s batches) ≡ₚ Api.articles s ++ concat batches.
Proof.
  revert s. induction batches as [|b bs IH]; intros s; simpl.
  - by rewrite app_nil_r.
  - unfold ApiRuns.addBatches in *. rewrite IH; simpl.
    by rewrite SortFunc_perm, <- app_assoc.
Qed.
End dedup.

(** An article used to run the stores. *)
Definition sample (link : string) (published : option Z) : Article :=
  {| Title := "title of " +:+ link; Description := ""; Link := link;
     Published := published; FeedTitle := "feed" |}.

(** The store of chapter11/api has no identity set: a batch holding one
    article twice leaves two stored articles for one identity. *)
Lemma dedup_fails_without_cache :
  ¬ (∀ (S : Sorter) (batches : list (list Article)),
       Api.Count (ApiRuns.addBatches Api.NewArticleStore batches)
       = size (identities (concat batches))).
Proof.
  intros Hclaim.
  specialize (Hclaim insertionSorter [[sample "a" (Some 1); sample "a" (Some 1)]]).
  vm_compute in Hclaim. discriminate.
Qed.

(** C1 (amended).  After any sequence of [AddArticles] calls on an empty
    go-news store (the store with the identity cache) no two stored articles
    share a link, the count is the number of distinct links inserted however
    they were repeated or batched, and the stored articles are exactly the
    first-arriving copy of every link.  The store of chapter11/api keeps
    every article it is given: its count is the number of articles
    inserted. *)
Theorem dedup_invariant `{Sorter} (batches : list (list Article)) :
  let s := GoNewsRuns.addBatches GoNews.NewArticleStore batches in
  let all := concat batches in
  (NoDup (Link <$> GoNews.sorted s) ∧
   GoNews.Count s = size (identities all) ∧
   GoNews.cache s = identities all ∧
   ∀ a, a ∈ GoNews.sorted s ↔
        ∃ i, all !! i = Some a ∧
             ∀ j b, (j < i)%nat → all !! j = Some b → Link b ≠ Link a) ∧
  (Api.articles (ApiRuns.addBatches Api.NewArticleStore batches) ≡ₚ all ∧
   Api.Count (ApiRuns.addBatches Api.NewArticleStore batches) = length all).
Proof.
  intros s all.
  destruct (GoNews_addBatches_spec GoNews.NewArticleStore batches) as [Hc Hs].
  fold s all in Hc, Hs. simpl in Hc, Hs.
  split; [split_and!|split].
  - rewrite Hs. apply firstCopies_NoDup.
  - unfold GoNews.Count. rewrite Hs. apply firstCopies_length.
  - rewrite Hc. set_solver.
  - intros a. rewrite Hs, firstCopies_first. split.
    + intros (i & ? & _ & ?); eauto.
    + intros (i & ? & ?). exists i. split_and!; [done|set_solver|done].
  - apply (Api_addBatches_spec Api.NewArticleStore).
  - unfold Api.Count. by rewrite (Api_addBatches_spec Api.NewArticleStore).
Qed.

(** ** One batch against one article at a time *)

Section batch_vs_each.
Context `{Sorter}.
Import GoNews GoNewsRuns.

Lemma addEach_nothing_new s batch :
  firstCopies (cache s) batch = [] → addEach s batch = s.
Proof.
  revert s. induction batch as [|a l IH]; intros s; simpl; [done|].
  unfold AddArticle. destruct (decide _); [apply IH|done].
Qed.

Lemma addEach_spec s batch :
  cache (addEach s batch) = identities batch ∪ cache s ∧
  sorted (addEach s batch) ≡ₚ sorted s ++ firstCopies (cache s) batch ∧
  sortPasses (addEach s batch)
    = (sortPasses s + length (firstCopies (cache s) batch))%nat.
Proof.
  revert s. induction batch as [|a l IH]; intros s; simpl.
  - unfold identities; simpl. split_and!; [set_solver|by rewrite app_nil_r|lia].
  - destruct (IH (AddArticle s a)) as (Hc & Hs & Hp).
    unfold addEach in *. rewrite Hc, Hs, Hp. clear Hc Hs Hp.
    replace (identities (a :: l)) with ({[Link a]} ∪ identities l) by done.
    unfold AddArticle. destruct (decide (Link a ∈ cache s)); simpl.
    + split_and!; [set_solver|done|done].
    + rewrite SortFunc_perm, <- app_assoc. simpl.
      split_and!; [set_solver|done|lia].
Qed.

Lemma addEach_last_sort s batch :
  firstCopies (cache s) batch ≠ [] →
  ∃ l, l ≡ₚ sorted s ++ firstCopies (cache s) batch ∧
       sorted (addEach s batch) = SortFunc byPublished l.
Proof.
  revert s. induction batch as [|a l IH]; intros s; simpl; [done|].
  unfold AddArticle at 1.
  destruct (decide (Link a ∈ cache s)) as [Hin|Hnin]; [apply IH|].
  intros _.
  set (s' := {| cache := _; sorted := _; sortPasses := _ |}).
  assert (cache s' = {[Link a]} ∪ cache s) as Hc by done.
  assert (sorted s' = SortFunc byPublished (sorted s ++ [a])) as Hs by done.
  destruct (decide (firstCopies (cache s') l = [])) as [Hnil|Hnew].
  - rewrite (addEach_nothing_new s' l Hnil), Hs.
    exists (sorted s ++ [a]). split; [|done].
    rewrite <- Hc, Hnil. done.
  - destruct (IH s' Hnew) as (l' & Hl' & Heq).
    exists l'. split; [|done].
    rewrite Hl', Hs, Hc, SortFunc_perm, <- app_assoc. done.
Qed.

(** C9.  [AddArticles s batch] and [AddArticle] called on each element of
    [batch] in order leave the same identity set and the same stored
    articles: those of [s] and the first copy of every new link.  Both
    sequences come out of [slices.SortFunc] under the one comparator (or
    are left as they were when the batch brings nothing new).  The batch
    costs one sort pass at most, the single calls one pass for each new
    article. *)
Theorem AddArticles_refines_AddArticle (s : ArticleStore) (batch : list Article) :
  let fresh := firstCopies (cache s) batch in
  let s1 := AddArticles s batch in
  let s2 := addEach s batch in
  cache s1 = cache s2 ∧
  sorted s1 ≡ₚ sorted s2 ∧
  sorted s1 ≡ₚ sorted s ++ fresh ∧
  match fresh with
  | [] => sorted s1 = sorted s ∧ sorted s2 = sorted s
  | _ :: _ =>
      ∃ l1 l2, l1 ≡ₚ l2 ∧
        sorted s1 = SortFunc byPublished l1 ∧
        sorted s2 = SortFunc byPublished l2
  end ∧
  (sortPasses s1 ≤ sortPasses s + 1)%nat ∧
  sortPasses s2 = (sortPasses s + length fresh)%nat.
Proof.
  intros fresh s1 s2. subst fresh s1 s2.
  destruct (addEach_spec s batch) as (Hc2 & Hs2 & Hp2).
  split_and!.
  - by rewrite AddArticles_cache, Hc2.
  - by rewrite AddArticles_sorted, Hs2.
  - apply AddArticles_sorted.
  - destruct (firstCopies (cache s) batch) as [|a fresh'] eqn:Hfresh.
    + destruct (AddArticles_nothing_new s batch Hfresh) as [-> _].
      by rewrite (addEach_nothing_new s batch Hfresh).
    + assert (firstCopies (cache s) batch ≠ []) as Hnew by congruence.
      destruct (AddArticles_something_new s batch Hnew) as [Heq1 _].
      destruct (addEach_last_sort s batch Hnew) as (l2 & Hl2 & Heq2).
      exists (sorted s ++ firstCopies (cache s) batch), l2.
      split_and!; [by symmetry|done..].
  - destruct (decide (firstCopies (cache s) batch = [])) as [Hnil|Hnew].
    + destruct (AddArticles_nothing_new s batch Hnil) as [_ Hp]. lia.
    + destruct (AddArticles_something_new s batch Hnew) as [_ Hp]. lia.
  - done.
Qed.
End batch_vs_each.

(** ** The comparators *)

(** [a] is strictly more recent than [b], an undated article being older
    than every dated one. *)
Definition moreRecent (a b : Article) : Prop :=
match Published a, Published b with
| Some ta, Some tb => tb < ta
| Some _, None => True
| None, _ => False
end.

Lemma Api_byPublished_lt a b : cmp_lt Api.byPublished a b ↔ moreRecent a b.
Proof.
unfold cmp_lt, Api.byPublished, moreRecent, Time.After, Time.Before.
destruct (Published a) as [ta|], (Published b) as [tb|]; try lia.
destruct (Z.ltb_spec tb ta), (Z.ltb_spec ta tb); lia.
Qed.

Lemma GoNews_byPublished_lt a b :
cmp_lt GoNews.byPublished a b ↔
match Published a, Published b with
| Some ta, Some tb => tb < ta
| _, _ => False
end.
Proof.
unfold cmp_lt, GoNews.byPublished, Time.Compare.
destruct (Published a) as [ta|], (Published b) as [tb|]; try lia.
destruct (Z.compare_spec tb ta); lia.
Qed.

(** The comparator of chapter11/api is a strict weak ordering on all
    articles. *)
Lemma Api_byPublished_strict_weak l : StrictWeakOn Api.byPublished l.
Proof.
split.
- intros a b _ _. rewrite !Api_byPublished_lt. unfold moreRecent.
  destruct (Published a), (Published b); lia.
- intros a b c _ _ _. rewrite !Api_byPublished_lt. unfold moreRecent.
  destruct (Published a), (Published b), (Published c); lia.
Qed.

(** The comparator of go-news is one on dated articles. *)
Lemma GoNews_byPublished_strict_weak l :
Forall dated l → StrictWeakOn GoNews.byPublished l.
Proof.
rewrite Forall_forall. intros Hd. split.
- intros a b _ _. rewrite !GoNews_byPublished_lt.
  destruct (Published a), (Published b); lia.
- intros a b c Ha Hb Hc. rewrite !GoNews_byPublished_lt.
  destruct (Hd a Ha) as [ta Hta], (Hd b Hb) as [tb Htb], (Hd c Hc) as [tc Htc].
  rewrite Hta, Htb, Htc. lia.
Qed.

Lemma SortedBy_weaken cmp (R : relation Article) l :
(∀ a b, a ∈ l → b ∈ l → ¬ cmp_lt cmp b a → R a b) →
SortedBy cmp l → StronglySorted R l.
Proof.
unfold SortedBy. intros HR Hs. induction Hs as [|a l Hs IH Ha]; [constructor|].
constructor.
- apply IH. intros x y Hx Hy. apply HR; by right.
- rewrite Forall_forall in *. intros b Hb. apply HR; [by left|by right|by apply Ha].
Qed.

Lemma Api_sorted_NewestFirst l : SortedBy Api.byPublished l → NewestFirst l.
Proof.
apply SortedBy_weaken. intros a b _ _. rewrite Api_byPublished_lt.
unfold moreRecent, recentOrder. destruct (Published a), (Published b); lia.
Qed.

Lemma GoNews_sorted_NewestFirst l :
Forall dated l → SortedBy GoNews.byPublished l → NewestFirst l.
Proof.
rewrite Forall_forall. intros Hd. apply SortedBy_weaken. intros a b Ha Hb.
rewrite GoNews_byPublished_lt. unfold recentOrder.
destruct (Hd a Ha) as [ta ->], (Hd b Hb) as [tb ->]. lia.
Qed.

Lemma StronglySorted_take {A} (R : relation A) n l :
StronglySorted R l → StronglySorted R (take n l).
Proof.
intros Hs. rewrite <- (take_drop n l) in Hs. by apply StronglySorted_app_1_l in Hs.
Qed.

(** ** [GetRecent] *)

(** Copying into a fresh slice of the source's length gives the source. *)
Lemma copy_fresh k src :
length src = k → copy (replicate k nilArticle) src = src.
Proof.
intros <-. unfold copy.
rewrite length_replicate, firstn_all, drop_replicate, Nat.sub_diag. simpl.
by rewrite app_nil_r.
Qed.

(** [GetRecent] of chapter11/api, whatever [n]: the first [n] articles, none
    for [n <= 0], all of them for [n] beyond the count. *)
Lemma Api_GetRecent_spec s n :
Api.GetRecent s n = Returns (take (Z.to_nat n) (Api.articles s)).
Proof.
unfold Api.GetRecent.
destruct (Z.leb_spec n 0) as [Hle|Hpos].
- by replace (Z.to_nat n) with 0%nat by lia.
- set (l := Api.articles s).
  destruct (Z.ltb_spec (Z.of_nat (length l)) n) as [Hbig|Hsmall].
  + unfold make, slice_upto.
    destruct (Z.ltb_spec (Z.of_nat (length l)) 0) as [|_]; [lia|]. simpl.
    rewrite Z.ltb_irrefl. simpl. rewrite Nat2Z.id.
    rewrite copy_fresh by (rewrite length_take; lia).
    by rewrite !take_ge by lia.
  + unfold make, slice_upto.
    destruct (Z.ltb_spec n 0) as [|_]; [lia|]. simpl.
    destruct (Z.ltb_spec (Z.of_nat (length l)) n) as [|_]; [lia|]. simpl.
    by rewrite copy_fresh by (rewrite length_take; lia).
Qed.

(** [GetRecent] of go-news: the first [n] articles for [n >= 0]; the reslice
    [s.sorted[:n]] panics for a negative [n]. *)
Lemma GoNews_GetRecent_spec s n :
GoNews.GetRecent s n =
  if n <? 0 then Panics "slice bounds out of range"
  else Returns (take (Z.to_nat n) (GoNews.sorted s)).
Proof.
unfold GoNews.GetRecent, slice_upto.
destruct (Z.ltb_spec (Z.of_nat (length (GoNews.sorted s))) n) as [Hbig|Hsmall].
- destruct (Z.ltb_spec n 0); [lia|]. by rewrite take_ge by lia.
- rewrite orb_false_r. done.
Qed.

Lemma length_take_Z {A} (l : list A) n :
Z.of_nat (length (take (Z.to_nat n) l)) = Z.min (Z.max n 0) (Z.of_nat (length l)).
Proof. rewrite length_take. lia. Qed.

(** ** The order of the stored sequence *)

Section order.
Context `{Sorter}.

(** chapter11/api sorts on every insertion with a comparator that is a
    strict weak ordering: the stored sequence is always in order. *)
Lemma Api_reachable_sorted s :
ApiRuns.reachable s → SortedBy Api.byPublished (Api.articles s).
Proof.
induction 1 as [|s batch _ _]; simpl.
- constructor.
- apply SortFunc_sorted, Api_byPublished_strict_weak.
Qed.

(** go-news: in order as long as every stored article is dated. *)
Lemma GoNews_reachable_sorted s :
GoNewsRuns.reachable s → Forall dated (GoNews.sorted s) →
SortedBy GoNews.byPublished (GoNews.sorted s).
Proof.
induction 1 as [|s a _ IH|s batch _ IH]; intros Hd.
- constructor.
- unfold GoNews.AddArticle in *. destruct (decide _); [by apply IH|].
  simpl in *. apply SortFunc_sorted, GoNews_byPublished_strict_weak.
  by rewrite <- (SortFunc_perm GoNews.byPublished).
- destruct (decide (firstCopies (GoNews.cache s) batch = [])) as [Hnil|Hnew].
  + destruct (AddArticles_nothing_new s batch Hnil) as [Heq _].
    rewrite Heq in *. by apply IH.
  + destruct (AddArticles_something_new s batch Hnew) as [Heq _].
    rewrite Heq in *. apply SortFunc_sorted, GoNews_byPublished_strict_weak.
    by rewrite <- (SortFunc_perm GoNews.byPublished).
Qed.

(** X26.  The order of what [GetRecent] returns.  chapter11/api: for
    every reachable store and every integer [n], [GetRecent n] returns the
    articles newest first, the undated ones after all dated ones, and
    their number is [min (max n 0) count]: nothing for [n <= 0].  go-news:
    for every reachable store and every [n >= 0], [GetRecent n] returns
    [min n count] articles, and they are newest first as long as every
    stored article is dated. *)
Theorem sort_invariant :
(∀ s n, ApiRuns.reachable s →
   ∃ r, Api.GetRecent s n = Returns r ∧
        NewestFirst r ∧
        Z.of_nat (length r) = Z.min (Z.max n 0) (Z.of_nat (Api.Count s))) ∧
(∀ s n, GoNewsRuns.reachable s → 0 ≤ n →
   ∃ r, GoNews.GetRecent s n = Returns r ∧
        Z.of_nat (length r) = Z.min n (Z.of_nat (GoNews.Count s)) ∧
        (Forall dated (GoNews.sorted s) → NewestFirst r)).
Proof.
split.
- intros s n Hr. exists (take (Z.to_nat n) (Api.articles s)). split_and!.
  + apply Api_GetRecent_spec.
  + apply StronglySorted_take, Api_sorted_NewestFirst, Api_reachable_sorted, Hr.
  + apply length_take_Z.
- intros s n Hr Hn. exists (take (Z.to_nat n) (GoNews.sorted s)). split_and!.
  + rewrite GoNews_GetRecent_spec. by destruct (Z.ltb_spec n 0); [lia|].
  + rewrite length_take_Z. unfold GoNews.Count. lia.
  + intros Hd. apply StronglySorted_take, GoNews_sorted_NewestFirst; [done|].
    by apply GoNews_reachable_sorted.
Qed.
End order.

(** The scenario of the stores' documentation: A dated 10, B dated 5, C
    undated. *)
Definition scenario : list Article :=
[sample "A" (Some 10); sample "B" (Some 5); sample "C" None].

Lemma sort_invariant_witness :
(∃ r, Api.GetRecent
        (Api.AddArticles (H := insertionSorter) Api.NewArticleStore scenario).1 2
        = Returns r ∧
      NewestFirst r ∧ Z.of_nat (length r) = 2) ∧
(∃ r, GoNews.GetRecent
        (GoNews.AddArticles (H := insertionSorter) GoNews.NewArticleStore
           (take 2 scenario)) 2
        = Returns r ∧
      Z.of_nat (length r) = 2 ∧ NewestFirst r).
Proof.
destruct (sort_invariant (H := insertionSorter)) as [Hapi Hgo]. split.
- destruct (Hapi (Api.AddArticles (H := insertionSorter) Api.NewArticleStore scenario).1 2)
    as (r & Hr & Hs & Hl).
  + apply (ApiRuns.reach_AddArticles (H := insertionSorter)), ApiRuns.reach_new.
  + exists r. split_and!; [exact Hr|exact Hs|exact Hl].
- destruct (Hgo (GoNews.AddArticles (H := insertionSorter) GoNews.NewArticleStore
                   (take 2 scenario)) 2)
    as (r & Hr & Hl & Hs).
  + apply (GoNewsRuns.reach_AddArticles (H := insertionSorter)), GoNewsRuns.reach_new.
  + lia.
  + exists r. split_and!; [exact Hr|exact Hl|].
    apply Hs. vm_compute. repeat constructor; eexists; reflexivity.
Defined.

(** The scenario on the store of chapter11/api. *)
Example Api_scenario :
let s := (Api.AddArticles (H := insertionSorter) Api.NewArticleStore scenario).1 in
Api.GetRecent s 2 = Returns [sample "A" (Some 10); sample "B" (Some 5)] ∧
Api.GetRecent s 10 = Returns scenario ∧
Api.Count s = 3%nat.
Proof. vm_compute. done. Qed.

(** In go-news an undated article compares equal to everything, so the
    insertion sort moves nothing across it: B stays before the more recent
    A, and the undated C before A. *)
Example GoNews_undated_blocks_sort :
let batch := [sample "B" (Some 5); sample "C" None; sample "A" (Some 10)] in
GoNews.GetRecent
  (GoNews.AddArticles (H := insertionSorter) GoNews.NewArticleStore batch) 3
= Returns batch.
Proof. vm_compute. done. Qed.

(** C2 on go-news.  The comparator of [AddArticles] answers 0 whenever
    one of the two dates is nil, so the sort moves nothing across an
    undated article.  B dated 5, the undated C and A dated 10, added in
    this order to a new store, stay in this order: [GetRecent 3] returns
    B, C, A, which is not newest first (B stands before the more recent A,
    the undated C before the dated A), and [GetRecent 1] returns B, not the
    most recent article; the lengths are [min n count].  So the order
    claimed fails on a reachable go-news store for [n >= 0].  The store of
    chapter11/api, whose comparator puts nil dates at the end, returns
    A, B, C on the same input. *)
Theorem GoNews_GetRecent_not_newest_first :
let A := sample "A" (Some 10) in
let B := sample "B" (Some 5) in
let C := sample "C" None in
let s := GoNews.AddArticles (H := insertionSorter) GoNews.NewArticleStore [B; C; A] in
let s' := (Api.AddArticles (H := insertionSorter) Api.NewArticleStore [B; C; A]).1 in
GoNewsRuns.reachable (H := insertionSorter) s ∧
GoNews.GetRecent s 3 = Returns [B; C; A] ∧
¬ NewestFirst [B; C; A] ∧
GoNews.GetRecent s 1 = Returns [B] ∧
¬ (∀ n, 0 ≤ n →
     ∃ r, GoNews.GetRecent s n = Returns r ∧ NewestFirst r ∧
          Z.of_nat (length r) = Z.min n (Z.of_nat (GoNews.Count s))) ∧
Api.GetRecent s' 3 = Returns [A; B; C] ∧
NewestFirst [A; B; C] ∧
Api.GetRecent s' 1 = Returns [A].
Proof.
intros A B C s s'.
assert (¬ NewestFirst [B; C; A]) as Hnot.
{ intros Hs. apply StronglySorted_inv in Hs as [_ Hall].
  apply Forall_cons in Hall as [_ Hall]. apply Forall_cons in Hall as [HBA _].
  unfold recentOrder in HBA. simpl in HBA. lia. }
assert (GoNews.GetRecent s 3 = Returns [B; C; A]) as Hthree
  by (vm_compute; reflexivity).
split_and!.
- apply (GoNewsRuns.reach_AddArticles (H := insertionSorter)), GoNewsRuns.reach_new.
- exact Hthree.
- exact Hnot.
- vm_compute. reflexivity.
- intros Hclaim. destruct (Hclaim 3) as (r & Hr & Hsorted & _); [lia|].
  rewrite Hthree in Hr. injection Hr as <-. by apply Hnot.
- vm_compute. reflexivity.
- repeat constructor; unfold recentOrder; simpl; lia.
- vm_compute. reflexivity.
Qed.

(** ** [GetRecent] on every integer *)

(** chapter11/api: total, empty for [n <= 0], everything for [n] beyond the
    count. *)
Lemma Api_GetRecent_total (s : Api.ArticleStore) (n : Z) :
(∃ r, Api.GetRecent s n = Returns r) ∧
(n ≤ 0 → Api.GetRecent s n = Returns []) ∧
(Z.of_nat (Api.Count s) < n → Api.GetRecent s n = Returns (Api.articles s)).
Proof.
rewrite Api_GetRecent_spec. split_and!.
- eauto.
- intros Hn. by replace (Z.to_nat n) with 0%nat by lia.
- unfold Api.Count. intros Hn. by rewrite take_ge by lia.
Qed.

Lemma GoNews_GetRecent_negative (s : GoNews.ArticleStore) (n : Z) :
n < 0 → GoNews.GetRecent s n = Panics "slice bounds out of range".
Proof.
intros Hn. rewrite GoNews_GetRecent_spec. by destruct (Z.ltb_spec n 0); [|lia].
Qed.

(** C5 at [n = -1] on go-news: [s.sorted[:n]] is evaluated and panics,
    where an empty result is expected. *)
Theorem GoNews_GetRecent_minus_one_panics :
GoNews.GetRecent
  (GoNews.AddArticles (H := insertionSorter) GoNews.NewArticleStore scenario) (-1)
= Panics "slice bounds out of range" ∧
Api.GetRecent
  (Api.AddArticles (H := insertionSorter) Api.NewArticleStore scenario).1 (-1)
= Returns [].
Proof. vm_compute. done. Qed.

(** ** Who owns the slice that [GetRecent] returns *)

Section aliasing.
Import Mem.

(** A slice header of the heap: its array is allocated and long enough. *)
Definition valid (h : heap) (sl : slice) : Prop :=
base sl ∈ dom h ∧ (len sl ≤ cap h sl)%nat.

(** Two heaps that differ at most in the array at [p]. *)
Definition sameExcept (p : loc) (h1 h2 : heap) : Prop :=
∀ q, q ≠ p → h2 !! q = h1 !! q.

Lemma sameExcept_contents p h1 h2 sl :
sameExcept p h1 h2 → base sl ≠ p → contents h2 sl = contents h1 sl.
Proof.
intros Hsame Hne. unfold contents, array. by rewrite Hsame.
Qed.

Lemma sameExcept_trans p h1 h2 h3 :
sameExcept p h1 h2 → sameExcept p h2 h3 → sameExcept p h1 h3.
Proof. intros H12 H23 q Hq. by rewrite H23, H12. Qed.

Lemma set_sameExcept h sl i v h' :
set h sl i v = Returns h' → sameExcept (base sl) h h'.
Proof.
unfold set. destruct (_ || _); [done|]. intros [= <-] q Hq.
by rewrite lookup_insert_ne.
Qed.

(** Element assignments through a slice touch its backing array only. *)
Lemma setAll_sameExcept ws h sl h' :
setAll h sl ws = Returns h' → sameExcept (base sl) h h'.
Proof.
revert h. induction ws as [|[i v] ws IH]; intros h; simpl.
- by intros [= <-] q Hq.
- destruct (set h sl i v) as [h1| |] eqn:Hset; simpl; [|done..].
  intros Hrest. eapply sameExcept_trans; [by eapply set_sameExcept|by apply IH].
Qed.

Lemma make_fresh h n h1 r :
make h n = Returns (h1, r) →
(base r ∉ dom h) ∧ sameExcept (base r) h h1 ∧
array h1 r = replicate (Z.to_nat n) nilArticle ∧ len r = Z.to_nat n.
Proof.
unfold make. destruct (n <? 0); [done|]. intros [= <- <-]; simpl. split_and!.
- apply is_fresh.
- intros q Hq. by rewrite lookup_insert_ne.
- unfold array; simpl. by rewrite lookup_insert_eq.
- done.
Qed.

Lemma make_returns h n : 0 ≤ n → ∃ h1 r, make h n = Returns (h1, r).
Proof. intros Hn. unfold make. destruct (Z.ltb_spec n 0); [lia|]. eauto. Qed.

(** chapter11/api: [GetRecent] returns, into a backing array of its own,
    the first [n] stored articles; the heap is otherwise as before. *)
Lemma Api_GetRecent_fresh h articles n :
valid h articles →
∃ h1 r, ApiMem.GetRecent h articles n = Returns (h1, r) ∧
        base r ≠ base articles ∧
        sameExcept (base r) h h1 ∧
        contents h1 r = take (Z.to_nat n) (contents h articles).
Proof.
intros [Hdom Hcap]. unfold ApiMem.GetRecent.
destruct (Z.leb_spec n 0) as [Hle|Hpos].
- destruct (make_returns h 0) as (h1 & r & Hmake); [lia|]. rewrite Hmake.
  apply make_fresh in Hmake as (Hfresh & Hsame & Harr & Hlen).
  exists h1, r. split_and!; [done| |done|].
  + intros Heq. by rewrite Heq in Hfresh.
  + unfold contents at 1. rewrite Harr. simpl.
    replace (Z.to_nat n) with 0%nat by lia. by rewrite take_nil.
- set (n' := if Z.of_nat (len articles) <? n then Z.of_nat (len articles) else n).
  assert (0 ≤ n' ≤ Z.of_nat (len articles) ∧
          take (Z.to_nat n') (contents h articles)
          = take (Z.to_nat n) (contents h articles)) as [Hn' Htake].
  { unfold n'. destruct (Z.ltb_spec (Z.of_nat (len articles)) n); [|split; [lia|done]].
    split; [lia|]. rewrite !take_ge; [done|..];
      unfold contents; rewrite length_take; lia. }
  destruct (make_returns h n') as (h1 & result & Hmake); [lia|]. rewrite Hmake. simpl.
  apply make_fresh in Hmake as (Hfresh & Hsame & Hres & Hlen).
  assert (base result ≠ base articles) as Hne
    by (intros Heq; by rewrite Heq in Hfresh).
  assert (array h1 articles = array h articles) as Harr
    by (unfold array; by rewrite Hsame).
  unfold slice_upto, cap. rewrite Harr.
  destruct (Z.ltb_spec n' 0) as [|_]; [lia|].
  destruct (Z.ltb_spec (Z.of_nat (length (array h articles))) n') as [|_];
    [unfold cap in Hcap; lia|]. simpl.
  eexists _, result. split_and!; [done|done| |].
  + intros q Hq. unfold Mem.copy. by rewrite lookup_insert_ne, Hsame.
  + unfold Mem.copy, contents at 1, array at 1. rewrite lookup_insert_eq; simpl.
    assert (contents h1 result = replicate (Z.to_nat n') nilArticle) as ->.
    { unfold contents. rewrite Hres, Hlen. apply take_ge. by rewrite length_replicate. }
    assert (contents h1 {| base := base articles; len := Z.to_nat n' |}
            = take (Z.to_nat n') (contents h articles)) as ->.
    { unfold contents, array in *; simpl. rewrite Harr, take_take. f_equal. lia. }
    rewrite copy_fresh
      by (unfold contents; rewrite !length_take; unfold cap in Hcap; lia).
    rewrite Hres, Hlen, drop_replicate, Nat.sub_diag, app_nil_r. simpl.
    rewrite take_take, Nat.min_id. done.
Qed.

(** go-news: [GetRecent] returns a header on the backing array of
    [s.sorted] itself, and allocates nothing. *)
Lemma GoNews_GetRecent_shares h sorted n :
valid h sorted → 0 ≤ n →
∃ r, GoNewsMem.GetRecent h sorted n = Returns (h, r) ∧
     base r = base sorted ∧
     contents h r = take (Z.to_nat n) (contents h sorted).
Proof.
intros [Hdom Hcap] Hn. unfold GoNewsMem.GetRecent.
destruct (Z.ltb_spec (Z.of_nat (len sorted)) n) as [Hbig|Hsmall].
- exists sorted. split_and!; [done..|].
  rewrite take_ge; [done|]. unfold contents. rewrite length_take. lia.
- unfold slice_upto.
  destruct (Z.ltb_spec n 0) as [|_]; [lia|].
  destruct (Z.ltb_spec (Z.of_nat (cap h sorted)) n) as [|_]; [lia|]. simpl.
  eexists. split_and!; [done..|].
  unfold contents; simpl. rewrite take_take. f_equal. lia.
Qed.

(** The two views of [GetRecent] agree: the elements seen through the
    header returned on the heap are the sequence returned by the store. *)
Lemma GetRecent_views h sl n :
valid h sl → 0 ≤ n →
(∃ r, GoNewsMem.GetRecent h sl n = Returns (h, r) ∧
      GoNews.GetRecent
        {| GoNews.cache := identities (contents h sl);
           GoNews.sorted := contents h sl; GoNews.sortPasses := 0 |} n
      = Returns (contents h r)) ∧
(∃ h1 r, ApiMem.GetRecent h sl n = Returns (h1, r) ∧
         Api.GetRecent {| Api.articles := contents h sl |} n
         = Returns (contents h1 r)).
Proof.
intros Hv Hn. split.
- destruct (GoNews_GetRecent_shares h sl n Hv Hn) as (r & Hr & _ & Hc).
  exists r. split; [done|]. rewrite GoNews_GetRecent_spec, Hc. simpl.
  by destruct (Z.ltb_spec n 0); [lia|].
- destruct (Api_GetRecent_fresh h sl n Hv) as (h1 & r & Hr & _ & _ & Hc).
  exists h1, r. split; [done|]. by rewrite Api_GetRecent_spec, Hc.
Qed.

(** chapter11/api keeps its store apart from the slices it hands out:
    whatever is assigned through the result of [GetRecent n], the stored
    sequence and the result of every later [GetRecent m] are as if nothing
    had been assigned. *)
Lemma Api_GetRecent_isolated h articles n :
valid h articles →
∃ h1 r, ApiMem.GetRecent h articles n = Returns (h1, r) ∧
  ∀ ws h2, setAll h1 r ws = Returns h2 →
    contents h2 articles = contents h articles ∧
    valid h2 articles ∧
    ∀ m, ∃ h3 r', ApiMem.GetRecent h2 articles m = Returns (h3, r') ∧
                  contents h3 r' = take (Z.to_nat m) (contents h articles).
Proof.
intros Hv. destruct (Api_GetRecent_fresh h articles n Hv) as (h1 & r & Hr & Hne & Hsame & _).
exists h1, r. split; [done|]. intros ws h2 Hws.
apply setAll_sameExcept in Hws.
pose proof (sameExcept_trans _ _ _ _ Hsame Hws) as H02.
assert (h2 !! base articles = h !! base articles) as Hlook by (apply H02; congruence).
assert (contents h2 articles = contents h articles) as Hc
  by (apply (sameExcept_contents (base r)); [done|congruence]).
assert (valid h2 articles) as Hv2.
{ destruct Hv as [Hdom Hcap]. split.
  - apply elem_of_dom. rewrite Hlook. by apply elem_of_dom.
  - unfold cap, array in *. by rewrite Hlook. }
split_and!; [done..|]. intros m.
destruct (Api_GetRecent_fresh h2 articles m Hv2) as (h3 & r' & Hr' & _ & _ & Hc').
exists h3, r'. by rewrite <- Hc.
Qed.
End aliasing.

(** C4 on go-news, with A and B stored: the slice returned by
    [GetRecent 2] is the store's own; after [r[0] = X] the stored sequence
    starts with X and so does the next [GetRecent 2].  On chapter11/api the
    same assignment leaves both untouched. *)
Theorem GoNews_GetRecent_result_is_live :
let A := sample "A" (Some 10) in
let B := sample "B" (Some 5) in
let X := sample "X" None in
let h : Mem.heap := {[ 0%nat := [A; B] ]} in
let stored := {| Mem.base := 0%nat; Mem.len := 2%nat |} in
(∃ r h', GoNewsMem.GetRecent h stored 2 = Returns (h, r) ∧
         Mem.contents h r = [A; B] ∧
         Mem.set h r 0 X = Returns h' ∧
         Mem.contents h' stored = [X; B] ∧
         ∃ r', GoNewsMem.GetRecent h' stored 2 = Returns (h', r') ∧
               Mem.contents h' r' = [X; B]) ∧
(∃ h1 r h', ApiMem.GetRecent h stored 2 = Returns (h1, r) ∧
            Mem.contents h1 r = [A; B] ∧
            Mem.set h1 r 0 X = Returns h' ∧
            Mem.contents h' stored = [A; B] ∧
            ∃ h'' r', ApiMem.GetRecent h' stored 2 = Returns (h'', r') ∧
                      Mem.contents h'' r' = [A; B]).
Proof.
intros A B X h stored. split.
- exists stored. eexists. split_and!; [vm_compute; reflexivity..|].
  eexists. split; vm_compute; reflexivity.
- do 3 eexists. split_and!; [vm_compute; reflexivity..|].
  do 2 eexists. split; vm_compute; reflexivity.
Qed.

(** ** The worker pool *)

Section pool.
Context {P : Type}.
Import Worker.

(** A closed queue stays closed: no operation of the pool reopens it. *)
Lemma take1_closed (wp wp' : WorkerPool P) (url : option string) :
take1 wp = Returns (url, wp') →
Chan.closed (incomingFeeds wp') = Chan.closed (incomingFeeds wp).
Proof.
unfold take1, Chan.recv. destruct (Chan.buf (incomingFeeds wp)); simpl.
- destruct (Chan.closed (incomingFeeds wp)) eqn:Hc; simpl; [|done].
  by intros [= _ <-].
- by intros [= _ <-].
Qed.

(** The workers draining the queue: [k] rounds of [take1]. *)
Fixpoint drain (k : nat) (wp : WorkerPool P) : exec (WorkerPool P) :=
match k with
| O => Returns wp
| S k' => '(_, wp') ← take1 wp; drain k' wp'
end.

Lemma drain_closed k (wp wp' : WorkerPool P) :
drain k wp = Returns wp' →
Chan.closed (incomingFeeds wp') = Chan.closed (incomingFeeds wp).
Proof.
revert wp. induction k as [|k IH]; intros wp; simpl.
- by intros [= <-].
- destruct (take1 wp) as [[url wp1]| |] eqn:Htake; simpl; [|done..].
  intros Hd. by rewrite (IH _ Hd), (take1_closed _ _ _ Htake).
Qed.

Lemma Stop_closed (wp wp' : WorkerPool P) :
Stop wp = Returns wp' → Chan.closed (incomingFeeds wp') = true.
Proof.
unfold Stop, Chan.close. destruct (Chan.closed (incomingFeeds wp)); simpl; [done|].
by intros [= <-].
Qed.

Lemma Submit_closed (wp : WorkerPool P) (url : string) :
Chan.closed (incomingFeeds wp) = true →
Submit wp url = Panics "send on closed channel".
Proof. intros Hc. unfold Submit, Chan.send. by rewrite Hc. Qed.

(** C6.  Once [Stop] has returned, [Submit] panics with "send on closed
    channel" on every later call, whatever the workers have taken from the
    queue in between and however full the queue is: it never blocks. *)
Theorem Submit_after_Stop_panics (wp stopped later : WorkerPool P)
  (k : nat) (url : string) :
Stop wp = Returns stopped →
drain k stopped = Returns later →
Submit later url = Panics "send on closed channel" ∧ Submit later url ≠ Blocks.
Proof.
intros Hstop Hdrain.
assert (Submit later url = Panics "send on closed channel") as ->; [|done].
apply Submit_closed. rewrite (drain_closed _ _ _ Hdrain). by eapply Stop_closed.
Qed.

Lemma SubmitAll_room (wp : WorkerPool P) (urls : list string) :
Chan.closed (incomingFeeds wp) = false →
(pending wp + length urls ≤ Chan.cap (incomingFeeds wp))%nat →
∃ wp', SubmitAll wp urls = Returns wp' ∧
       Chan.buf (incomingFeeds wp') = Chan.buf (incomingFeeds wp) ++ urls ∧
       Chan.cap (incomingFeeds wp') = Chan.cap (incomingFeeds wp) ∧
       Chan.closed (incomingFeeds wp') = false ∧
       workers wp' = workers wp.
Proof.
revert wp. induction urls as [|u urls IH]; intros wp Hopen Hroom; simpl.
- exists wp. by rewrite app_nil_r.
- unfold pending in *. simpl in Hroom.
  unfold Submit, Chan.send. rewrite Hopen.
  destruct (Nat.ltb_spec (length (Chan.buf (incomingFeeds wp)))
              (Chan.cap (incomingFeeds wp))) as [_|]; [|lia]. simpl.
  edestruct IH as (wp' & Hrun & Hbuf & Hcap & Hcl & Hw); [..|exists wp'; split; [exact Hrun|]].
  + done.
  + simpl. rewrite length_app. simpl. lia.
  + simpl in *. rewrite Hbuf, <- app_assoc. done.
Qed.

Lemma Submit_full (wp : WorkerPool P) (url : string) :
Chan.closed (incomingFeeds wp) = false →
pending wp = Chan.cap (incomingFeeds wp) →
Submit wp url = Blocks.
Proof.
unfold pending, Submit, Chan.send. intros -> ->. by rewrite Nat.ltb_irrefl.
Qed.

Lemma SubmitAll_app (wp : WorkerPool P) (urls1 urls2 : list string) :
SubmitAll wp (urls1 ++ urls2) = wp' ← SubmitAll wp urls1; SubmitAll wp' urls2.
Proof.
revert wp. induction urls1 as [|u urls1 IH]; intros wp; simpl; [done|].
destruct (Submit wp u); simpl; [apply IH|done..].
Qed.

(** C10.  The queue of a new pool holds 100 jobs whatever [count] is.  With
    no worker taking anything, up to 100 [Submit] calls return and leave
    their URLs queued in order; the 101st blocks. *)
Theorem NewWorkerPool_queue_capacity (processor : P) (count : Z)
  (urls : list string) (url : string) :
let wp := NewWorkerPool processor count in
Chan.cap (incomingFeeds wp) = 100%nat ∧
((length urls ≤ 100)%nat →
   ∃ wp', SubmitAll wp urls = Returns wp' ∧
          Chan.buf (incomingFeeds wp') = urls ∧
          pending wp' = length urls) ∧
(length urls = 100%nat → SubmitAll wp (urls ++ [url]) = Blocks).
Proof.
intros wp. split_and!; [done|..].
- intros Hlen.
  destruct (SubmitAll_room wp urls) as (wp' & Hrun & Hbuf & _); [done|simpl; lia|].
  exists wp'. split_and!; [done..|]. unfold pending. by rewrite Hbuf.
- intros Hlen.
  destruct (SubmitAll_room wp urls) as (wp' & Hrun & Hbuf & Hcap & Hcl & _);
    [done|simpl; lia|].
  rewrite SubmitAll_app, Hrun. simpl.
  rewrite Submit_full; [done..|]. unfold pending. by rewrite Hbuf, Hcap.
Qed.
End pool.

Lemma Submit_after_Stop_panics_witness :
∃ stopped later,
  Worker.Stop (Worker.NewWorkerPool tt 3) = Returns stopped ∧
  drain 2 stopped = Returns later ∧
  Worker.Submit later "https://feeds.bbci.co.uk/news/rss.xml"
  = Panics "send on closed channel".
Proof.
do 2 eexists. split; [reflexivity|]. split; [reflexivity|].
eapply (Submit_after_Stop_panics (Worker.NewWorkerPool tt 3) _ _ 2); reflexivity.
Defined.

Lemma NewWorkerPool_queue_capacity_witness :
(∃ wp', Worker.SubmitAll (Worker.NewWorkerPool tt 0) (replicate 100 "u")
        = Returns wp' ∧ Worker.pending wp' = 100%nat) ∧
Worker.SubmitAll (Worker.NewWorkerPool tt 0) (replicate 100 "u" ++ ["v"]) = Blocks.
Proof.
destruct (NewWorkerPool_queue_capacity tt 0 (replicate 100 "u") "v")
  as (_ & Hfit & Hfull).
split.
- destruct Hfit as (wp' & Hrun & _ & Hpend); [rewrite length_replicate; lia|].
  exists wp'. split; [exact Hrun|]. rewrite Hpend. apply length_replicate.
- apply Hfull. apply length_replicate.
Defined.

(** ** The dispatch loop after [Close] *)

Section dispatch.
Import App.

Lemma Close_shutDown a a' : Close a = Returns a' → shutDown a'.
Proof.
unfold Close, Worker.Stop, Chan.close.
destruct (Chan.closed (feedRead a)); simpl; [done|].
destruct (Chan.closed (errChan a)); simpl; [done|].
destruct (Chan.closed (Worker.incomingFeeds (workerPool a))); simpl; [done|].
by intros [= <-].
Qed.

Lemma closed_ready {A} (c : Chan.chan A) : Chan.closed c = true → Chan.ready c = true.
Proof. unfold Chan.ready. by destruct (Chan.buf c). Qed.

Lemma closed_recv {A} (zero : A) (c : Chan.chan A) :
Chan.closed c = true →
∃ v ok c', Chan.recv zero c = Returns (v, ok, c') ∧ Chan.closed c' = true.
Proof.
intros Hc. unfold Chan.recv. destruct (Chan.buf c) as [|v rest].
- rewrite Hc. eauto.
- eexists _, _, _. split; [done|]. done.
Qed.

(** With everything closed the feed case is always ready; it receives (a
    left-over URL or the zero value) and submits to the stopped pool. *)
Lemma runIter_shutDown_feed a :
shutDown a → runIter PickFeed a = Panics "send on closed channel".
Proof.
intros (Hf & He & Hp). unfold runIter.
rewrite (closed_ready _ Hf), (closed_ready _ He). simpl.
destruct (closed_recv "" _ Hf) as (v & ok & c & -> & _). simpl.
by rewrite (Submit_closed _ _ Hp).
Qed.

(** The error case receives too (a left-over error or nil), prints it, and
    the loop goes on. *)
Lemma runIter_shutDown_err a :
shutDown a → ∃ a' line, runIter PickErr a = Returns (a', line) ∧ shutDown a'.
Proof.
intros (Hf & He & Hp). unfold runIter.
rewrite (closed_ready _ Hf), (closed_ready _ He). simpl.
destruct (closed_recv None _ He) as (v & ok & c & -> & Hc). simpl.
eexists _, _. split; [done|]. by split_and!.
Qed.

(** After [Close] the loop never comes to rest: a round that takes the feed
    case panics, and as long as the error case is taken the loop keeps
    turning with all channels closed. *)
Lemma run_shutDown ps a :
shutDown a →
(PickFeed ∈ ps → run ps a = Panics "send on closed channel") ∧
(PickFeed ∉ ps → ∃ a', run ps a = Returns a' ∧ shutDown a').
Proof.
revert a. induction ps as [|p ps IH]; intros a Hsd.
- split; [by intros ?%elem_of_nil|]. intros _. by exists a.
- destruct p; simpl.
  + rewrite (runIter_shutDown_feed a Hsd). simpl. split; [done|].
    intros Hnin. exfalso. apply Hnin. by left.
  + destruct (runIter_shutDown_err a Hsd) as (a' & line & -> & Hsd'). simpl.
    destruct (IH a' Hsd') as [Hfeed Herr]. split.
    * intros [?|?]%elem_of_cons; [done|]. by apply Hfeed.
    * intros Hnin. apply Herr. intros ?. apply Hnin. by right.
Qed.
End dispatch.

(** C7 on a new application that is closed at once: both input channels
    are closed and empty, and the loop does not stop.  A round taking the
    error case prints a nil error and changes nothing; a round taking the
    feed case submits the empty URL to the stopped pool and panics. *)
Theorem dispatch_loop_after_Close :
∃ a, App.Close App.NewApp = Returns a ∧
     Chan.closed (App.feedRead a) = true ∧ Chan.buf (App.feedRead a) = [] ∧
     Chan.closed (App.errChan a) = true ∧ Chan.buf (App.errChan a) = [] ∧
     App.runIter App.PickErr a = Returns (a, Some "error: <nil>") ∧
     App.runIter App.PickFeed a = Panics "send on closed channel" ∧
     ∀ ps, (App.PickFeed ∈ ps → App.run ps a = Panics "send on closed channel") ∧
           (App.PickFeed ∉ ps → ∃ a', App.run ps a = Returns a' ∧ App.shutDown a').
Proof.
eexists. split; [reflexivity|]. split_and!; try reflexivity.
intros ps. apply run_shutDown. by split_and!.
Qed.

(** ** [SyncHandler]: every fetch is collected once *)

Section sync.
Import Handlers.
Variable h : Handler.

(** What the fetch of a launched goroutine returns. *)
Definition res (g : goroutine) : result := fetcher h (idx g) (url g).

(** The goroutines that still have their result to send. *)
Definition unsent (gs : list goroutine) : list goroutine :=
filter (λ g, sent g = false) gs.

(** The steps a goroutine has before it: send and [Done], or [Done] alone;
    its result has then to be received. *)
Definition weight (g : goroutine) : nat := if sent g then 1%nat else 3%nat.

(** The number of steps left before the handler has responded and every
    goroutine has ended. *)
Definition stepsLeft (s : state) : nat :=
(4 * length (toLaunch s)
 + sum_list_with weight (running s)
 + length (Chan.buf (resultsChan s))
 + (match main s with FanOut => 1 | _ => 0 end)
 + (match closing s with Finished => 0 | _ => 1 end)
 + (match main s with Responded _ => 0 | _ => 1 end))%nat.

(** The invariant of the handler.  [consumed] are the results received so
    far, in the order of their arrival. *)
Record Inv (s : state) : Prop := mkInv {
  inv_results :
    ∃ consumed,
      errors s = errorsOf consumed ∧
      collected s = articlesOf consumed ∧
      consumed ++ Chan.buf (resultsChan s) ++ (res <$> unsent (running s))
        ++ outcomesFrom h (launched s) (toLaunch s) ≡ₚ outcomes h;
  inv_cap : Chan.cap (resultsChan s) = length (feedURLs h);
  inv_wg : wg s = Z.of_nat (length (running s));
  inv_phase :
    match main s with
    | FanOut => closing s = NotSpawned
    | FanIn => closing s ≠ NotSpawned ∧ toLaunch s = []
    | Responded resp =>
        closing s = Finished ∧ toLaunch s = [] ∧
        Chan.buf (resultsChan s) = [] ∧
        resp = respond (errors s) (collected s)
    end;
  inv_closed : Chan.closed (resultsChan s) = true ↔ closing s = Finished;
  inv_finished : closing s = Finished → running s = []
}.

Lemma outcomesFrom_cons i u urls :
outcomesFrom h i (u :: urls) = fetcher h i u :: outcomesFrom h (S i) urls.
Proof.
unfold outcomesFrom. rewrite imap_cons. f_equal; [f_equal; lia|].
apply imap_ext. intros j v _. simpl. f_equal. lia.
Qed.

Lemma unsent_app gs1 gs2 : unsent (gs1 ++ gs2) = unsent gs1 ++ unsent gs2.
Proof. apply filter_app. Qed.

Lemma unsent_send gs i g :
gs !! i = Some g → sent g = false →
unsent gs ≡ₚ g :: unsent (<[i := {| idx := idx g; url := url g; sent := true |}]> gs).
Proof.
intros Hi Hs.
rewrite <- (take_drop_middle gs i g Hi) at 1.
rewrite insert_take_drop by (by eapply lookup_lt_Some).
rewrite !unsent_app. unfold unsent at 2 4.
rewrite filter_cons_True by done. rewrite filter_cons_False by done.
by rewrite Permutation_middle.
Qed.

Lemma unsent_done gs i g :
gs !! i = Some g → sent g = true → unsent (delete i gs) = unsent gs.
Proof.
intros Hi Hs.
rewrite <- (take_drop_middle gs i g Hi) at 2.
rewrite delete_take_drop, !unsent_app. unfold unsent at 4.
rewrite filter_cons_False; [done|]. by rewrite Hs.
Qed.

Lemma weight_send gs i g :
gs !! i = Some g → sent g = false →
sum_list_with weight gs
= (2 + sum_list_with weight (<[i := {| idx := idx g; url := url g; sent := true |}]> gs))%nat.
Proof.
intros Hi Hs.
rewrite <- (take_drop_middle gs i g Hi) at 1.
rewrite insert_take_drop by (by eapply lookup_lt_Some).
rewrite !sum_list_with_app. simpl.
assert (weight g = 3%nat) as -> by (unfold weight; by rewrite Hs).
change (weight {| idx := idx g; url := url g; sent := true |}) with 1%nat. lia.
Qed.

Lemma weight_done gs i g :
gs !! i = Some g → sent g = true →
sum_list_with weight gs = (1 + sum_list_with weight (delete i gs))%nat.
Proof.
intros Hi Hs.
rewrite <- (take_drop_middle gs i g Hi) at 1.
rewrite delete_take_drop, !sum_list_with_app. simpl.
assert (weight g = 1%nat) as -> by (unfold weight; by rewrite Hs). lia.
Qed.

Lemma errorsOf_snoc rs r :
errorsOf (rs ++ [r]) = errorsOf rs ++ match err r with Some e => [e] | None => [] end.
Proof. unfold errorsOf. rewrite omap_app. simpl. by destruct (err r). Qed.

Lemma articlesOf_snoc rs r :
articlesOf (rs ++ [r]) = articlesOf rs ++ match err r with Some _ => [] | None => articles r end.
Proof.
unfold articlesOf, failed. rewrite filter_app, fmap_app, concat_app.
destruct (err r) eqn:He.
- rewrite filter_cons_False by (by rewrite He). done.
- rewrite filter_cons_True by (by rewrite He). simpl. by rewrite app_nil_r.
Qed.

Lemma Inv_init : Inv (init h).
Proof.
split; simpl; try done.
exists []. by split_and!.
Qed.
Lemma step_Launch s s' :
Inv s → step h Launch s = Returns s' → Inv s' ∧ stepsLeft s = S (stepsLeft s').
Proof.
intros [(consumed & He & Ha & Hp) Hcap Hwg Hph Hcl Hfin]. simpl.
destruct (main s) eqn:Hmain; [|done..].
destruct (toLaunch s) as [|feedURL rest] eqn:Hto; [done|].
intros [= <-]. split.
- split; simpl; rewrite ?Hmain; try done.
  + exists consumed. split_and!; [done..|].
    rewrite <- Hp, outcomesFrom_cons, unsent_app, fmap_app.
    unfold unsent at 2. rewrite filter_cons_True by done. simpl.
    by rewrite <- !app_assoc.
  + rewrite length_app. simpl. lia.
  + intros Hf. congruence.
- unfold stepsLeft; simpl. rewrite Hmain, Hto, sum_list_with_app. simpl.
  change (weight _) with 3%nat. lia.
Qed.

Lemma step_Send i s s' :
Inv s → step h (Send i) s = Returns s' → Inv s' ∧ stepsLeft s = S (stepsLeft s').
Proof.
intros [(consumed & He & Ha & Hp) Hcap Hwg Hph Hcl Hfin]. simpl.
destruct (running s !! i) as [g|] eqn:Hi; [|done].
destruct (sent g) eqn:Hs; [done|].
unfold Chan.send.
destruct (Chan.closed (resultsChan s)) eqn:Hclosed; [done|].
destruct (_ <? _)%nat; [|done]. simpl. intros [= <-]. split.
- split; simpl; try done.
  + exists consumed. split_and!; [done..|].
    rewrite <- Hp, (unsent_send _ _ _ Hi Hs). simpl.
    fold (res g). rewrite <- !app_assoc. simpl.
    apply Permutation_app_head, Permutation_app_head. done.
  + by rewrite length_insert.
  + destruct (main s); [done..|]. destruct Hph as (Hf & _).
    apply Hcl in Hf. congruence.
  + intros Hf. apply Hcl in Hf. congruence.
- unfold stepsLeft; simpl.
  rewrite (weight_send _ _ _ Hi Hs), length_app. simpl. lia.
Qed.

Lemma step_Done i s s' :
Inv s → step h (Done i) s = Returns s' → Inv s' ∧ stepsLeft s = S (stepsLeft s').
Proof.
intros [(consumed & He & Ha & Hp) Hcap Hwg Hph Hcl Hfin]. simpl.
destruct (running s !! i) as [g|] eqn:Hi; [|done].
destruct (sent g) eqn:Hs; [|done].
destruct (wg s - 1 <? 0); [done|]. intros [= <-].
assert (i < length (running s))%nat as Hlt by (by eapply lookup_lt_Some).
split.
- split; simpl; try done.
  + exists consumed. split_and!; [done..|].
    by rewrite (unsent_done _ _ _ Hi Hs).
  + rewrite length_delete by eauto. lia.
  + intros Hf. apply Hfin in Hf. by rewrite Hf in Hi.
- unfold stepsLeft; simpl. rewrite (weight_done _ _ _ Hi Hs). lia.
Qed.

Lemma step_SpawnCloser s s' :
Inv s → step h SpawnCloser s = Returns s' → Inv s' ∧ stepsLeft s = S (stepsLeft s').
Proof.
intros [(consumed & He & Ha & Hp) Hcap Hwg Hph Hcl Hfin]. simpl.
destruct (main s) eqn:Hmain; [|done..].
destruct (toLaunch s) as [|feedURL rest] eqn:Hto; [|done].
intros [= <-]. split.
- split; simpl; try done.
  + by exists consumed.
  + rewrite Hcl, Hph. done.
- unfold stepsLeft; simpl. rewrite Hmain, Hto, Hph. simpl. lia.
Qed.

Lemma step_CloseResults s s' :
Inv s → step h CloseResults s = Returns s' → Inv s' ∧ stepsLeft s = S (stepsLeft s').
Proof.
intros [(consumed & He & Ha & Hp) Hcap Hwg Hph Hcl Hfin]. simpl.
destruct (closing s) eqn:Hclosing; [done| |done].
destruct (Z.eqb_spec (wg s) 0) as [Hzero|]; [|done].
unfold Chan.close. destruct (Chan.closed (resultsChan s)); [done|]. simpl.
intros [= <-]. split.
- split; simpl; try done.
  + by exists consumed.
  + destruct (main s); [done|by destruct Hph|]. by destruct Hph.
  + intros _. apply length_zero_iff_nil. lia.
- unfold stepsLeft; simpl. rewrite Hclosing. lia.
Qed.

Lemma step_Receive s s' :
Inv s → step h Receive s = Returns s' → Inv s' ∧ stepsLeft s = S (stepsLeft s').
Proof.
intros [(consumed & He & Ha & Hp) Hcap Hwg Hph Hcl Hfin]. simpl.
destruct (main s) eqn:Hmain; [done| |done].
destruct Hph as [Hspawned Hto].
unfold Chan.recv. destruct (Chan.buf (resultsChan s)) as [|r rest] eqn:Hbuf.
- destruct (Chan.closed (resultsChan s)) eqn:Hclosed; [|done]. simpl.
  intros [= <-]. split.
  + split; simpl; rewrite ?Hbuf, ?Hclosed; try done.
    * by exists consumed.
    * split_and!; [by apply Hcl|done..].
  + unfold stepsLeft; simpl. rewrite Hmain, Hbuf. simpl. lia.
- simpl. pose proof (errorsOf_snoc consumed r) as Hes.
  pose proof (articlesOf_snoc consumed r) as Has.
  destruct (err r) as [e|] eqn:Herr; intros [= <-]; (split;
    [split; simpl; rewrite ?Hmain; try done;
       exists (consumed ++ [r]); rewrite Hes, Has, He, Ha, ?app_nil_r;
       split_and!; [done..|]; by rewrite <- Hp, <- !app_assoc
    |unfold stepsLeft; simpl; rewrite Hmain, Hbuf; simpl; lia]).
Qed.

(** Every step keeps the invariant and uses up one of the steps left. *)
Lemma step_Inv ev s s' :
Inv s → step h ev s = Returns s' → Inv s' ∧ stepsLeft s = S (stepsLeft s').
Proof.
destruct ev; eauto using step_Launch, step_Send, step_Done, step_SpawnCloser,
  step_CloseResults, step_Receive.
Qed.

(** No step panics: nothing is sent on the closed channel, the channel is
    closed once, the counter of the wait group never goes below zero. *)
Lemma step_no_panic ev s msg : Inv s → step h ev s ≠ Panics msg.
Proof.
intros [(consumed & He & Ha & Hp) Hcap Hwg Hph Hcl Hfin].
destruct ev; simpl.
- by destruct (main s), (toLaunch s).
- destruct (running s !! i) as [g|] eqn:Hi; [|done].
  destruct (sent g); [done|]. unfold Chan.send.
  destruct (Chan.closed (resultsChan s)) eqn:Hclosed.
  + assert (running s = []) as Hnil by (apply Hfin; by apply Hcl).
    by rewrite Hnil in Hi.
  + by destruct (_ <? _)%nat.
- destruct (running s !! i) as [g|] eqn:Hi; [|done].
  destruct (sent g); [|done].
  apply lookup_lt_Some in Hi.
  by destruct (Z.ltb_spec (wg s - 1) 0); [lia|].
- by destruct (main s), (toLaunch s).
- destruct (closing s) eqn:Hclosing; [done| |done].
  destruct (wg s =? 0); [|done]. unfold Chan.close.
  destruct (Chan.closed (resultsChan s)) eqn:Hclosed; [|done].
  destruct Hcl as [Hcl _]. by specialize (Hcl eq_refl).
- destruct (main s); [done| |done]. unfold Chan.recv.
  destruct (Chan.buf (resultsChan s)); simpl.
  + by destruct (Chan.closed (resultsChan s)).
  + by destruct (err _).
Qed.

Lemma run_Inv evs s s' :
Inv s → run h evs s = Returns s' →
Inv s' ∧ stepsLeft s = (length evs + stepsLeft s')%nat.
Proof.
revert s. induction evs as [|ev evs IH]; intros s HI; simpl.
- by intros [= <-].
- destruct (step h ev s) as [s1| |] eqn:Hstep; simpl; [|done..].
  destruct (step_Inv _ _ _ HI Hstep) as [HI1 Hleft]. intros Hrun.
  destruct (IH _ HI1 Hrun) as [HI' Hleft']. split; [done|lia].
Qed.

Lemma run_no_panic evs s msg : Inv s → run h evs s ≠ Panics msg.
Proof.
revert s. induction evs as [|ev evs IH]; intros s HI; simpl; [done|].
destruct (step h ev s) as [s1| |] eqn:Hstep; simpl; [|by apply step_no_panic in Hstep|done].
apply IH. by eapply step_Inv.
Qed.
Lemma outcomes_length : length (outcomes h) = length (feedURLs h).
Proof. unfold outcomes, outcomesFrom. apply length_imap. Qed.

(** Before the response some goroutine can always move: the handler cannot
    come to a standstill. *)
Lemma step_enabled s :
Inv s → (∀ resp, main s ≠ Responded resp) → ∃ ev s', step h ev s = Returns s'.
Proof.
intros [(consumed & He & Ha & Hp) Hcap Hwg Hph Hcl Hfin] Hnot.
destruct (main s) as [| |resp] eqn:Hmain; [..|by destruct (Hnot resp)].
- destruct (toLaunch s) as [|u rest] eqn:Hto.
  + exists SpawnCloser. simpl. rewrite Hmain, Hto. eauto.
  + exists Launch. simpl. rewrite Hmain, Hto. eauto.
- destruct Hph as [Hspawned Hto].
  destruct (Chan.buf (resultsChan s)) as [|r rest] eqn:Hbuf.
  + destruct (Chan.closed (resultsChan s)) eqn:Hclosed.
    * exists Receive. simpl. rewrite Hmain. unfold Chan.recv.
      rewrite Hbuf, Hclosed. simpl. eauto.
    * assert (closing s = Waiting) as Hwait.
      { destruct (closing s); [done..|]. destruct Hcl as [_ Hcl].
        by specialize (Hcl eq_refl). }
      destruct (running s) as [|g gs] eqn:Hrun.
      -- exists CloseResults. simpl. rewrite Hwait, Hwg. simpl.
         unfold Chan.close. rewrite Hclosed. simpl. eauto.
      -- destruct (sent g) eqn:Hs.
         ++ exists (Done 0). simpl. rewrite Hrun. simpl. rewrite Hs.
            destruct (Z.ltb_spec (wg s - 1) 0); [simpl in Hwg; lia|]. eauto.
         ++ exists (Send 0). simpl. rewrite Hrun. simpl. rewrite Hs.
            unfold Chan.send. rewrite Hclosed, Hbuf, Hcap. simpl.
            apply Permutation_length in Hp.
            rewrite outcomes_length, !length_app in Hp.
            unfold unsent in Hp. rewrite filter_cons_True in Hp by done.
            simpl in Hp.
            destruct (Nat.ltb_spec 0 (length (feedURLs h))); [|lia].
            simpl. eauto.
  + exists Receive. simpl. rewrite Hmain. unfold Chan.recv. rewrite Hbuf. simpl.
    destruct (err r); eauto.
Qed.

(** From every state of the handler some schedule leads to the response. *)
Lemma run_completes s :
Inv s → ∃ evs s' resp, run h evs s = Returns s' ∧ main s' = Responded resp.
Proof.
remember (stepsLeft s) as n eqn:Hn. revert s Hn.
induction n as [|n IH]; intros s Hn HI.
- destruct (main s) as [| |resp] eqn:Hmain.
  + unfold stepsLeft in Hn. rewrite Hmain in Hn. lia.
  + unfold stepsLeft in Hn. rewrite Hmain in Hn. lia.
  + by exists [], s, resp.
- destruct (main s) as [| |resp] eqn:Hmain; [..|by exists [], s, resp].
  + destruct (step_enabled s HI) as (ev & s1 & Hstep); [by rewrite Hmain|].
    destruct (step_Inv _ _ _ HI Hstep) as [HI1 Hleft].
    destruct (IH s1) as (evs & s' & resp & Hrun & Hresp); [lia|done|].
    exists (ev :: evs), s', resp. simpl. by rewrite Hstep.
  + destruct (step_enabled s HI) as (ev & s1 & Hstep); [by rewrite Hmain|].
    destruct (step_Inv _ _ _ HI Hstep) as [HI1 Hleft].
    destruct (IH s1) as (evs & s' & resp & Hrun & Hresp); [lia|done|].
    exists (ev :: evs), s', resp. simpl. by rewrite Hstep.
Qed.

(** At the response every result has been received, once. *)
Lemma responded_all s resp :
Inv s → main s = Responded resp →
stepsLeft s = 0%nat ∧
resp = respond (errors s) (collected s) ∧
∃ order, order ≡ₚ outcomes h ∧
         errors s = errorsOf order ∧ collected s = articlesOf order.
Proof.
intros [(consumed & He & Ha & Hp) Hcap Hwg Hph Hcl Hfin] Hmain.
rewrite Hmain in Hph. destruct Hph as (Hclosing & Hto & Hbuf & Hresp).
specialize (Hfin Hclosing). split_and!.
- unfold stepsLeft. by rewrite Hmain, Hclosing, Hto, Hbuf, Hfin.
- done.
- exists consumed. split_and!; [|done..].
  rewrite <- Hp, Hto, Hbuf, Hfin. simpl. by rewrite app_nil_r.
Qed.
End sync.

Lemma errorsOf_length rs :
length (Handlers.errorsOf rs)
= length (filter (λ r, Handlers.failed r = true) rs).
Proof.
unfold Handlers.errorsOf, Handlers.failed.
induction rs as [|r rs IH]; simpl; [done|].
destruct (Handlers.err r) eqn:He.
- rewrite filter_cons_True by (by rewrite He). simpl. by f_equal.
- rewrite filter_cons_False by (by rewrite He). done.
Qed.

Lemma failed_or_not_length rs :
(length (filter (λ r, Handlers.failed r = true) rs)
 + length (filter (λ r, Handlers.failed r = false) rs))%nat = length rs.
Proof.
induction rs as [|r rs IH]; simpl; [done|].
destruct (Handlers.failed r) eqn:Hf.
- rewrite filter_cons_True, filter_cons_False by (by rewrite Hf). simpl. lia.
- rewrite filter_cons_False, filter_cons_True by (by rewrite Hf). simpl. lia.
Qed.

(** C3.  Take [k] locators of which [f] fetches fail, and any schedule of
    the goroutines of [SyncHandler].  The schedule does not panic; it has at
    most [4k+3] steps; it can always be carried on to the response.  The
    response the handler writes is made of every fetch outcome taken
    exactly once, in some order of arrival: its failure list has exactly
    [f] entries, the error texts of the failed fetches (with [f = 0] the
    body has no failure list and the status is 200, else the status is
    206), and its articles are those of the [k-f] successful batches,
    flattened in the order of arrival. *)
Theorem fan_in_complete (h : Handlers.Handler) (evs : list Handlers.event) :
let k := length (Handlers.feedURLs h) in
let f := length (filter (λ r, Handlers.failed r = true) (Handlers.outcomes h)) in
match Handlers.run h evs (Handlers.init h) with
| Panics _ => False
| Blocks => True
| Returns s =>
    (length evs ≤ 4 * k + 3)%nat ∧
    (∃ evs' s' resp, Handlers.run h evs' s = Returns s' ∧
                     Handlers.main s' = Handlers.Responded resp) ∧
    ∀ resp, Handlers.main s = Handlers.Responded resp →
      length evs = (4 * k + 3)%nat ∧
      resp = Handlers.respond (Handlers.errors s) (Handlers.collected s) ∧
      ∃ order, order ≡ₚ Handlers.outcomes h ∧
        Handlers.status resp = (if decide (f = 0%nat) then 200 else 206) ∧
        Handlers.body_errors resp
        = (if decide (f = 0%nat) then None else Some (omap Handlers.err order)) ∧
        length (default [] (Handlers.body_errors resp)) = f ∧
        (∀ e, e ∈ default [] (Handlers.body_errors resp) ↔
              ∃ r, r ∈ Handlers.outcomes h ∧ Handlers.err r = Some e) ∧
        Handlers.body_articles resp
        = concat (Handlers.articles <$> filter (λ r, Handlers.failed r = false) order) ∧
        length (filter (λ r, Handlers.failed r = false) order) = (k - f)%nat ∧
        Handlers.errors s = Handlers.errorsOf order ∧
        length (Handlers.errors s) = f ∧
        Handlers.collected s = Handlers.articlesOf order
end.
Proof.
intros k f.
destruct (Handlers.run h evs (Handlers.init h)) as [s|msg|] eqn:Hrun; [| |done].
- destruct (run_Inv h _ _ _ (Inv_init h) Hrun) as [HI Hleft].
  assert (stepsLeft (Handlers.init h) = (4 * k + 3)%nat) as Hinit
    by (unfold stepsLeft; simpl; lia).
  split_and!.
  + lia.
  + by apply run_completes.
  + intros resp Hmain.
    destruct (responded_all h s resp HI Hmain) as (Hzero & Hresp & order & Hp & He & Ha).
    split_and!; [lia|done|]. exists order.
    assert (length (Handlers.errorsOf order) = f) as Hf
      by (rewrite errorsOf_length; unfold f; by rewrite Hp).
    assert (∀ e, e ∈ Handlers.errorsOf order ↔
                 ∃ r, r ∈ Handlers.outcomes h ∧ Handlers.err r = Some e) as Hmem.
    { intros e. unfold Handlers.errorsOf. rewrite list_elem_of_omap.
      by setoid_rewrite Hp. }
    assert (Handlers.status resp = (if decide (f = 0%nat) then 200 else 206) ∧
            Handlers.body_errors resp
            = (if decide (f = 0%nat) then None else Some (Handlers.errorsOf order)) ∧
            default [] (Handlers.body_errors resp) = Handlers.errorsOf order ∧
            Handlers.body_articles resp = Handlers.articlesOf order)
      as (Hstatus & Hbody & Hentries & Harticles).
    { rewrite Hresp, He, Ha. unfold Handlers.respond.
      destruct (Handlers.errorsOf order) as [|e es] eqn:Hes; simpl in *.
      - by destruct (decide (f = 0%nat)); [|lia].
      - by destruct (decide (f = 0%nat)); [lia|]. }
    split_and!; [done|done|done|by rewrite Hentries|by rewrite Hentries|done| |done| |done].
    * pose proof (failed_or_not_length order) as Hsum.
      rewrite (Permutation_length Hp), outcomes_length in Hsum.
      unfold f, k. rewrite <- Hp. lia.
    * by rewrite He.
- by apply run_no_panic in Hrun; [|apply Inv_init].
Qed.

(** ** The response to a partial failure *)

(** C8 (amended).  When at least one fetch fails, the handler still
    responds: with status 206 and a body holding the articles of the
    successful fetches together with the failure list.  The failure list
    has one entry for each failed fetch, and an entry is the text of the
    error of that fetch, nothing more. *)
Theorem partial_failure_response (h : Handlers.Handler)
  (evs : list Handlers.event) (s : Handlers.state) (resp : Handlers.response) :
Handlers.run h evs (Handlers.init h) = Returns s →
Handlers.main s = Handlers.Responded resp →
(∃ r, r ∈ Handlers.outcomes h ∧ Handlers.failed r = true) →
Handlers.status resp = 206 ∧
∃ order, order ≡ₚ Handlers.outcomes h ∧
  Handlers.body_errors resp = Some (omap Handlers.err order) ∧
  length (omap Handlers.err order)
    = length (filter (λ r, Handlers.failed r = true) (Handlers.outcomes h)) ∧
  (∀ e, e ∈ omap Handlers.err order ↔
        ∃ r, r ∈ Handlers.outcomes h ∧ Handlers.err r = Some e) ∧
  Handlers.body_articles resp = Handlers.articlesOf order.
Proof.
intros Hrun Hmain (r & Hr & Hfailed).
destruct (run_Inv h _ _ _ (Inv_init h) Hrun) as [HI _].
destruct (responded_all h s resp HI Hmain) as (_ & -> & order & Hp & He & Ha).
rewrite He, Ha.
assert (Handlers.errorsOf order ≠ []) as Hne.
{ rewrite <- Hp in Hr. unfold Handlers.failed in Hfailed.
  destruct (Handlers.err r) as [e|] eqn:Herr; [|done].
  intros Hnil. assert (e ∈ Handlers.errorsOf order) as Hin
    by (apply list_elem_of_omap; eauto).
  rewrite Hnil in Hin. by apply elem_of_nil in Hin. }
unfold Handlers.respond.
destruct (Handlers.errorsOf order) as [|e es] eqn:Hes; [done|]. simpl.
split; [done|]. exists order. rewrite <- Hes. split_and!; [done..| | |done].
- fold (Handlers.errorsOf order). rewrite errorsOf_length. by rewrite Hp.
- intros e'. unfold Handlers.errorsOf. rewrite list_elem_of_omap.
  by setoid_rewrite Hp.
Qed.

(** The claim that a failure entry names its locator: some reading
    [locatorOf] of the entries gives, for every failed fetch, an entry with
    the locator of that fetch. *)
Definition failureEntriesNameLocator : Prop :=
∃ locatorOf : string → string,
  ∀ h evs s resp entries,
    Handlers.run h evs (Handlers.init h) = Returns s →
    Handlers.main s = Handlers.Responded resp →
    Handlers.body_errors resp = Some entries →
    ∀ i u e, Handlers.feedURLs h !! i = Some u →
             Handlers.err (Handlers.fetcher h i u) = Some e →
             ∃ entry, entry ∈ entries ∧ locatorOf entry = u.

(** A handler with one locator, whose fetch fails with [msg]. *)
Definition failing (u msg : string) : Handlers.Handler :=
{| Handlers.fetcher := λ _ _, {| Handlers.articles := []; Handlers.err := Some msg |};
   Handlers.feedURLs := [u] |}.

(** The only schedule for one locator. *)
Definition schedule1 : list Handlers.event :=
[Handlers.Launch; Handlers.SpawnCloser; Handlers.Send 0; Handlers.Done 0;
 Handlers.CloseResults; Handlers.Receive; Handlers.Receive].

(** Two locators failing with the same error leave the same failure list:
    the entries do not tell which locator failed. *)
Lemma failure_entries_do_not_name_locator : ¬ failureEntriesNameLocator.
Proof.
intros (locatorOf & Hclaim).
edestruct (Hclaim (failing "a" "boom") schedule1) with (i := 0%nat) (u := "a")
  as (e1 & Hin1 & Hloc1);
  [vm_compute; reflexivity|reflexivity|reflexivity
  |reflexivity|reflexivity|].
edestruct (Hclaim (failing "b" "boom") schedule1) with (i := 0%nat) (u := "b")
  as (e2 & Hin2 & Hloc2);
  [vm_compute; reflexivity|reflexivity|reflexivity
  |reflexivity|reflexivity|].
apply list_elem_of_singleton in Hin1 as ->.
apply list_elem_of_singleton in Hin2 as ->.
congruence.
Qed.

(** The scenario of the handler's documentation: "ok1" and "ok2" are
    fetched, "bad" fails. *)
Definition threeFeeds : Handlers.Handler :=
{| Handlers.fetcher := λ _ u,
     if decide (u = "bad")
     then {| Handlers.articles := []; Handlers.err := Some "bad: timeout" |}
     else {| Handlers.articles := [sample u (Some 1)]; Handlers.err := None |};
   Handlers.feedURLs := ["ok1"; "bad"; "ok2"] |}.

(** "bad" completes first, then "ok2", then "ok1". *)
Definition schedule3 : list Handlers.event :=
[Handlers.Launch; Handlers.Launch; Handlers.Launch; Handlers.SpawnCloser;
 Handlers.Send 1; Handlers.Receive; Handlers.Send 2; Handlers.Send 0;
 Handlers.Done 0; Handlers.Done 0; Handlers.Done 0; Handlers.CloseResults;
 Handlers.Receive; Handlers.Receive; Handlers.Receive].

Definition response3 : Handlers.response :=
{| Handlers.status := 206;
   Handlers.body_articles := [sample "ok2" (Some 1); sample "ok1" (Some 1)];
   Handlers.body_errors := Some ["bad: timeout"] |}.

Example threeFeeds_run :
∃ s, Handlers.run threeFeeds schedule3 (Handlers.init threeFeeds) = Returns s ∧
     Handlers.main s = Handlers.Responded response3.
Proof. eexists. split; vm_compute; reflexivity. Qed.

Lemma partial_failure_response_witness :
∃ s, Handlers.run threeFeeds schedule3 (Handlers.init threeFeeds) = Returns s ∧
     Handlers.main s = Handlers.Responded response3 ∧
     Handlers.status response3 = 206.
Proof.
eexists. split; [vm_compute; reflexivity|]. split; [reflexivity|].
eapply (partial_failure_response threeFeeds schedule3).
- vm_compute. reflexivity.
- reflexivity.
- exists {| Handlers.articles := []; Handlers.err := Some "bad: timeout" |}.
  split; [|reflexivity]. apply list_elem_of_lookup. exists 1%nat. reflexivity.
Defined.

Lemma fan_in_complete_witness :
∃ s, Handlers.run threeFeeds schedule3 (Handlers.init threeFeeds) = Returns s ∧
     Handlers.main s = Handlers.Responded response3 ∧
     length schedule3 = 15%nat ∧
     Handlers.status response3 = 206 ∧
     length (default [] (Handlers.body_errors response3)) = 1%nat.
Proof.
assert (∃ s, Handlers.run threeFeeds schedule3 (Handlers.init threeFeeds) = Returns s ∧
             Handlers.main s = Handlers.Responded response3) as (s & Hrun & Hmain)
  by (eexists; split; vm_compute; reflexivity).
exists s. split; [exact Hrun|]. split; [exact Hmain|].
pose proof (fan_in_complete threeFeeds schedule3) as Hc.
rewrite Hrun in Hc. destruct Hc as (_ & _ & Hc).
destruct (Hc _ Hmain) as (Hlen & _ & order & _ & Hstatus & _ & Hentries & _).
split; [exact Hlen|]. split; [exact Hstatus|exact Hentries].
Defined.

(** ** Batch and single insertions under the insertion sort *)

Section insertion_refinement.
Variable cmp : Article → Article → Z.
Hypothesis cmp_asym : ∀ a b, cmp_lt cmp a b → ¬ cmp_lt cmp b a.

(** The processed prefix, read backwards, with every element in place
    relative to its neighbour: the state the inner loop leaves. *)
Definition RevLocal : list Article → Prop := Sorted (λ a b, ¬ cmp_lt cmp a b).

Lemma insertBack_local x rp : RevLocal rp → RevLocal (insertBack cmp x rp).
Proof.
induction rp as [|y rp IH]; intros Hs; simpl.
- repeat constructor.
- apply Sorted_inv in Hs as [Hs Hy].
  destruct (Z.ltb_spec (cmp x y) 0) as [Hlt|Hge].
  + constructor; [by apply IH|].
    destruct rp as [|z rp]; simpl.
    * constructor. by apply cmp_asym.
    * destruct (Z.ltb_spec (cmp x z) 0).
      -- constructor. by apply HdRel_inv in Hy.
      -- constructor. by apply cmp_asym.
  + constructor; [by constructor|]. constructor. unfold cmp_lt. lia.
Qed.

Lemma insertion_fold_local data rp :
RevLocal rp → RevLocal (fold_left (λ rp x, insertBack cmp x rp) data rp).
Proof.
revert rp. induction data as [|x data IH]; intros rp Hs; simpl; [done|].
by apply IH, insertBack_local.
Qed.

(** Nothing moves when the slice is already in place. *)
Lemma insertion_fold_fixed rp :
RevLocal rp → fold_left (λ rp x, insertBack cmp x rp) (reverse rp) [] = rp.
Proof.
induction rp as [|x rp IH]; intros Hs; [done|].
apply Sorted_inv in Hs as [Hs Hx].
rewrite reverse_cons, fold_left_app. simpl. rewrite (IH Hs).
destruct rp as [|y rp]; [done|]. simpl.
apply HdRel_inv in Hx. by destruct (Z.ltb_spec (cmp x y) 0).
Qed.

(** Sorting, appending and sorting again is sorting once. *)
Lemma insertionSort_resume l1 l2 :
insertionSortCmpFunc cmp (insertionSortCmpFunc cmp l1 ++ l2)
= insertionSortCmpFunc cmp (l1 ++ l2).
Proof.
unfold insertionSortCmpFunc. rewrite !fold_left_app. do 2 f_equal.
apply insertion_fold_fixed, insertion_fold_local. constructor.
Qed.
End insertion_refinement.

Lemma GoNews_byPublished_asym a b :
cmp_lt GoNews.byPublished a b → ¬ cmp_lt GoNews.byPublished b a.
Proof.
rewrite !GoNews_byPublished_lt. destruct (Published a), (Published b); lia.
Qed.

(** Under the insertion sort the batch and the single insertions leave
    the very same sequence, dated articles or not.  [slices.SortFunc] runs
    the insertion sort on slices of at most twelve elements only: for a
    longer store this is a fact about [insertionSorter], not about the
    sort of the library. *)
Lemma AddArticles_equals_AddArticle_insertion (s : GoNews.ArticleStore)
  (batch : list Article) :
GoNews.sorted (GoNews.AddArticles (H := insertionSorter) s batch)
= GoNews.sorted (GoNewsRuns.addEach (H := insertionSorter) s batch).
Proof.
assert (∀ s, GoNews.sorted (GoNewsRuns.addEach (H := insertionSorter) s batch)
  = match firstCopies (GoNews.cache s) batch with
    | [] => GoNews.sorted s
    | fresh => insertionSortCmpFunc GoNews.byPublished (GoNews.sorted s ++ fresh)
    end) as Heach.
{ clear s. induction batch as [|a l IH]; intros s; simpl; [done|].
  unfold GoNews.AddArticle at 1.
  destruct (decide (Link a ∈ GoNews.cache s)) as [Hin|Hnin]; [apply IH|].
  fold (GoNewsRuns.addEach (H := insertionSorter)). rewrite IH. simpl.
  destruct (firstCopies ({[Link a]} ∪ GoNews.cache s) l) as [|b fresh]; [done|].
  rewrite insertionSort_resume by apply GoNews_byPublished_asym.
  by rewrite <- app_assoc. }
rewrite Heach.
destruct (firstCopies (GoNews.cache s) batch) as [|b fresh] eqn:Hfresh.
- by destruct (AddArticles_nothing_new (H := insertionSorter) s batch Hfresh).
- assert (firstCopies (GoNews.cache s) batch ≠ []) as Hnew by congruence.
  destruct (AddArticles_something_new (H := insertionSorter) s batch Hnew) as [-> _].
  by rewrite Hfresh.
Qed.

(** * Further properties of the stores *)

Section store_more.
Context `{Sorter}.
Import GoNews GoNewsRuns.

Lemma firstCopies_seen seen l :
(∀ a, a ∈ l → Link a ∈ seen) → firstCopies seen l = [].
Proof.
induction l as [|a l IH]; intros Hseen; simpl; [done|].
destruct (decide (Link a ∈ seen)) as [_|Hnin].
- apply IH. intros b Hb. apply Hseen. by right.
- destruct Hnin. apply Hseen. by left.
Qed.

Lemma identities_elem l x : x ∈ identities l ↔ ∃ a, a ∈ l ∧ Link a = x.
Proof.
unfold identities. rewrite elem_of_list_to_set, list_elem_of_fmap. naive_solver.
Qed.

(** X1.  Whatever mix of [AddArticle] and [AddArticles] calls a go-news
    store has gone through, its cache holds exactly the links of the stored
    articles and no link is stored twice. *)
Theorem GoNews_cache_matches_sorted (s : ArticleStore) :
reachable s →
(∀ link, link ∈ cache s ↔ ∃ a, a ∈ sorted s ∧ Link a = link) ∧
NoDup (Link <$> sorted s).
Proof.
intros [Hc Hnd]%reachable_consistent. split; [|done].
intros link. by rewrite Hc, identities_elem.
Qed.

(** X2.  [AddArticle] inserts if absent: when a stored article already has
    the link, the store stays exactly as it is, the stored copy is kept and
    nothing is sorted; otherwise the article is stored, the count grows by
    one and one sort pass is made. *)
Theorem AddArticle_insert_if_absent (s : ArticleStore) (a : Article) :
reachable s →
((∃ b, b ∈ sorted s ∧ Link b = Link a) → AddArticle s a = s) ∧
((∀ b, b ∈ sorted s → Link b ≠ Link a) →
   a ∈ sorted (AddArticle s a) ∧
   Count (AddArticle s a) = S (Count s) ∧
   sortPasses (AddArticle s a) = S (sortPasses s)).
Proof.
intros Hr. destruct (GoNews_cache_matches_sorted s Hr) as [Hc _].
unfold AddArticle. split.
- intros Hstored. apply Hc in Hstored. by destruct (decide _).
- intros Hfresh. destruct (decide (Link a ∈ cache s)) as [Hin|_].
  + apply Hc in Hin as (b & Hb & Heq). by destruct (Hfresh b Hb).
  + simpl. unfold Count; simpl. rewrite SortFunc_perm. split_and!.
    * apply elem_of_app. right. by left.
    * rewrite length_app. simpl. lia.
    * done.
Qed.

(** X3.  Nothing is ever removed from a go-news store or replaced in it:
    every stored article is still stored after [AddArticle] and after
    [AddArticles], and the count does not decrease. *)
Theorem GoNews_store_only_grows (s : ArticleStore) (a : Article)
  (batch : list Article) :
(∀ b, b ∈ sorted s → b ∈ sorted (AddArticle s a) ∧ b ∈ sorted (AddArticles s batch)) ∧
(Count s ≤ Count (AddArticle s a))%nat ∧
(Count s ≤ Count (AddArticles s batch))%nat.
Proof.
unfold Count. split_and!.
- intros b Hb. rewrite AddArticle_sorted, AddArticles_sorted, !elem_of_app. tauto.
- rewrite AddArticle_sorted, length_app. lia.
- rewrite AddArticles_sorted, length_app. lia.
Qed.

(** X4.  Inserting the same batch again changes nothing: the second
    [AddArticles] finds every link in the cache, stores nothing and does not
    sort. *)
Theorem AddArticles_again_is_noop (s : ArticleStore) (batch : list Article) :
AddArticles (AddArticles s batch) batch = AddArticles s batch.
Proof.
set (s1 := AddArticles s batch).
assert (firstCopies (cache s1) batch = []) as Hnil.
{ apply firstCopies_seen. intros a Ha. unfold s1.
  rewrite AddArticles_cache. apply elem_of_union. left.
  apply identities_elem. eauto. }
unfold AddArticles at 1. rewrite addLoop_fold, Hnil. simpl.
rewrite app_nil_r.
assert (identities batch ∪ cache s1 = cache s1) as ->.
{ unfold s1. rewrite AddArticles_cache. set_solver. }
by destruct s1.
Qed.

(** X5.  The go-news comparator is not a strict weak ordering as soon as
    an undated article stands beside two articles of different dates: it
    ties the undated one with both, and the two with each other it does
    not.  The contract of [slices.SortFunc] is not met on such a slice. *)
Theorem GoNews_byPublished_not_strict_weak (a b c : Article) (ta tb : Z) :
Published a = Some ta → Published b = Some tb → ta ≠ tb →
Published c = None →
¬ StrictWeakOn byPublished [a; b; c].
Proof.
intros Ha Hb Hne Hc [_ Htrans].
assert (a ∈ [a; b; c]) as Hina by (by left).
assert (b ∈ [a; b; c]) as Hinb by (right; by left).
assert (c ∈ [a; b; c]) as Hinc by (right; right; by left).
assert (¬ cmp_lt byPublished a b) as Hab.
{ apply (Htrans a c b); [done..| |]; rewrite GoNews_byPublished_lt, ?Ha, ?Hb, Hc; tauto. }
assert (¬ cmp_lt byPublished b a) as Hba.
{ apply (Htrans b c a); [done..| |]; rewrite GoNews_byPublished_lt, ?Ha, ?Hb, Hc; tauto. }
rewrite GoNews_byPublished_lt, Ha, Hb in Hab, Hba. lia.
Qed.
End store_more.

Lemma GoNews_cache_matches_sorted_witness :
NoDup (Link <$> GoNews.sorted
  (GoNews.AddArticle (H := insertionSorter)
     (GoNews.AddArticles (H := insertionSorter) GoNews.NewArticleStore scenario)
     (sample "A" None))).
Proof.
apply (GoNews_cache_matches_sorted (H := insertionSorter)).
apply (GoNewsRuns.reach_AddArticle (H := insertionSorter)),
  (GoNewsRuns.reach_AddArticles (H := insertionSorter)), GoNewsRuns.reach_new.
Defined.

Lemma AddArticle_insert_if_absent_witness :
let s := GoNews.AddArticles (H := insertionSorter) GoNews.NewArticleStore scenario in
GoNews.AddArticle (H := insertionSorter) s (sample "A" None) = s ∧
GoNews.Count (GoNews.AddArticle (H := insertionSorter) s (sample "D" (Some 7))) = 4%nat.
Proof.
intros s.
destruct (AddArticle_insert_if_absent (H := insertionSorter) s (sample "A" None))
  as [Hdup _].
{ apply (GoNewsRuns.reach_AddArticles (H := insertionSorter)), GoNewsRuns.reach_new. }
destruct (AddArticle_insert_if_absent (H := insertionSorter) s (sample "D" (Some 7)))
  as [_ Hnew].
{ apply (GoNewsRuns.reach_AddArticles (H := insertionSorter)), GoNewsRuns.reach_new. }
split.
- apply Hdup. exists (sample "A" (Some 10)). split; [|reflexivity].
  apply list_elem_of_lookup. exists 0%nat. vm_compute. reflexivity.
- destruct Hnew as (_ & Hcount & _); [|exact Hcount].
  intros b Hb. vm_compute in Hb.
  repeat (apply elem_of_cons in Hb as [->|Hb]; [by vm_compute|]).
  by apply elem_of_nil in Hb.
Defined.

Lemma GoNews_byPublished_not_strict_weak_witness :
¬ StrictWeakOn GoNews.byPublished
    [sample "A" (Some 10); sample "B" (Some 5); sample "C" None].
Proof.
apply (GoNews_byPublished_not_strict_weak _ _ _ 10 5); [reflexivity..|lia|reflexivity].
Defined.

(** X6.  The slice returned by [GetRecent] of chapter11/api is a copy in a
    backing array of its own: whatever is assigned through it afterwards,
    the stored sequence stays as it was and every later [GetRecent m]
    returns the first [m] articles as before. *)
Theorem Api_GetRecent_returns_copy (h : Mem.heap) (articles : Mem.slice) (n : Z) :
valid h articles →
∃ h1 r, ApiMem.GetRecent h articles n = Returns (h1, r) ∧
  Mem.base r ≠ Mem.base articles ∧
  ∀ ws h2, Mem.setAll h1 r ws = Returns h2 →
    Mem.contents h2 articles = Mem.contents h articles ∧
    ∀ m, ∃ h3 r', ApiMem.GetRecent h2 articles m = Returns (h3, r') ∧
                  Mem.contents h3 r' = take (Z.to_nat m) (Mem.contents h articles).
Proof.
intros Hv.
destruct (Api_GetRecent_fresh h articles n Hv) as (h1 & r & Hr & Hne & _).
destruct (Api_GetRecent_isolated h articles n Hv) as (h1' & r' & Hr' & Hiso).
rewrite Hr in Hr'. injection Hr' as <- <-.
exists h1, r. split_and!; [done..|].
intros ws h2 Hws. destruct (Hiso ws h2 Hws) as (Hc & _ & Hlater). by split.
Qed.

Lemma Api_GetRecent_returns_copy_witness :
let h : Mem.heap := {[ 0%nat := scenario ]} in
let stored := {| Mem.base := 0%nat; Mem.len := 3%nat |} in
∃ h1 r, ApiMem.GetRecent h stored 2 = Returns (h1, r) ∧
        Mem.base r ≠ Mem.base stored.
Proof.
intros h stored.
destruct (Api_GetRecent_returns_copy h stored 2) as (h1 & r & Hr & Hne & _).
- split.
  + apply elem_of_dom. exists scenario. reflexivity.
  + vm_compute. lia.
- exists h1, r. split; [exact Hr|exact Hne].
Defined.

(** X7.  [GetRecent] of chapter11/api on any store and any integer: it
    returns a prefix of the stored sequence, empty for [n <= 0], the whole
    sequence for [n] at or beyond the count, and exactly [n] articles in
    between. *)
Theorem Api_GetRecent_edge_cases (s : Api.ArticleStore) (n : Z) :
∃ r, Api.GetRecent s n = Returns r ∧
     r `prefix_of` Api.articles s ∧
     (n ≤ 0 → r = []) ∧
     (Z.of_nat (Api.Count s) ≤ n → r = Api.articles s) ∧
     (0 ≤ n ≤ Z.of_nat (Api.Count s) → Z.of_nat (length r) = n).
Proof.
exists (take (Z.to_nat n) (Api.articles s)). unfold Api.Count. split_and!.
- apply Api_GetRecent_spec.
- apply prefix_take.
- intros Hn. by replace (Z.to_nat n) with 0%nat by lia.
- intros Hn. by rewrite take_ge by lia.
- intros Hn. rewrite length_take. lia.
Qed.

(** * The handlers of go-news ([go-news/api/internal/handlers]) *)

Module GoNewsHandlers.
Section handlers.
(** [strconv.Atoi], of Go's standard library: [None] when it returns an
    error. *)
Variable Atoi : string → option Z.

(** [ArticlesHandler]: [count] is the value of the "count" query
    parameter, empty when it is absent; the result is the article list
    that is encoded into the response. *)
Definition ArticlesHandler (store : GoNews.ArticleStore) (count : string)
  : exec (list Article) :=
let n := 10 in
let n :=
  if bool_decide (count ≠ "") then
    match Atoi count with
    | Some size => if 0 <? size then size else n
    | None => n
    end
  else n in
GoNews.GetRecent store n.

(** The body of the status response; the timestamp is left out. *)
Record statusBody := mkStatusBody {
  status : string;
  article_count : Z;
  feed_count : Z
}.

Definition StatusHandler (store : GoNews.ArticleStore) (feedURLs : list string)
  : exec statusBody :=
all ← GoNews.GetRecent store 1000000;
Returns {| status := "running";
           article_count := Z.of_nat (length all);
           feed_count := Z.of_nat (length feedURLs) |}.
End handlers.
End GoNewsHandlers.

(** X8.  [ArticlesHandler] asks the store for a positive number of
    articles whatever the "count" parameter holds: 10 when it is absent,
    does not parse or is not positive, the parsed number otherwise.  So the
    handler never reaches the panic of [GetRecent], and it answers with the
    first [min n count] stored articles. *)
Theorem ArticlesHandler_asks_positive (Atoi : string → option Z)
  (store : GoNews.ArticleStore) (count : string) :
∃ n, 0 < n ∧
  GoNewsHandlers.ArticlesHandler Atoi store count
    = Returns (take (Z.to_nat n) (GoNews.sorted store)) ∧
  (count = "" → n = 10) ∧
  (Atoi count = None → n = 10) ∧
  (∀ size, count ≠ "" → Atoi count = Some size →
           n = if 0 <? size then size else 10).
Proof.
unfold GoNewsHandlers.ArticlesHandler.
assert (∀ n, 0 < n → GoNews.GetRecent store n
                     = Returns (take (Z.to_nat n) (GoNews.sorted store))) as Hget.
{ intros n Hn. rewrite GoNews_GetRecent_spec. by destruct (Z.ltb_spec n 0); [lia|]. }
case_bool_decide as Hcount.
- destruct (Atoi count) as [size|] eqn:Hparse.
  + destruct (Z.ltb_spec 0 size) as [Hpos|Hneg].
    * exists size. split_and!; [done|by apply Hget|done|done|].
      intros size' _ [= <-]. by destruct (Z.ltb_spec 0 size); [|lia].
    * exists 10. split_and!; [done|by apply Hget|done|done|].
      intros size' _ [= <-]. by destruct (Z.ltb_spec 0 size); [lia|].
  + exists 10. split_and!; [done|by apply Hget|done..].
- exists 10. split_and!; [done|by apply Hget|done|done|].
  intros size Hne. by destruct Hcount.
Qed.

(** X9.  The article count of [StatusHandler] is the length of
    [GetRecent(1000000)]: the number of stored articles up to one million,
    and one million beyond. *)
Theorem StatusHandler_count_is_capped (store : GoNews.ArticleStore)
  (feedURLs : list string) :
∃ body, GoNewsHandlers.StatusHandler store feedURLs = Returns body ∧
  GoNewsHandlers.article_count body
    = Z.min (Z.of_nat (GoNews.Count store)) 1000000 ∧
  GoNewsHandlers.feed_count body = Z.of_nat (length feedURLs).
Proof.
unfold GoNewsHandlers.StatusHandler. rewrite GoNews_GetRecent_spec.
change (1000000 <? 0) with false. simpl.
eexists. split; [done|]. simpl. split; [|done].
rewrite length_take. unfold GoNews.Count. lia.
Qed.

(** * Further properties of [SyncHandler] *)

Lemma articlesOf_all_succeed rs :
(∀ r, r ∈ rs → Handlers.failed r = false) →
Handlers.articlesOf rs = concat (Handlers.articles <$> rs) ∧
Handlers.errorsOf rs = [].
Proof.
unfold Handlers.articlesOf, Handlers.errorsOf, Handlers.failed.
induction rs as [|r rs IH]; intros Hok; simpl; [done|].
assert (Handlers.err r = None) as Herr.
{ specialize (Hok r (list_elem_of_here _ _)). by destruct (Handlers.err r). }
destruct IH as [IHa IHe]; [intros r' Hr'; apply Hok; by right|].
rewrite filter_cons_True by (by rewrite Herr). simpl. rewrite Herr.
split; [by f_equal|done].
Qed.

(** X10.  When every fetch succeeds, [SyncHandler] answers with status 200
    and the bare list of the articles of all batches, each batch once, in
    the order the batches arrived; with no locator at all the list is
    empty. *)
Theorem SyncHandler_all_succeed (h : Handlers.Handler)
  (evs : list Handlers.event) (s : Handlers.state) (resp : Handlers.response) :
Handlers.run h evs (Handlers.init h) = Returns s →
Handlers.main s = Handlers.Responded resp →
(∀ r, r ∈ Handlers.outcomes h → Handlers.failed r = false) →
Handlers.status resp = 200 ∧
Handlers.body_errors resp = None ∧
(∃ order, order ≡ₚ Handlers.outcomes h ∧
          Handlers.body_articles resp = concat (Handlers.articles <$> order)) ∧
(Handlers.feedURLs h = [] → Handlers.body_articles resp = []).
Proof.
intros Hrun Hmain Hok.
destruct (run_Inv h _ _ _ (Inv_init h) Hrun) as [HI _].
destruct (responded_all h s resp HI Hmain) as (_ & -> & order & Hp & He & Ha).
destruct (articlesOf_all_succeed order) as [Harts Herrs].
{ intros r Hr. apply Hok. by rewrite <- Hp. }
rewrite He, Ha, Herrs, Harts. simpl. split_and!; [done..| |].
- by exists order.
- intros Hnone. unfold Handlers.outcomes, Handlers.outcomesFrom in Hp.
  rewrite Hnone in Hp. simpl in Hp. apply Permutation_nil_r in Hp. by rewrite Hp.
Qed.

(** X11.  The response of [SyncHandler] does not depend on the schedule
    beyond the order of its lists: two runs over the same fetch outcomes
    take the same number of steps and answer with the same status, the
    same articles and the same failure entries up to order. *)
Theorem SyncHandler_schedule_independent (h : Handlers.Handler)
  (evs1 evs2 : list Handlers.event) (s1 s2 : Handlers.state)
  (resp1 resp2 : Handlers.response) :
Handlers.run h evs1 (Handlers.init h) = Returns s1 →
Handlers.main s1 = Handlers.Responded resp1 →
Handlers.run h evs2 (Handlers.init h) = Returns s2 →
Handlers.main s2 = Handlers.Responded resp2 →
length evs1 = length evs2 ∧
Handlers.status resp1 = Handlers.status resp2 ∧
Handlers.body_articles resp1 ≡ₚ Handlers.body_articles resp2 ∧
match Handlers.body_errors resp1, Handlers.body_errors resp2 with
| Some entries1, Some entries2 => entries1 ≡ₚ entries2
| None, None => True
| _, _ => False
end.
Proof.
intros Hrun1 Hmain1 Hrun2 Hmain2.
destruct (run_Inv h _ _ _ (Inv_init h) Hrun1) as [HI1 Hleft1].
destruct (run_Inv h _ _ _ (Inv_init h) Hrun2) as [HI2 Hleft2].
destruct (responded_all h s1 resp1 HI1 Hmain1) as (Hz1 & -> & o1 & Hp1 & He1 & Ha1).
destruct (responded_all h s2 resp2 HI2 Hmain2) as (Hz2 & -> & o2 & Hp2 & He2 & Ha2).
assert (o1 ≡ₚ o2) as Hp by (by rewrite Hp1, Hp2).
assert (Handlers.errors s1 ≡ₚ Handlers.errors s2) as Hes.
{ rewrite He1, He2. unfold Handlers.errorsOf. by rewrite Hp. }
assert (Handlers.collected s1 ≡ₚ Handlers.collected s2) as Has.
{ rewrite Ha1, Ha2. unfold Handlers.articlesOf. by rewrite Hp. }
split; [lia|]. unfold Handlers.respond.
rewrite <- (Permutation_length Hes).
destruct (0 <? length (Handlers.errors s1))%nat; simpl; by split_and!.
Qed.

(** Two feeds that are both fetched. *)
Definition twoFeeds : Handlers.Handler :=
{| Handlers.fetcher := λ _ u,
     {| Handlers.articles := [sample u (Some 1)]; Handlers.err := None |};
   Handlers.feedURLs := ["ok1"; "ok2"] |}.

Definition schedule2 : list Handlers.event :=
[Handlers.Launch; Handlers.Launch; Handlers.SpawnCloser; Handlers.Send 1;
 Handlers.Send 0; Handlers.Done 0; Handlers.Done 0; Handlers.CloseResults;
 Handlers.Receive; Handlers.Receive; Handlers.Receive].

Lemma SyncHandler_all_succeed_witness :
∃ s resp, Handlers.run twoFeeds schedule2 (Handlers.init twoFeeds) = Returns s ∧
          Handlers.main s = Handlers.Responded resp ∧
          Handlers.status resp = 200 ∧ Handlers.body_errors resp = None.
Proof.
assert (∃ s resp, Handlers.run twoFeeds schedule2 (Handlers.init twoFeeds) = Returns s ∧
                  Handlers.main s = Handlers.Responded resp) as (s & resp & Hrun & Hmain)
  by (do 2 eexists; split; vm_compute; reflexivity).
exists s, resp. split; [exact Hrun|]. split; [exact Hmain|].
destruct (SyncHandler_all_succeed twoFeeds schedule2 s resp Hrun Hmain)
  as (Hstatus & Herrs & _); [|by split].
assert (Handlers.outcomes twoFeeds
        = [ {| Handlers.articles := [sample "ok1" (Some 1)]; Handlers.err := None |};
            {| Handlers.articles := [sample "ok2" (Some 1)]; Handlers.err := None |} ])
  as -> by reflexivity.
intros r Hr.
apply elem_of_cons in Hr as [->|Hr]; [reflexivity|].
apply elem_of_cons in Hr as [->|Hr]; [reflexivity|].
apply elem_of_nil in Hr. destruct Hr.
Defined.

(** "ok1" completes before the other goroutines are launched. *)
Definition schedule3' : list Handlers.event :=
[Handlers.Launch; Handlers.Send 0; Handlers.Launch; Handlers.Launch;
 Handlers.SpawnCloser; Handlers.Receive; Handlers.Done 0; Handlers.Send 0;
 Handlers.Send 1; Handlers.Done 0; Handlers.Done 0; Handlers.CloseResults;
 Handlers.Receive; Handlers.Receive; Handlers.Receive].

Lemma SyncHandler_schedule_independent_witness :
∃ s1 s2 resp1 resp2,
  Handlers.run threeFeeds schedule3 (Handlers.init threeFeeds) = Returns s1 ∧
  Handlers.run threeFeeds schedule3' (Handlers.init threeFeeds) = Returns s2 ∧
  Handlers.main s1 = Handlers.Responded resp1 ∧
  Handlers.main s2 = Handlers.Responded resp2 ∧
  Handlers.body_articles resp1 ≠ Handlers.body_articles resp2 ∧
  Handlers.body_articles resp1 ≡ₚ Handlers.body_articles resp2.
Proof.
assert (∃ s resp, Handlers.run threeFeeds schedule3 (Handlers.init threeFeeds) = Returns s ∧
                  Handlers.main s = Handlers.Responded resp ∧
                  Handlers.body_articles resp
                  = [sample "ok2" (Some 1); sample "ok1" (Some 1)])
  as (s1 & resp1 & Hrun1 & Hmain1 & Hb1)
  by (do 2 eexists; split_and!; vm_compute; reflexivity).
assert (∃ s resp, Handlers.run threeFeeds schedule3' (Handlers.init threeFeeds) = Returns s ∧
                  Handlers.main s = Handlers.Responded resp ∧
                  Handlers.body_articles resp
                  = [sample "ok1" (Some 1); sample "ok2" (Some 1)])
  as (s2 & resp2 & Hrun2 & Hmain2 & Hb2)
  by (do 2 eexists; split_and!; vm_compute; reflexivity).
exists s1, s2, resp1, resp2. split_and!; [done..| |].
- rewrite Hb1, Hb2. intros Heq. by injection Heq.
- by destruct (SyncHandler_schedule_independent threeFeeds schedule3 schedule3'
                 s1 s2 resp1 resp2 Hrun1 Hmain1 Hrun2 Hmain2) as (_ & _ & Hperm & _).
Defined.

(** * The rest of the application ([go-news/api/internal/app]) *)

Module AppOps.
Import App.

Definition SubmitFeed (a : App) (url : string) : exec App :=
c ← Chan.send (feedRead a) url;
Returns {| store := store a; feedRead := c; errChan := errChan a;
           workerPool := workerPool a |}.

Definition SubmitError (a : App) (err : option string) : exec App :=
c ← Chan.send (errChan a) err;
Returns {| store := store a; feedRead := feedRead a; errChan := c;
           workerPool := workerPool a |}.

(** The branch [if err != nil { a.errChan <- err; return nil, err }] of
    [ProcessFeed]: the application after it and the pair returned. *)
Definition ProcessFeedFailed (a : App) (err : string)
  : exec (App * (list Article * option string)) :=
c ← Chan.send (errChan a) (Some err);
Returns ({| store := store a; feedRead := feedRead a; errChan := c;
            workerPool := workerPool a |}, ([], Some err)).

(** The other branch of [ProcessFeed] together with [saveFeed], the
    goroutine it starts: [rest] is what the [range feedData.Articles] loop
    has still to send, [out] the channel between the two, [returned] is
    set once the deferred [close(out)] has run and [ProcessFeed] has
    returned, [saved] once [saveFeed] has left its loop. *)
Record pipe := mkPipe {
  rest : list Article;
  out : Chan.chan Article;
  returned : bool;
  saving : GoNews.ArticleStore;
  saved : bool
}.

Definition startPipe (s : GoNews.ArticleStore) (articles : list Article) : pipe :=
{| rest := articles; out := Chan.make 10; returned := false;
   saving := s; saved := false |}.

Inductive turn :=
  | Produce  (* ProcessFeed: out <- article, or the deferred close(out) *)
  | Save.    (* saveFeed: one receive of for article := range articles *)

Section pipe.
Context `{Sorter}.

Definition pipeStep (t : turn) (p : pipe) : exec pipe :=
match t with
| Produce =>
    if returned p then Blocks
    else
      match rest p with
      | article :: rest' =>
          c ← Chan.send (out p) article;
          Returns {| rest := rest'; out := c; returned := false;
                     saving := saving p; saved := saved p |}
      | [] =>
          c ← Chan.close (out p);
          Returns {| rest := []; out := c; returned := true;
                     saving := saving p; saved := saved p |}
      end
| Save =>
    if saved p then Blocks
    else
      '(article, ok, c) ← Chan.recv nilArticle (out p);
      if ok : bool then
        Returns {| rest := rest p; out := c; returned := returned p;
                   saving := GoNews.AddArticle (saving p) article;
                   saved := false |}
      else
        Returns {| rest := rest p; out := c; returned := returned p;
                   saving := saving p; saved := true |}
end.

Fixpoint pipeRun (ts : list turn) (p : pipe) : exec pipe :=
match ts with
| [] => Returns p
| t :: ts' => p' ← pipeStep t p; pipeRun ts' p'
end.
End pipe.
End AppOps.

(** * The rest of the worker ([go-news/api/internal/worker]) *)

Module WorkerOps.
Import Worker.
Section worker.
Context {P : Type}.

(** [Worker.run]: [for url := range w.incomingFeeds { ProcessFeed(ctx, url) }],
    for at most [fuel] receives.  The result is the list of URLs handed to
    the processor, in order, and how the loop stands: [Returns] when it
    has ended, [Blocks] when it waits on the empty queue; [None] when the
    fuel did not suffice. *)
Fixpoint run (fuel : nat) (wp : WorkerPool P) (processed : list string)
  : option (list string * exec (WorkerPool P)) :=
match fuel with
| O => None
| S fuel' =>
    match take1 wp with
    | Returns (Some url, wp') => run fuel' wp' (processed ++ [url])
    | Returns (None, wp') => Some (processed, Returns wp')
    | Panics msg => Some (processed, Panics msg)
    | Blocks => Some (processed, Blocks)
    end
end.
End worker.
End WorkerOps.

(** ** [ProcessFeed] and [saveFeed] *)

Section pipe_proofs.
Context `{Sorter}.
Import AppOps.
Variable s0 : GoNews.ArticleStore.
Variable articles : list Article.

Record PipeInv (p : pipe) : Prop := mkPipeInv {
  pipe_todo :
    GoNewsRuns.addEach (saving p) (Chan.buf (out p) ++ rest p)
    = GoNewsRuns.addEach s0 articles;
  pipe_closed : Chan.closed (out p) = returned p;
  pipe_cap : Chan.cap (out p) = 10%nat;
  pipe_returned : returned p = true → rest p = [];
  pipe_saved : saved p = true → returned p = true ∧ Chan.buf (out p) = []
}.

(** The steps left before both goroutines have ended. *)
Definition pipeLeft (p : pipe) : nat :=
(2 * length (rest p) + length (Chan.buf (out p))
 + (if returned p then 0 else 1) + (if saved p then 0 else 1))%nat.

Lemma PipeInv_start : PipeInv (startPipe s0 articles).
Proof. by split. Qed.

Lemma pipeStep_inv t p p' :
PipeInv p → pipeStep t p = Returns p' → PipeInv p' ∧ pipeLeft p = S (pipeLeft p').
Proof.
intros [Htodo Hcl Hcap Hret Hsav]. destruct t; simpl.
- destruct (returned p) eqn:Hr; [done|].
  destruct (rest p) as [|a rest'] eqn:Hrest.
  + unfold Chan.close. rewrite Hcl. simpl. intros [= <-]. split.
    * split; simpl; [done..|].
      intros Hs. destruct (Hsav Hs). congruence.
    * unfold pipeLeft; simpl. rewrite Hr, Hrest. simpl. lia.
  + unfold Chan.send. rewrite Hcl.
    destruct (_ <? _)%nat; [|done]. simpl. intros [= <-]. split.
    * split; simpl; [by rewrite <- app_assoc|done|done|done|].
      intros Hs. destruct (Hsav Hs). congruence.
    * unfold pipeLeft; simpl. rewrite Hr, Hrest, length_app. simpl. lia.
- destruct (saved p) eqn:Hs; [done|].
  unfold Chan.recv. destruct (Chan.buf (out p)) as [|a buf'] eqn:Hbuf.
  + destruct (Chan.closed (out p)) eqn:Hclosed; [|done]. simpl.
    intros [= <-]. split.
    * split; simpl; [by rewrite Hbuf|by rewrite Hclosed|done|done|].
      intros _. by rewrite Hbuf.
    * unfold pipeLeft; simpl. rewrite Hs, Hbuf. simpl. lia.
  + simpl. intros [= <-]. split.
    * split; simpl; [done..|]. intros ?. done.
    * unfold pipeLeft; simpl. rewrite Hs, Hbuf. simpl. lia.
Qed.

Lemma pipeStep_no_panic t p msg : PipeInv p → pipeStep t p ≠ Panics msg.
Proof.
intros [Htodo Hcl Hcap Hret Hsav]. destruct t; simpl.
- destruct (returned p) eqn:Hr; [done|].
  destruct (rest p) as [|a rest'].
  + unfold Chan.close. by rewrite Hcl.
  + unfold Chan.send. rewrite Hcl. by destruct (_ <? _)%nat.
- destruct (saved p); [done|]. unfold Chan.recv.
  destruct (Chan.buf (out p)); simpl; [|done].
  by destruct (Chan.closed (out p)).
Qed.

Lemma pipeRun_inv ts p p' :
PipeInv p → pipeRun ts p = Returns p' →
PipeInv p' ∧ pipeLeft p = (length ts + pipeLeft p')%nat.
Proof.
revert p. induction ts as [|t ts IH]; intros p HI; simpl.
- by intros [= <-].
- destruct (pipeStep t p) as [p1| |] eqn:Hstep; simpl; [|done..].
  destruct (pipeStep_inv _ _ _ HI Hstep) as [HI1 Hleft]. intros Hrun.
  destruct (IH _ HI1 Hrun) as [HI' Hleft']. split; [done|lia].
Qed.

Lemma pipeRun_no_panic ts p msg : PipeInv p → pipeRun ts p ≠ Panics msg.
Proof.
revert p. induction ts as [|t ts IH]; intros p HI; simpl; [done|].
destruct (pipeStep t p) as [p1| |] eqn:Hstep; simpl;
  [|by apply pipeStep_no_panic in Hstep|done].
apply IH. by eapply pipeStep_inv.
Qed.

(** Until [saveFeed] has ended one of the two goroutines can move. *)
Lemma pipeStep_enabled p :
PipeInv p → saved p = false → ∃ t p', pipeStep t p = Returns p'.
Proof.
intros [Htodo Hcl Hcap Hret Hsav] Hs.
destruct (Chan.buf (out p)) as [|a buf'] eqn:Hbuf.
- destruct (returned p) eqn:Hr.
  + exists Save. simpl. rewrite Hs. unfold Chan.recv. rewrite Hbuf, Hcl. simpl. eauto.
  + exists Produce. simpl. rewrite Hr. destruct (rest p) as [|b rest'].
    * unfold Chan.close. rewrite Hcl. simpl. eauto.
    * unfold Chan.send. rewrite Hcl, Hbuf, Hcap. simpl. eauto.
- exists Save. simpl. rewrite Hs. unfold Chan.recv. rewrite Hbuf. simpl. eauto.
Qed.

Lemma pipeRun_completes p :
PipeInv p → ∃ ts p', pipeRun ts p = Returns p' ∧ saved p' = true.
Proof.
remember (pipeLeft p) as n eqn:Hn. revert p Hn.
induction n as [|n IH]; intros p Hn HI.
- destruct (saved p) eqn:Hs; [by exists [], p|].
  unfold pipeLeft in Hn. rewrite Hs in Hn. lia.
- destruct (saved p) eqn:Hs; [by exists [], p|].
  destruct (pipeStep_enabled p HI Hs) as (t & p1 & Hstep).
  destruct (pipeStep_inv _ _ _ HI Hstep) as [HI1 Hleft].
  destruct (IH p1) as (ts & p' & Hrun & Hsaved); [lia|done|].
  exists (t :: ts), p'. simpl. by rewrite Hstep.
Qed.
End pipe_proofs.

(** X12.  [ProcessFeed] on a fetched feed, with the [saveFeed] goroutine it
    starts, under any schedule of the two: nothing panics, the two take at
    most [2n+2] steps for [n] articles and can always run to the end, the
    articles go through the channel in feed order, and when [saveFeed] has
    ended the store is the one that [AddArticle] on each article of the
    feed, in order, gives. *)
Theorem ProcessFeed_saves_every_article `{Sorter} (s0 : GoNews.ArticleStore)
  (articles : list Article) (ts : list AppOps.turn) :
match AppOps.pipeRun ts (AppOps.startPipe s0 articles) with
| Panics _ => False
| Blocks => True
| Returns p =>
    (length ts ≤ 2 * length articles + 2)%nat ∧
    GoNewsRuns.addEach (AppOps.saving p)
      (Chan.buf (AppOps.out p) ++ AppOps.rest p)
    = GoNewsRuns.addEach s0 articles ∧
    (∃ ts' p', AppOps.pipeRun ts' p = Returns p' ∧ AppOps.saved p' = true) ∧
    (AppOps.saved p = true →
       AppOps.saving p = GoNewsRuns.addEach s0 articles ∧
       AppOps.returned p = true ∧
       length ts = (2 * length articles + 2)%nat)
end.
Proof.
destruct (AppOps.pipeRun ts (AppOps.startPipe s0 articles)) as [p|msg|] eqn:Hrun;
  [| |done].
- destruct (pipeRun_inv s0 articles _ _ _ (PipeInv_start s0 articles) Hrun)
    as [HI Hleft].
  assert (pipeLeft (AppOps.startPipe s0 articles) = (2 * length articles + 2)%nat)
    as Hstart by (unfold pipeLeft; simpl; lia).
  split_and!.
  + lia.
  + by destruct HI.
  + by eapply pipeRun_completes.
  + intros Hsaved. destruct HI as [Htodo Hcl Hcap Hret Hsav].
    destruct (Hsav Hsaved) as [Hr Hbuf]. specialize (Hret Hr).
    rewrite Hbuf, Hret in Htodo. simpl in Htodo. split_and!; [done..|].
    unfold pipeLeft in Hleft. rewrite Hbuf, Hret, Hr, Hsaved in Hleft.
    simpl in Hleft. lia.
- by apply pipeRun_no_panic with (s0 := s0) (articles := articles) in Hrun;
    [|apply PipeInv_start].
Qed.

(** ** Errors, submissions and the dispatch loop *)

(** X13.  A failed fetch in [ProcessFeed]: the error is queued on the error
    channel and returned with no articles, the store is not touched; with
    five errors already waiting the call blocks.  Queued on an empty error
    channel while no URL is waiting, the error is what the next round of
    the dispatch loop prints, and the channel is empty again. *)
Theorem ProcessFeed_reports_failure (a : App.App) (err : string) :
Chan.closed (App.errChan a) = false →
Chan.cap (App.errChan a) = 5%nat →
((length (Chan.buf (App.errChan a)) < 5)%nat →
   ∃ a', AppOps.ProcessFeedFailed a err = Returns (a', ([], Some err)) ∧
         Chan.buf (App.errChan a') = Chan.buf (App.errChan a) ++ [Some err] ∧
         App.store a' = App.store a ∧
         (Chan.buf (App.errChan a) = [] → Chan.ready (App.feedRead a) = false →
            ∀ p, ∃ a'', App.runIter p a' = Returns (a'', Some ("error: " +:+ err)) ∧
                        Chan.buf (App.errChan a'') = [])) ∧
(length (Chan.buf (App.errChan a)) = 5%nat →
   AppOps.ProcessFeedFailed a err = Blocks).
Proof.
intros Hopen Hcap. unfold AppOps.ProcessFeedFailed, Chan.send.
rewrite Hopen, Hcap. split.
- intros Hroom. destruct (Nat.ltb_spec (length (Chan.buf (App.errChan a))) 5); [|lia].
  simpl. eexists. split_and!; [done..|].
  intros Hempty Hnofeed p. unfold App.runIter. simpl.
  rewrite Hnofeed, Hempty. simpl. eauto.
- intros Hfull. rewrite Hfull. done.
Qed.

Lemma ProcessFeed_reports_failure_witness :
∃ a', AppOps.ProcessFeedFailed App.NewApp "timeout"
      = Returns (a', ([], Some "timeout")) ∧
      Chan.buf (App.errChan a') = [Some "timeout"].
Proof.
destruct (ProcessFeed_reports_failure App.NewApp "timeout") as [Hroom _];
  [reflexivity..|].
destruct Hroom as (a' & Hrun & Hbuf & _); [simpl; lia|].
exists a'. split; [exact Hrun|exact Hbuf].
Defined.

(** X14.  After [Close] nothing can be handed to the application any
    more: [SubmitFeed] and [SubmitError] panic on their closed channels,
    and a second [Close] panics too. *)
Theorem App_closed_for_good (a closed : App.App) (url : string)
  (err : option string) :
App.Close a = Returns closed →
AppOps.SubmitFeed closed url = Panics "send on closed channel" ∧
AppOps.SubmitError closed err = Panics "send on closed channel" ∧
App.Close closed = Panics "close of closed channel".
Proof.
intros (Hf & He & _)%Close_shutDown.
unfold AppOps.SubmitFeed, AppOps.SubmitError, App.Close, Chan.send, Chan.close.
by rewrite Hf, He.
Qed.

Lemma App_closed_for_good_witness :
∃ closed, App.Close App.NewApp = Returns closed ∧
          AppOps.SubmitFeed closed "https://feeds.bbci.co.uk/news/rss.xml"
          = Panics "send on closed channel".
Proof.
eexists. split; [reflexivity|].
eapply (App_closed_for_good App.NewApp _ _ None). reflexivity.
Defined.

(** The dispatch loop with URLs waiting, no error waiting and room in the
    pool: each round forwards the oldest URL. *)
Lemma run_forwards ps a :
Chan.ready (App.errChan a) = false →
Chan.closed (Worker.incomingFeeds (App.workerPool a)) = false →
length ps = length (Chan.buf (App.feedRead a)) →
(Worker.pending (App.workerPool a) + length (Chan.buf (App.feedRead a))
 ≤ Chan.cap (Worker.incomingFeeds (App.workerPool a)))%nat →
∃ a', App.run ps a = Returns a' ∧
      Chan.buf (App.feedRead a') = [] ∧
      Chan.buf (Worker.incomingFeeds (App.workerPool a'))
      = Chan.buf (Worker.incomingFeeds (App.workerPool a))
        ++ Chan.buf (App.feedRead a) ∧
      App.errChan a' = App.errChan a ∧
      App.store a' = App.store a.
Proof.
revert a. induction ps as [|p ps IH]; intros a Herr Hopen Hlen Hroom; simpl.
- exists a. symmetry in Hlen. apply length_zero_iff_nil in Hlen.
  rewrite Hlen, app_nil_r. done.
- destruct (Chan.buf (App.feedRead a)) as [|u us] eqn:Hbuf; [done|].
  unfold App.runIter, Chan.ready at 1. rewrite Hbuf, Herr. simpl.
  unfold Chan.recv. rewrite Hbuf. simpl.
  unfold Worker.Submit, Chan.send. rewrite Hopen.
  unfold Worker.pending in Hroom. simpl in Hroom.
  destruct (Nat.ltb_spec
              (length (Chan.buf (Worker.incomingFeeds (App.workerPool a))))
              (Chan.cap (Worker.incomingFeeds (App.workerPool a)))); [|lia].
  simpl.
  edestruct IH as (a' & Hrun & Hfeed & Hpool & Herrs & Hstore);
    [..|exists a'; split; [exact Hrun|]].
  + done.
  + done.
  + simpl. simpl in Hlen. lia.
  + unfold Worker.pending. simpl. rewrite length_app. simpl. lia.
  + simpl in *. rewrite Hpool, <- app_assoc. done.
Qed.

(** X15.  The dispatch loop hands the submitted URLs to the worker pool in
    the order of their submission: after [SubmitFeed] of each URL of a
    list of at most five on a new application, as many rounds of the loop
    leave the pool's queue holding that list, in order, and the feed
    channel empty. *)
Theorem dispatch_keeps_submission_order (urls : list string) (ps : list App.pick) :
(length urls ≤ 5)%nat → length ps = length urls →
∃ a a',
  foldl (λ m url, a ← m; AppOps.SubmitFeed a url) (Returns App.NewApp) urls
  = Returns a ∧
  App.run ps a = Returns a' ∧
  Chan.buf (Worker.incomingFeeds (App.workerPool a')) = urls ∧
  Chan.buf (App.feedRead a') = [].
Proof.
intros Hfew Hlen.
assert (∀ a0, Chan.closed (App.feedRead a0) = false →
              Chan.cap (App.feedRead a0) = 5%nat →
              (length (Chan.buf (App.feedRead a0)) + length urls ≤ 5)%nat →
        ∃ a, foldl (λ m url, a ← m; AppOps.SubmitFeed a url) (Returns a0) urls
             = Returns a ∧
             Chan.buf (App.feedRead a) = Chan.buf (App.feedRead a0) ++ urls ∧
             App.errChan a = App.errChan a0 ∧
             App.workerPool a = App.workerPool a0) as Hsubmit.
{ clear ps Hlen Hfew. induction urls as [|u urls IH]; intros a0 Hopen Hcap Hroom; simpl.
  - exists a0. by rewrite app_nil_r.
  - unfold AppOps.SubmitFeed at 2, Chan.send. rewrite Hopen, Hcap.
    simpl in Hroom.
    destruct (Nat.ltb_spec (length (Chan.buf (App.feedRead a0))) 5); [|lia]. simpl.
    edestruct IH as (a & Hrun & Hbuf & He & Hw); [..|exists a; split; [exact Hrun|]].
    + done.
    + done.
    + simpl. rewrite length_app. simpl. lia.
    + simpl in *. by rewrite Hbuf, <- app_assoc. }
destruct (Hsubmit App.NewApp) as (a & Hrun & Hbuf & He & Hw); [done|done|simpl; lia|].
simpl in Hbuf.
destruct (run_forwards ps a) as (a' & Hloop & Hfeed & Hpool & _).
- by rewrite He.
- by rewrite Hw.
- by rewrite Hbuf.
- rewrite Hw, Hbuf. simpl. lia.
- exists a, a'. split_and!; [done..| |done].
  by rewrite Hpool, Hw, Hbuf.
Qed.

Lemma dispatch_keeps_submission_order_witness :
∃ a', App.run [App.PickFeed; App.PickErr]
        {| App.store := GoNews.NewArticleStore;
           App.feedRead := {| Chan.buf := ["u1"; "u2"]; Chan.cap := 5; Chan.closed := false |};
           App.errChan := Chan.make 5;
           App.workerPool := Worker.NewWorkerPool tt 3 |} = Returns a' ∧
      Chan.buf (Worker.incomingFeeds (App.workerPool a')) = ["u1"; "u2"].
Proof.
destruct (dispatch_keeps_submission_order ["u1"; "u2"] [App.PickFeed; App.PickErr])
  as (a & a' & Hsub & Hrun & Hpool & _); [simpl; lia|reflexivity|].
injection Hsub as <-. exists a'. split; [exact Hrun|exact Hpool].
Defined.

(** ** The workers *)

Section worker_proofs.
Context {P : Type}.
Import Worker.

Lemma Worker_run_queue (wp : WorkerPool P) (processed : list string) :
WorkerOps.run (S (pending wp)) wp processed
= Some (processed ++ Chan.buf (incomingFeeds wp),
        if Chan.closed (incomingFeeds wp)
        then Returns {| workers := workers wp;
                        incomingFeeds :=
                          {| Chan.buf := []; Chan.cap := Chan.cap (incomingFeeds wp);
                             Chan.closed := true |} |}
        else Blocks).
Proof.
destruct wp as [ws [buf cap closed]]. unfold pending. simpl.
revert processed. induction buf as [|u buf IH]; intros processed.
- simpl. unfold take1, Chan.recv. simpl. rewrite app_nil_r.
  by destruct closed.
- change (length (u :: buf)) with (S (length buf)).
  cbn [WorkerOps.run]. unfold take1 at 1, Chan.recv. simpl.
  rewrite IH, <- app_assoc. done.
Qed.

(** X16.  What is submitted before [Stop] is worked off: with the URLs of
    a list of at most 100 submitted to a new pool, a worker takes exactly
    these URLs, each once and in the order of submission; after [Stop] it
    then leaves its loop with the queue empty, without [Stop] it waits on
    the empty queue. *)
Theorem Worker_drains_queue_in_order (processor : P) (count : Z)
  (urls : list string) :
(length urls ≤ 100)%nat →
∃ wp stopped done,
  SubmitAll (NewWorkerPool processor count) urls = Returns wp ∧
  Stop wp = Returns stopped ∧
  WorkerOps.run (S (length urls)) stopped [] = Some (urls, Returns done) ∧
  pending done = 0%nat ∧
  WorkerOps.run (S (length urls)) wp [] = Some (urls, Blocks).
Proof.
intros Hfew.
destruct (SubmitAll_room (NewWorkerPool processor count) urls)
  as (wp & Hsub & Hbuf & Hcap & Hopen & Hws); [done|simpl; lia|].
simpl in Hbuf.
assert (pending wp = length urls) as Hpend by (unfold pending; by rewrite Hbuf).
exists wp. eexists _, _. split_and!.
- done.
- unfold Stop, Chan.close. rewrite Hopen. simpl. done.
- rewrite <- Hpend.
  change (S (pending wp)) with
    (S (pending {| workers := workers wp;
                   incomingFeeds := {| Chan.buf := Chan.buf (incomingFeeds wp);
                                       Chan.cap := Chan.cap (incomingFeeds wp);
                                       Chan.closed := true |} |})).
  rewrite Worker_run_queue. simpl. by rewrite Hbuf.
- done.
- rewrite <- Hpend, Worker_run_queue, Hopen, Hbuf. done.
Qed.

(** X17.  [Stop] must be called once: a second [Stop] panics with "close
    of closed channel", whatever the workers have taken from the queue in
    between. *)
Theorem Stop_twice_panics (wp stopped later : WorkerPool P) (k : nat) :
Stop wp = Returns stopped →
drain k stopped = Returns later →
Stop later = Panics "close of closed channel".
Proof.
intros Hstop Hdrain. unfold Stop, Chan.close.
by rewrite (drain_closed _ _ _ Hdrain), (Stop_closed _ _ Hstop).
Qed.
End worker_proofs.

Lemma Worker_drains_queue_in_order_witness :
∃ wp stopped done,
  Worker.SubmitAll (Worker.NewWorkerPool tt 3) ["u1"; "u2"; "u3"] = Returns wp ∧
  Worker.Stop wp = Returns stopped ∧
  WorkerOps.run 4 stopped [] = Some (["u1"; "u2"; "u3"], Returns done).
Proof.
destruct (Worker_drains_queue_in_order tt 3 ["u1"; "u2"; "u3"])
  as (wp & stopped & done & Hsub & Hstop & Hrun & _); [simpl; lia|].
exists wp, stopped, done. split; [exact Hsub|]. split; [exact Hstop|exact Hrun].
Defined.

Lemma Stop_twice_panics_witness :
∃ stopped, Worker.Stop (Worker.NewWorkerPool tt 3) = Returns stopped ∧
           Worker.Stop stopped = Panics "close of closed channel".
Proof.
eexists. split; [reflexivity|].
eapply (Stop_twice_panics (Worker.NewWorkerPool tt 3) _ _ 0); reflexivity.
Defined.


(** * The handlers of chapter11/api ([chapter11/api/internal/handlers]) *)

Module ApiHandlers.

(** [newsroom.Article]. *)
Record NewsArticle := mkNewsArticle {
  NTitle : string;
  NDescription : string;
  NLink : string;
  NFeedTitle : string
}.

(** What a handler writes: the status code and the body, which is the
    text of [http.Error], the encoded article list, or the encoded summary
    object. *)
Inductive body :=
  | ErrorText (msg : string)
  | ArticlesJSON (articles : list Article)
  | SummaryJSON (article_count : Z) (summary : string).

Record response := mkResponse {
  code : Z;
  payload : body
}.

(** [StubSummarizer.Summarize]: the summary and the error ([None] for
    nil). *)
Definition StubSummarize (articles : list NewsArticle) : string * option string :=
match articles with
| [] => ("", Some "no articles to summarize")
| [article] =>
    ("[STUB] Summary of '" +:+ NTitle article +:+ "': This article from "
       +:+ NFeedTitle article +:+ " discusses " +:+ NDescription article
       +:+ ". For real AI summaries, install Ollama.", None)
| _ =>
    let titles := NTitle <$> articles in
    ("[STUB] News Report: Compiled " +:+ pretty (length articles)
       +:+ " articles covering: " +:+ String.concat ", " titles
       +:+ ". For real AI summaries, install Ollama and configure OLLAMA_URL.",
     None)
end.

(** [mockArticleReader.GetRecent] of the handler tests. *)
Definition mockGetRecent (articles : list Article) (n : Z) : exec (list Article) :=
let n := if Z.of_nat (length articles) <? n then Z.of_nat (length articles) else n in
slice_upto articles n.

Section handlers.
(** [strconv.Atoi], of Go's standard library: [None] when it returns an
    error. *)
Variable Atoi : string → option Z.

(** The [ArticleReader] a handler is built with. *)
Variable GetRecent : Z → exec (list Article).

(** The parsing of the "count" parameter shared by both handlers, with the
    handler's default. *)
Definition countOr (default : Z) (count : string) : Z :=
if bool_decide (count ≠ "") then
  match Atoi count with
  | Some parsed => if 0 <? parsed then parsed else default
  | None => default
  end
else default.

(** [articlesHandler]; the encoder does not fail on an article list. *)
Definition articlesHandler (method count : string) : exec response :=
if bool_decide (method ≠ "GET") then
  Returns {| code := 405; payload := ErrorText "Method not allowed" |}
else
  let n := countOr 10 count in
  articles ← GetRecent n;
  Returns {| code := 200; payload := ArticlesJSON articles |}.

(** [newsReportHandler], built with the summarizer [Summarize]. *)
Definition newsReportHandler (Summarize : list NewsArticle → string * option string)
  (method count : string) : exec response :=
if bool_decide (method ≠ "GET") then
  Returns {| code := 405; payload := ErrorText "Method not allowed" |}
else
  let n := countOr 5 count in
  articles ← GetRecent n;
  if bool_decide (length articles = 0%nat) then
    Returns {| code := 404; payload := ErrorText "No articles available" |}
  else
    let newsroomArticles :=
      (λ article, {| NTitle := Title article; NDescription := Description article;
                     NLink := Link article; NFeedTitle := FeedTitle article |})
        <$> articles in
    let '(summary, err) := Summarize newsroomArticles in
    match err with
    | Some _ =>
        Returns {| code := 500; payload := ErrorText "Failed to generate summary" |}
    | None =>
        Returns {| code := 200;
                   payload := SummaryJSON (Z.of_nat (length articles)) summary |}
    end.
End handlers.
End ApiHandlers.

Lemma countOr_positive Atoi default count :
0 < default → 0 < ApiHandlers.countOr Atoi default count.
Proof.
intros Hd. unfold ApiHandlers.countOr. case_bool_decide; [|done].
destruct (Atoi count) as [parsed|]; [|done].
by destruct (Z.ltb_spec 0 parsed).
Qed.




(** The stub summarizer fails on the empty list and on nothing else. *)
Lemma StubSummarize_error articles :
(ApiHandlers.StubSummarize articles).2 = None ↔ articles ≠ [].
Proof.
destruct articles as [|a [|b rest]]; simpl; split; done.
Qed.



(** * The key-value store of chapter07 *)

Module KV.

(** The error values of the package: the three sentinels, an error wrapped
    by [fmt.Errorf("...: %w", err)] with the text put before it, and the
    custom [bulkGetError] with its missing keys. *)
Inductive error :=
  | ErrConflict
  | ErrNotExist
  | ErrUninitialized
  | Wrap (context : string) (inner : error)
  | bulkGetError (keys : list string).

Global Instance error_eq_dec : EqDecision error.
Proof.
refine (fix go (x y : error) : Decision (x = y) :=
  match x, y with
  | ErrConflict, ErrConflict => left _
  | ErrNotExist, ErrNotExist => left _
  | ErrUninitialized, ErrUninitialized => left _
  | Wrap c1 e1, Wrap c2 e2 =>
      cast_if_and (decide (c1 = c2)) (go e1 e2)
  | bulkGetError k1, bulkGetError k2 => cast_if (decide (k1 = k2))
  | _, _ => right _
  end); congruence.
Defined.

(** [errors.Is(err, target)] for a sentinel [target]: [err] or an error it
    wraps is the sentinel; a nil [err] is not. *)
Fixpoint IsErr (err target : error) : bool :=
match err with
| Wrap _ inner => IsErr inner target
| bulkGetError _ => false
| _ => bool_decide (err = target)
end.

Definition Is (err : option error) (target : error) : bool :=
match err with
| Some e => IsErr e target
| None => false
end.

(** [errors.As(err, &berr)] for a [bulkGetError] target: the missing keys
    of the first [bulkGetError] in the chain. *)
Fixpoint As (err : error) : option (list string) :=
match err with
| bulkGetError keys => Some keys
| Wrap _ inner => As inner
| _ => None
end.

(** [m] is [None] for the nil map of a [KVStore] not made by
    [NewKVStore]. *)
Record KVStore := mkKVStore {
  m : option (gmap string string)
}.

Definition NewKVStore : KVStore := {| m := Some ∅ |}.

(** Reading a nil map finds nothing; assigning to it panics. *)
Definition Put (store : KVStore) (key val : string) : exec (KVStore * option error) :=
match m store with
| Some mp =>
    match mp !! key with
    | Some _ => Returns (store, Some ErrConflict)
    | None => Returns ({| m := Some (<[key := val]> mp) |}, None)
    end
| None => Panics "assignment to entry in nil map"
end.

Definition Get (store : KVStore) (key : string) : string * option error :=
match m store with
| Some mp =>
    match mp !! key with
    | Some v => (v, None)
    | None => ("", Some ErrNotExist)
    end
| None => ("", Some ErrNotExist)
end.

Definition Delete (store : KVStore) (key : string) : KVStore * option error :=
match m store with
| Some mp =>
    match mp !! key with
    | Some _ => ({| m := Some (delete key mp) |}, None)
    | None => (store, Some ErrNotExist)
    end
| None => (store, Some ErrNotExist)
end.

Definition ForcePut (store : KVStore) (key val : string)
  : exec (KVStore * option error) :=
'(store1, err) ← Put store key val;
match err with
| None => Returns (store1, None)
| Some e =>
    if IsErr e ErrConflict then
      let '(store2, err) := Delete store1 key in
      match err with
      | Some e => Returns (store2, Some (Wrap "unable to delete during force put" e))
      | None =>
          '(store3, err) ← Put store2 key val;
          match err with
          | Some e => Returns (store3, Some (Wrap "unable to put during force put" e))
          | None => Returns (store3, None)
          end
      end
    else Returns (store1, Some (Wrap "unable to force put" e))
end.

(** The loop of [BulkGet] with its two accumulators, and the test after
    it. *)
Fixpoint bulkGetLoop (store : KVStore) (keys res errb : list string)
  : list string * option error :=
match keys with
| [] =>
    if (0 <? length errb)%nat then (res, Some (bulkGetError errb)) else (res, None)
| key :: keys' =>
    let '(v, err) := Get store key in
    if Is err ErrNotExist then bulkGetLoop store keys' res (errb ++ [key])
    else
      match err with
      | Some e => ([], Some (Wrap "unexpected error during bulk get" e))
      | None => bulkGetLoop store keys' (res ++ [v]) errb
      end
end.

Definition BulkGet (store : KVStore) (keys : list string)
  : list string * option error :=
bulkGetLoop store keys [] [].

(** The loop [for _, key := range berr { _ = store.Put(key, "placeholder") }]. *)
Fixpoint putPlaceholders (store : KVStore) (berr : list string) : exec KVStore :=
match berr with
| [] => Returns store
| key :: berr' =>
    '(store', _) ← Put store key "placeholder";
    putPlaceholders store' berr'
end.

(** [HandleBulkGetError]: the store it leaves and the values it returns. *)
Definition HandleBulkGetError (store : KVStore) (keys : list string)
  : exec (KVStore * list string) :=
let '(vals, err) := BulkGet store keys in
match err with
| Some e =>
    match As e with
    | Some berr =>
        store' ← putPlaceholders store berr;
        let '(vals, _) := BulkGet store' keys in
        Returns (store', vals)
    | None => Returns (store, vals)
    end
| None => Returns (store, vals)
end.

(** [Keys]: Go ranges over a map in no fixed order; the keys are given
    here in the order of [elements]. *)
Definition Keys (store : KVStore) : exec (list string) :=
match m store with
| None => Panics "uninitialized kv store: use NewKVStore() to create"
| Some mp => Returns (elements (dom mp))
end.

(** [SafeKeys]: the deferred [recover] turns a panic of [Keys] into the
    error returned; the error is given by its text. *)
Definition SafeKeys (store : KVStore) : list string * option string :=
match Keys store with
| Returns keys => (keys, None)
| Panics r => ([], Some ("panic during Keys(): " +:+ r))
| Blocks => ([], None)
end.

End KV.

Section kv_proofs.
Import KV.

(** X21.  [Put], [Get] and [Delete] on an initialised store: [Put] of a
    new key stores the value, which [Get] then returns, and touches no
    other key; [Put] of a stored key returns [ErrConflict] and keeps the
    old value; [Delete] of a stored key removes it and nothing else;
    [Delete] of a missing key returns [ErrNotExist] and changes nothing. *)
Theorem KV_Put_Get_Delete (mp : gmap string string) (key val : string) :
let store := {| m := Some mp |} in
(mp !! key = None →
   ∃ store', Put store key val = Returns (store', None) ∧
             Get store' key = (val, None) ∧
             ∀ k, k ≠ key → Get store' k = Get store k) ∧
(∀ old, mp !! key = Some old →
   Put store key val = Returns (store, Some ErrConflict) ∧
   Get store key = (old, None) ∧
   ∃ store', Delete store key = (store', None) ∧
             Get store' key = ("", Some ErrNotExist) ∧
             ∀ k, k ≠ key → Get store' k = Get store k) ∧
(mp !! key = None →
   Get store key = ("", Some ErrNotExist) ∧
   Delete store key = (store, Some ErrNotExist)).
Proof.
intros store. unfold Put, Get, Delete. simpl. split_and!.
- intros ->. eexists. split; [done|]. simpl. rewrite lookup_insert_eq.
  split; [done|]. intros k Hk. by rewrite lookup_insert_ne.
- intros old ->. split_and!; [done..|]. eexists. split; [done|]. simpl.
  rewrite lookup_delete_eq. split; [done|].
  intros k Hk. by rewrite lookup_delete_ne.
- by intros ->.
Qed.

(** X22.  [ForcePut] on an initialised store never fails: whether the key
    was stored or not it returns a nil error, the key then holds the new
    value and every other key is as before. *)
Theorem KV_ForcePut_overwrites (mp : gmap string string) (key val : string) :
∃ store', ForcePut {| m := Some mp |} key val = Returns (store', None) ∧
          m store' = Some (<[key := val]> mp) ∧
          Get store' key = (val, None) ∧
          ∀ k, k ≠ key → Get store' k = Get {| m := Some mp |} k.
Proof.
assert (∀ store', m store' = Some (<[key := val]> mp) →
          Get store' key = (val, None) ∧
          ∀ k, k ≠ key → Get store' k = Get {| m := Some mp |} k) as Hget.
{ intros store' Hm. unfold Get. rewrite Hm. simpl. rewrite lookup_insert_eq.
  split; [done|]. intros k Hk. by rewrite lookup_insert_ne. }
destruct (mp !! key) as [old|] eqn:Hkey.
- assert (Put {| m := Some mp |} key val
          = Returns ({| m := Some mp |}, Some ErrConflict)) as Hput1
    by (unfold Put; simpl; by rewrite Hkey).
  assert (Delete {| m := Some mp |} key = ({| m := Some (delete key mp) |}, None))
    as Hdel by (unfold Delete; simpl; by rewrite Hkey).
  assert (Put {| m := Some (delete key mp) |} key val
          = Returns ({| m := Some (<[key := val]> mp) |}, None)) as Hput2
    by (unfold Put; simpl; by rewrite lookup_delete_eq, insert_delete_eq).
  unfold ForcePut. rewrite Hput1. simpl. rewrite Hdel, Hput2. simpl.
  eexists. split; [done|]. split; [done|]. by apply Hget.
- assert (Put {| m := Some mp |} key val
          = Returns ({| m := Some (<[key := val]> mp) |}, None)) as Hput
    by (unfold Put; simpl; by rewrite Hkey).
  unfold ForcePut. rewrite Hput. simpl.
  eexists. split; [done|]. split; [done|]. by apply Hget.
Qed.

Lemma bulkGetLoop_spec (mp : gmap string string) (keys res errb : list string) :
bulkGetLoop {| m := Some mp |} keys res errb
= (res ++ omap (λ k, mp !! k) keys,
   let missing := errb ++ filter (λ k, mp !! k = None) keys in
   if (0 <? length missing)%nat then Some (bulkGetError missing) else None).
Proof.
revert res errb. induction keys as [|key keys IH]; intros res errb.
- simpl. rewrite filter_nil, !app_nil_r. by destruct (_ <? _)%nat.
- cbn [bulkGetLoop]. unfold Get. cbn [m].
  destruct (mp !! key) as [v|] eqn:Hkey; cbn [Is IsErr]; rewrite ?bool_decide_true by done.
  + rewrite IH. cbn [omap list_omap]. rewrite Hkey.
    rewrite filter_cons_False by (by rewrite Hkey). by rewrite <- app_assoc.
  + rewrite IH. cbn [omap list_omap]. rewrite Hkey.
    rewrite filter_cons_True by done. by rewrite <- app_assoc.
Qed.

(** X23.  [BulkGet] on an initialised store returns the values of the
    requested keys that are stored, in the order requested, and with them
    a [bulkGetError] listing the requested keys that are missing, in the
    order requested; the error is nil exactly when no key is missing, and
    each requested key is counted once on one side or the other. *)
Theorem KV_BulkGet_partitions (mp : gmap string string) (keys : list string) :
let missing := filter (λ k, mp !! k = None) keys in
let '(res, err) := BulkGet {| m := Some mp |} keys in
res = omap (λ k, mp !! k) keys ∧
err = (if bool_decide (missing = []) then None else Some (bulkGetError missing)) ∧
(length res + length missing)%nat = length keys ∧
(err = None ↔ ∀ k, k ∈ keys → is_Some (mp !! k)).
Proof.
intros missing. unfold BulkGet. rewrite bulkGetLoop_spec. simpl. fold missing.
split_and!.
- done.
- destruct missing; simpl; [by rewrite ?bool_decide_true|by rewrite ?bool_decide_false].
- unfold missing. clear missing. induction keys as [|k keys IH]; simpl; [done|].
  destruct (mp !! k) eqn:Hk.
  + rewrite filter_cons_False by (by rewrite Hk). simpl. f_equal. exact IH.
  + rewrite filter_cons_True by done. simpl. rewrite Nat.add_succ_r.
    f_equal. exact IH.
- assert (missing = [] ↔ ∀ k, k ∈ keys → is_Some (mp !! k)) as <-.
  { unfold missing. clear missing. split.
    - intros Hnil k Hk. apply not_eq_None_Some. intros Hnone.
      by apply (filter_nil_not_elem_of _ _ _ Hnil Hnone).
    - intros Hall. induction keys as [|k keys IH]; [done|].
      rewrite filter_cons_False.
      + apply IH. intros k' Hk'. apply Hall. by right.
      + apply not_eq_None_Some, Hall. by left. }
  by destruct missing.
Qed.

Lemma putPlaceholders_spec (berr : list string) (mp : gmap string string) :
∃ mp', putPlaceholders {| m := Some mp |} berr = Returns {| m := Some mp' |} ∧
       ∀ k, mp' !! k = match mp !! k with
                       | Some v => Some v
                       | None => if bool_decide (k ∈ berr) then Some "placeholder" else None
                       end.
Proof.
revert mp. induction berr as [|key berr IH]; intros mp; simpl.
- exists mp. split; [done|]. intros k. by destruct (mp !! k).
- unfold Put. simpl. destruct (mp !! key) as [v|] eqn:Hkey; simpl.
  + destruct (IH mp) as (mp' & Hrun & Hlook). exists mp'. split; [done|].
    intros k. rewrite Hlook. destruct (mp !! k) eqn:Hk; [done|].
    assert (k ≠ key) by congruence.
    destruct (decide (k ∈ berr)).
    * by rewrite !bool_decide_true by (done || by right).
    * rewrite !bool_decide_false; [done| |done]. by intros [?|?]%elem_of_cons.
  + destruct (IH (<[key := "placeholder"]> mp)) as (mp' & Hrun & Hlook).
    exists mp'. split; [done|]. intros k. rewrite Hlook.
    destruct (decide (k = key)) as [->|Hne].
    * rewrite lookup_insert_eq, Hkey. by rewrite bool_decide_true by (by left).
    * rewrite lookup_insert_ne by done. destruct (mp !! k); [done|].
      destruct (decide (k ∈ berr)).
      -- by rewrite !bool_decide_true by (done || by right).
      -- rewrite !bool_decide_false; [done| |done]. by intros [?|?]%elem_of_cons.
Qed.

(** X24.  [HandleBulkGetError] on an initialised store returns one value
    for each requested key, in the order requested: the stored value, or
    "placeholder" for a key that was missing.  Afterwards every requested
    key is stored, the missing ones with "placeholder", and all other
    keys are as before. *)
Theorem KV_HandleBulkGetError_fills_in (mp : gmap string string)
  (keys : list string) :
∃ mp', HandleBulkGetError {| m := Some mp |} keys
       = Returns ({| m := Some mp' |},
                  (λ k, default "placeholder" (mp !! k)) <$> keys) ∧
       ∀ k, mp' !! k = match mp !! k with
                       | Some v => Some v
                       | None => if bool_decide (k ∈ keys) then Some "placeholder" else None
                       end.
Proof.
unfold HandleBulkGetError, BulkGet. rewrite bulkGetLoop_spec. simpl.
set (missing := filter (λ k, mp !! k = None) keys).
assert (∀ mp' : gmap string string,
          (∀ k, k ∈ keys → mp' !! k = Some (default "placeholder" (mp !! k))) →
          omap (λ k, mp' !! k) keys = (λ k, default "placeholder" (mp !! k)) <$> keys)
  as Hvals.
{ intros mp' Hall. induction keys as [|k keys IH]; simpl; [done|].
  rewrite (Hall k) by (by left). simpl. f_equal. apply IH.
  intros k' Hk'. apply Hall. by right. }
destruct missing as [|k0 missing'] eqn:Hmissing; cbn -[putPlaceholders].
- exists mp. split.
  + do 2 f_equal. apply Hvals. intros k Hk.
    assert (mp !! k ≠ None) as Hsome.
    { intros Hnone. assert (k ∈ missing) as Hin by (by apply list_elem_of_filter).
      rewrite Hmissing in Hin. by apply elem_of_nil in Hin. }
    by destruct (mp !! k).
  + intros k. destruct (mp !! k) eqn:Hk; [done|].
    rewrite bool_decide_false; [done|]. intros Hin.
    assert (k ∈ missing) as Hin' by (by apply list_elem_of_filter).
    rewrite Hmissing in Hin'. by apply elem_of_nil in Hin'.
- destruct (putPlaceholders_spec (k0 :: missing') mp) as (mp' & -> & Hlook). simpl.
  rewrite bulkGetLoop_spec. simpl.
  assert (∀ k, mp !! k = None → (k ∈ k0 :: missing' ↔ k ∈ keys)) as Hmem.
  { intros k Hk. rewrite <- Hmissing. unfold missing.
    rewrite list_elem_of_filter. tauto. }
  exists mp'. split.
  + do 2 f_equal. apply Hvals. intros k Hk. rewrite Hlook.
    destruct (mp !! k) eqn:Hmk; [done|]. simpl.
    by rewrite bool_decide_true by (by apply Hmem).
  + intros k. rewrite Hlook. destruct (mp !! k) eqn:Hmk; [done|].
    destruct (decide (k ∈ keys)) as [Hin|Hnin].
    * rewrite !bool_decide_true; [done..|]. by apply Hmem.
    * rewrite !bool_decide_false; [done..|]. by rewrite Hmem.
Qed.

(** X25.  A [KVStore] that was not made by [NewKVStore] (nil map): [Get]
    and [Delete] report [ErrNotExist], [BulkGet] reports every requested
    key missing, [Put] and [ForcePut] panic on the assignment to the nil
    map, and so does [HandleBulkGetError] as soon as a key is requested;
    [Keys] panics and [SafeKeys] returns that panic as an error.  On an
    initialised store [SafeKeys] returns every stored key once and no
    error. *)
Theorem KV_uninitialised (key val : string) (keys : list string)
  (mp : gmap string string) :
let zero := {| m := None |} in
Get zero key = ("", Some ErrNotExist) ∧
Delete zero key = (zero, Some ErrNotExist) ∧
BulkGet zero (key :: keys) = ([], Some (bulkGetError (key :: keys))) ∧
Put zero key val = Panics "assignment to entry in nil map" ∧
ForcePut zero key val = Panics "assignment to entry in nil map" ∧
HandleBulkGetError zero (key :: keys) = Panics "assignment to entry in nil map" ∧
Keys zero = Panics "uninitialized kv store: use NewKVStore() to create" ∧
SafeKeys zero
= ([], Some "panic during Keys(): uninitialized kv store: use NewKVStore() to create") ∧
(∃ ks, SafeKeys {| m := Some mp |} = (ks, None) ∧ NoDup ks ∧
       ∀ k, k ∈ ks ↔ is_Some (mp !! k)).
Proof.
intros zero.
assert (∀ ks res errb, bulkGetLoop zero ks res errb
        = (res, if (0 <? length (errb ++ ks))%nat
                then Some (bulkGetError (errb ++ ks)) else None)) as Hloop.
{ induction ks as [|k ks IH]; intros res errb; simpl.
  - rewrite app_nil_r. by destruct (_ <? _)%nat.
  - rewrite IH. by rewrite <- app_assoc. }
split_and!; try done.
- unfold BulkGet. by rewrite Hloop.
- unfold HandleBulkGetError, BulkGet. by rewrite Hloop.
- exists (elements (dom mp)). split_and!; [done|apply NoDup_elements|].
  intros k. by rewrite elem_of_elements, elem_of_dom.
Qed.
End kv_proofs.

Lemma KV_Put_Get_Delete_witness :
∃ store', KV.Put KV.NewKVStore "k" "v" = Returns (store', None) ∧
          KV.Get store' "k" = ("v", None) ∧
          KV.Put store' "k" "w" = Returns (store', Some KV.ErrConflict).
Proof.
destruct (KV_Put_Get_Delete ∅ "k" "v") as (Hnew & _ & _).
destruct Hnew as (store' & Hput & Hget & _); [reflexivity|].
exists store'. split; [exact Hput|]. split; [exact Hget|].
injection Hput as <-.
destruct (KV_Put_Get_Delete (<["k" := "v"]> ∅) "k" "w") as (_ & Hold & _).
by destruct (Hold "v") as (Hconflict & _); [reflexivity|].
Defined.

(** * The generic linked list of [chapter06/main.go] *)

Module Generics.

(** A [*node[T]]: nil, or a node with its value and its [next] pointer.
    Nodes are made by the methods of the list only and are never handed
    out, so no node belongs to two chains and no chain has a cycle: a
    chain is given by its nodes from first to last. *)
Inductive node (T : Type) : Type :=
  | null
  | mkNode (value : T) (next : node T).
Arguments null {T}.
Arguments mkNode {T} value next.

(** [LinkedList[T]].  [size] is the counter the methods keep; it is a
    field of its own and is not computed from the chain. *)
Record LinkedList (T : Type) := mkLinkedList {
  head : node T;
  size : Z
}.
Arguments mkLinkedList {T} head size.
Arguments head {T} l.
Arguments size {T} l.

(** A call of one of the methods that change the list, or of
    [ReverseList]. *)
Inductive call (T : Type) : Type :=
  | CallAdd (item : T)
  | CallRemove (item : T)
  | CallClear
  | CallSet (index : Z) (item : T)
  | CallInsert (index : Z) (item : T)
  | CallRemoveAt (index : Z)
  | CallReverseList.
Arguments CallAdd {T} item.
Arguments CallRemove {T} item.
Arguments CallClear {T}.
Arguments CallSet {T} index item.
Arguments CallInsert {T} index item.
Arguments CallRemoveAt {T} index.
Arguments CallReverseList {T}.

Definition nilDereference : string :=
  "invalid memory address or nil pointer dereference".

Definition outOfBounds : string := "index out of bounds".

Section methods.
Context {T : Type} `{EqDecision T}.

(** The zero value of [T] ([var zero T]). *)
Variable zero : T.

Definition NewLinkedList : LinkedList T := {| head := null; size := 0 |}.

(** The values of a chain, first node to last. *)
Fixpoint values (curr : node T) : list T :=
match curr with
| null => []
| mkNode v next => v :: values next
end.

(** The body of [Add]: a nil head is replaced by the new node [n];
    otherwise the walk [for curr.next != nil] ends at the last node, whose
    [next] is set to [n]. *)
Fixpoint linkLast (curr n : node T) : node T :=
match curr with
| null => n
| mkNode v next => mkNode v (linkLast next n)
end.

Definition Add (l : LinkedList T) (item : T) : LinkedList T :=
let n := mkNode item null in
{| head := linkLast (head l) n; size := size l + 1 |}.

(** The loop of [Remove] from [curr] on: the chain with the first node
    whose value is [item] unlinked, or [None] when the loop runs off the
    end. *)
Fixpoint unlinkFirst (curr : node T) (item : T) : option (node T) :=
match curr with
| null => None
| mkNode v next =>
    if decide (v = item) then Some next
    else
      match unlinkFirst next item with
      | Some next' => Some (mkNode v next')
      | None => None
      end
end.

Definition Remove (l : LinkedList T) (item : T) : LinkedList T * bool :=
match unlinkFirst (head l) item with
| Some h => ({| head := h; size := size l - 1 |}, true)
| None => (l, false)
end.

Fixpoint containsFrom (curr : node T) (item : T) : bool :=
match curr with
| null => false
| mkNode v next => if decide (v = item) then true else containsFrom next item
end.

Definition Contains (l : LinkedList T) (item : T) : bool :=
containsFrom (head l) item.

Definition Size (l : LinkedList T) : Z := size l.

Definition Clear (l : LinkedList T) : LinkedList T :=
{| head := null; size := 0 |}.

(** [curr = curr.next], [i] times.  Reading [next] of a nil pointer
    panics. *)
Fixpoint advance (curr : node T) (i : nat) {struct i} : exec (node T) :=
match i with
| O => Returns curr
| S i' =>
    match curr with
    | null => Panics nilDereference
    | mkNode _ next => advance next i'
    end
end.

Definition Get (l : LinkedList T) (index : Z) : exec (T * option string) :=
if (index <? 0) || (size l <=? index) then Returns (zero, Some outOfBounds)
else
  curr ← advance (head l) (Z.to_nat index);
  match curr with
  | null => Panics nilDereference
  | mkNode v _ => Returns (v, None)
  end.

(** [curr.value = item] at the node [i] steps from [curr]: the chain
    after the write. *)
Fixpoint writeAt (curr : node T) (i : nat) (item : T) : exec (node T) :=
match curr with
| null => Panics nilDereference
| mkNode v next =>
    match i with
    | O => Returns (mkNode item next)
    | S i' => next' ← writeAt next i' item; Returns (mkNode v next')
    end
end.

Definition Set_ (l : LinkedList T) (index : Z) (item : T)
  : exec (LinkedList T * option string) :=
if (index <? 0) || (size l <=? index) then Returns (l, Some outOfBounds)
else
  h ← writeAt (head l) (Z.to_nat index) item;
  Returns ({| head := h; size := size l |}, None).

(** [n.next = curr.next; curr.next = n] at the node [i] steps from
    [curr]: the chain after the two writes. *)
Fixpoint linkAfter (curr : node T) (i : nat) (item : T) : exec (node T) :=
match curr with
| null => Panics nilDereference
| mkNode v next =>
    match i with
    | O => Returns (mkNode v (mkNode item next))
    | S i' => next' ← linkAfter next i' item; Returns (mkNode v next')
    end
end.

Definition Insert (l : LinkedList T) (index : Z) (item : T)
  : exec (LinkedList T * option string) :=
if (index <? 0) || (size l <? index) then Returns (l, Some outOfBounds)
else if index =? 0 then
  Returns ({| head := mkNode item (head l); size := size l + 1 |}, None)
else
  h ← linkAfter (head l) (Z.to_nat (index - 1)) item;
  Returns ({| head := h; size := size l + 1 |}, None).

(** The node [i] steps from [curr] is unlinked ([l.head = curr.next] or
    [prev.next = curr.next]): the chain without it, and its value. *)
Fixpoint unlinkAt (curr : node T) (i : nat) : exec (node T * T) :=
match curr with
| null => Panics nilDereference
| mkNode v next =>
    match i with
    | O => Returns (next, v)
    | S i' => '(next', x) ← unlinkAt next i'; Returns (mkNode v next', x)
    end
end.

Definition RemoveAt (l : LinkedList T) (index : Z)
  : exec (LinkedList T * T * option string) :=
if (index <? 0) || (size l <=? index) then Returns (l, zero, Some outOfBounds)
else
  '(h, x) ← unlinkAt (head l) (Z.to_nat index);
  Returns ({| head := h; size := size l - 1 |}, x, None).

(** The loop of [ReverseList] from [i] on, with [todo] rounds left.  The
    errors of [Get] and [Set] are dropped, as in the source. *)
Fixpoint reverseLoop (list : LinkedList T) (n i : Z) (todo : nat)
  : exec (LinkedList T) :=
match todo with
| O => Returns list
| S todo' =>
    '(a, _) ← Get list i;
    '(b, _) ← Get list (n - 1 - i);
    '(list, _) ← Set_ list i b;
    '(list, _) ← Set_ list (n - 1 - i) a;
    reverseLoop list n (i + 1) todo'
end.

(** [ReverseList] applied to a [*LinkedList[T]]; [n/2] is Go's truncated
    division. *)
Definition ReverseList (list : LinkedList T) : exec (LinkedList T) :=
let n := Size list in
reverseLoop list n 0 (Z.to_nat (Z.quot n 2)).

Definition perform (l : LinkedList T) (c : call T) : exec (LinkedList T) :=
match c with
| CallAdd item => Returns (Add l item)
| CallRemove item => Returns (Remove l item).1
| CallClear => Returns (Clear l)
| CallSet index item => '(l', _) ← Set_ l index item; Returns l'
| CallInsert index item => '(l', _) ← Insert l index item; Returns l'
| CallRemoveAt index => '(l', _, _) ← RemoveAt l index; Returns l'
| CallReverseList => ReverseList l
end.

Fixpoint performAll (l : LinkedList T) (cs : list (call T)) : exec (LinkedList T) :=
match cs with
| [] => Returns l
| c :: cs' => l' ← perform l c; performAll l' cs'
end.

(** The counter agrees with the chain. *)
Definition counted (l : LinkedList T) : Prop :=
size l = Z.of_nat (length (values (head l))).

End methods.

End Generics.

Section linked_list_proofs.
Import Generics.
Context {T : Type} `{EqDecision T}.
Variable zero : T.
Implicit Types (curr : node T) (l : LinkedList T) (item : T).

Lemma values_inj curr curr' : values curr = values curr' → curr = curr'.
Proof.
revert curr'. induction curr as [|v next IH]; intros [|v' next']; simpl; try done.
intros [= -> Hnext]. f_equal. by apply IH.
Qed.

Lemma values_linkLast curr n : values (linkLast curr n) = values curr ++ values n.
Proof. induction curr as [|v next IH]; simpl; [done|]. by rewrite IH. Qed.

Lemma advance_spec curr (i : nat) :
(i ≤ length (values curr))%nat →
∃ curr', advance curr i = Returns curr' ∧ values curr' = drop i (values curr).
Proof.
revert curr. induction i as [|i IH]; intros curr Hi; simpl.
- by exists curr.
- destruct curr as [|v next]; simpl in *; [lia|]. apply IH. lia.
Qed.

Lemma writeAt_spec curr (i : nat) item :
(i < length (values curr))%nat →
∃ curr', writeAt curr i item = Returns curr' ∧
         values curr' = <[i := item]> (values curr).
Proof.
revert i. induction curr as [|v next IH]; intros i Hi; simpl in *; [lia|].
destruct i as [|i].
- by eexists.
- destruct (IH i) as (next' & -> & Hvals); [lia|]. simpl.
  eexists. split; [done|]. simpl. by rewrite Hvals.
Qed.

Lemma linkAfter_spec curr (i : nat) item :
(i < length (values curr))%nat →
∃ curr', linkAfter curr i item = Returns curr' ∧
         values curr' = take (S i) (values curr) ++ item :: drop (S i) (values curr).
Proof.
revert i. induction curr as [|v next IH]; intros i Hi; simpl in *; [lia|].
destruct i as [|i].
- eexists. split; [done|]. simpl. by rewrite ?take_0, ?drop_0.
- destruct (IH i) as (next' & -> & Hvals); [lia|]. simpl.
  eexists. split; [done|]. simpl. by rewrite Hvals.
Qed.

Lemma unlinkAt_spec curr (i : nat) :
(i < length (values curr))%nat →
∃ curr' v, unlinkAt curr i = Returns (curr', v) ∧
           values curr !! i = Some v ∧
           values curr' = delete i (values curr).
Proof.
revert i. induction curr as [|v next IH]; intros i Hi; simpl in *; [lia|].
destruct i as [|i].
- by exists next, v.
- destruct (IH i) as (next' & x & -> & Hx & Hvals); [lia|]. simpl.
  exists (mkNode v next'), x. split; [done|]. split; [done|]. simpl. by rewrite Hvals.
Qed.

Lemma unlinkFirst_spec curr item :
match unlinkFirst curr item with
| Some curr' => ∃ before after, values curr = before ++ item :: after ∧
                                (item ∉ before) ∧
                                values curr' = before ++ after
| None => item ∉ values curr
end.
Proof.
induction curr as [|v next IH]; simpl.
- apply not_elem_of_nil.
- destruct (decide (v = item)) as [->|Hne].
  + exists [], (values next). split_and!; [done|apply not_elem_of_nil|done].
  + destruct (unlinkFirst next item) as [next'|].
    * destruct IH as (before & after & Hvals & Hnot & Hvals').
      exists (v :: before), after. simpl. rewrite Hvals, Hvals'. split_and!; [done| |done].
      by intros [?|?]%elem_of_cons.
    * by intros [?|?]%elem_of_cons.
Qed.

Lemma containsFrom_spec curr item :
containsFrom curr item = bool_decide (item ∈ values curr).
Proof.
induction curr as [|v next IH]; simpl.
- done.
- destruct (decide (v = item)) as [->|Hne].
  + by rewrite bool_decide_true by (by left).
  + rewrite IH. apply bool_decide_ext. rewrite elem_of_cons. naive_solver.
Qed.

(** ** The methods on a list whose counter agrees with its chain *)

Lemma Get_at l (i : nat) v :
counted l → values (head l) !! i = Some v →
Get zero l (Z.of_nat i) = Returns (v, None).
Proof.
intros Hc Hv. pose proof (lookup_lt_Some _ _ _ Hv) as Hi. unfold Get.
destruct (Z.ltb_spec (Z.of_nat i) 0); [lia|].
destruct (Z.leb_spec (size l) (Z.of_nat i)); [unfold counted in Hc; lia|]. simpl.
rewrite Nat2Z.id. destruct (advance_spec (head l) i) as (curr & -> & Hcurr); [lia|].
simpl. destruct curr as [|v' next]; simpl in Hcurr.
- apply (f_equal length) in Hcurr. rewrite length_drop in Hcurr. simpl in Hcurr. lia.
- assert (drop i (values (head l)) !! 0%nat = Some v) as Hd
    by (by rewrite lookup_drop, Nat.add_0_r).
  rewrite <- Hcurr in Hd. by injection Hd as ->.
Qed.

Lemma Get_outside l index :
¬ (0 ≤ index < size l) → Get zero l index = Returns (zero, Some outOfBounds).
Proof.
intros Hout. unfold Get.
destruct (Z.ltb_spec index 0); [done|].
destruct (Z.leb_spec (size l) index); [done|lia].
Qed.

Lemma Set_at l (i : nat) item :
counted l → (i < length (values (head l)))%nat →
∃ l', Set_ l (Z.of_nat i) item = Returns (l', None) ∧
      values (head l') = <[i := item]> (values (head l)) ∧
      size l' = size l.
Proof.
intros Hc Hi. unfold Set_.
destruct (Z.ltb_spec (Z.of_nat i) 0); [lia|].
destruct (Z.leb_spec (size l) (Z.of_nat i)); [unfold counted in Hc; lia|]. simpl.
rewrite Nat2Z.id. destruct (writeAt_spec (head l) i item Hi) as (h & -> & Hh).
simpl. by eexists.
Qed.

Lemma Set_outside l index item :
¬ (0 ≤ index < size l) → Set_ l index item = Returns (l, Some outOfBounds).
Proof.
intros Hout. unfold Set_.
destruct (Z.ltb_spec index 0); [done|].
destruct (Z.leb_spec (size l) index); [done|lia].
Qed.

Lemma Insert_at l (i : nat) item :
counted l → (i ≤ length (values (head l)))%nat →
∃ l', Insert l (Z.of_nat i) item = Returns (l', None) ∧
      values (head l')
      = take i (values (head l)) ++ item :: drop i (values (head l)) ∧
      size l' = size l + 1.
Proof.
intros Hc Hi. unfold Insert.
destruct (Z.ltb_spec (Z.of_nat i) 0); [lia|].
destruct (Z.ltb_spec (size l) (Z.of_nat i)); [unfold counted in Hc; lia|]. simpl.
destruct i as [|i].
- simpl. eexists. split; [done|]. by rewrite ?take_0, ?drop_0.
- destruct (Z.eqb_spec (Z.of_nat (S i)) 0); [lia|].
  replace (Z.to_nat (Z.of_nat (S i) - 1)) with i by lia.
  destruct (linkAfter_spec (head l) i item) as (h & -> & Hh); [lia|].
  simpl. by eexists.
Qed.

Lemma Insert_outside l index item :
¬ (0 ≤ index ≤ size l) → Insert l index item = Returns (l, Some outOfBounds).
Proof.
intros Hout. unfold Insert.
destruct (Z.ltb_spec index 0); [done|].
destruct (Z.ltb_spec (size l) index); [done|lia].
Qed.

Lemma RemoveAt_at l (i : nat) v :
counted l → values (head l) !! i = Some v →
∃ l', RemoveAt zero l (Z.of_nat i) = Returns (l', v, None) ∧
      values (head l') = delete i (values (head l)) ∧
      size l' = size l - 1.
Proof.
intros Hc Hv. pose proof (lookup_lt_Some _ _ _ Hv) as Hi. unfold RemoveAt.
destruct (Z.ltb_spec (Z.of_nat i) 0); [lia|].
destruct (Z.leb_spec (size l) (Z.of_nat i)); [unfold counted in Hc; lia|]. simpl.
rewrite Nat2Z.id. destruct (unlinkAt_spec (head l) i Hi) as (h & x & -> & Hx & Hh).
simpl. rewrite Hv in Hx. injection Hx as <-. by eexists.
Qed.

Lemma RemoveAt_outside l index :
¬ (0 ≤ index < size l) → RemoveAt zero l index = Returns (l, zero, Some outOfBounds).
Proof.
intros Hout. unfold RemoveAt.
destruct (Z.ltb_spec index 0); [done|].
destruct (Z.leb_spec (size l) index); [done|lia].
Qed.

(** A list is given by its values and its counter. *)
Lemma LinkedList_eq l l' :
values (head l) = values (head l') → size l = size l' → l = l'.
Proof.
destruct l, l'. simpl. intros Hv ->. f_equal. by apply values_inj.
Qed.

(** ** [ReverseList] *)

(** After [i] rounds the first [i] and the last [i] values are those of the
    mirror positions of the original [xs], the rest is untouched. *)
Definition swapped (xs : list T) (i : nat) (ys : list T) : Prop :=
length ys = length xs ∧
∀ j, (j < length xs)%nat →
     ys !! j = if decide (j < i ∨ length xs - i ≤ j)%nat
               then xs !! (length xs - 1 - j)%nat else xs !! j.

Lemma swapped_start xs : swapped xs 0 xs.
Proof.
split; [done|]. intros j Hj. destruct (decide _) as [[?|?]|?]; [lia|lia|done].
Qed.

Lemma swapped_round xs (i : nat) ys a b :
(2 * i + 1 < length xs)%nat → swapped xs i ys →
ys !! i = Some a → ys !! (length xs - 1 - i)%nat = Some b →
swapped xs (S i) (<[(length xs - 1 - i)%nat := a]> (<[i := b]> ys)).
Proof.
intros Hi [Hlen Hys] Ha Hb. split; [by rewrite !length_insert|].
intros j Hj.
pose proof (Hys i ltac:(lia)) as Hai. rewrite Ha in Hai.
rewrite decide_False in Hai by lia.
pose proof (Hys (length xs - 1 - i)%nat ltac:(lia)) as Hbi. rewrite Hb in Hbi.
rewrite decide_False in Hbi by lia.
destruct (decide (j = length xs - 1 - i)%nat) as [->|Hne1].
- rewrite list_lookup_insert_eq by (rewrite length_insert; lia).
  rewrite decide_True by lia. rewrite Hai. f_equal. lia.
- rewrite list_lookup_insert_ne by done.
  destruct (decide (j = i)) as [->|Hne2].
  + rewrite list_lookup_insert_eq by lia. rewrite decide_True by lia. done.
  + rewrite list_lookup_insert_ne by done. rewrite Hys by done.
    destruct (decide (j < i ∨ length xs - i ≤ j)%nat);
      [by rewrite decide_True by lia|by rewrite decide_False by lia].
Qed.

Lemma swapped_end xs (i : nat) ys :
(length xs < 2 * i + 2)%nat → (2 * i ≤ length xs)%nat →
swapped xs i ys → ys = reverse xs.
Proof.
intros Hi1 Hi2 [Hlen Hys].
apply (list_eq_same_length _ _ (length xs)); [by rewrite length_reverse|done|].
intros j x y Hj Hx Hy. rewrite Hys in Hx by done.
rewrite reverse_lookup in Hy by done.
destruct (decide _) as [?|Hmid].
- replace (length xs - S j)%nat with (length xs - 1 - j)%nat in Hy by lia. congruence.
- replace (length xs - S j)%nat with j in Hy by lia. congruence.
Qed.

Lemma reverseLoop_spec xs (todo : nat) :
∀ (i : nat) l,
  counted l → swapped xs i (values (head l)) →
  (2 * (i + todo) ≤ length xs)%nat → (length xs < 2 * (i + todo) + 2)%nat →
  ∃ l', reverseLoop zero l (Z.of_nat (length xs)) (Z.of_nat i) todo = Returns l' ∧
        values (head l') = reverse xs ∧ size l' = size l.
Proof.
induction todo as [|todo IH]; intros i l Hc Hsw Hlo Hhi.
- exists l. split; [done|]. split; [|done].
  apply (swapped_end xs i); [lia|lia|done].
- pose proof Hsw as [Hlen _].
  destruct (lookup_lt_is_Some_2 (values (head l)) i) as [a Ha]; [lia|].
  destruct (lookup_lt_is_Some_2 (values (head l)) (length xs - 1 - i)%nat)
    as [b Hb]; [lia|].
  cbn [reverseLoop].
  replace (Z.of_nat (length xs) - 1 - Z.of_nat i)
    with (Z.of_nat (length xs - 1 - i)%nat) by lia.
  rewrite (Get_at l i a Hc Ha). cbn.
  rewrite (Get_at l _ b Hc Hb). cbn.
  destruct (Set_at l i b Hc) as (l1 & -> & Hv1 & Hs1); [lia|]. cbn.
  assert (counted l1) as Hc1.
  { unfold counted in *. rewrite Hs1, Hv1, length_insert. done. }
  destruct (Set_at l1 (length xs - 1 - i)%nat a Hc1) as (l2 & -> & Hv2 & Hs2);
    [rewrite Hv1, length_insert; lia|]. cbn.
  assert (counted l2) as Hc2.
  { unfold counted in *. rewrite Hs2, Hv2, length_insert. done. }
  replace (Z.of_nat i + 1) with (Z.of_nat (S i)) by lia.
  destruct (IH (S i) l2) as (l' & Hrun & Hv' & Hs'); [done| |lia|lia|].
  + rewrite Hv2, Hv1. apply swapped_round; [lia|done..].
  + exists l'. split; [done|]. split; [done|]. congruence.
Qed.

Lemma ReverseList_spec l :
counted l →
∃ l', ReverseList zero l = Returns l' ∧
      values (head l') = reverse (values (head l)) ∧ size l' = size l.
Proof.
intros Hc. unfold ReverseList, Size.
set (xs := values (head l)).
assert (size l = Z.of_nat (length xs)) as Hsize by done.
rewrite Hsize.
assert (Z.to_nat (Z.of_nat (length xs) ÷ 2) = (length xs / 2)%nat) as ->.
{ rewrite Z.quot_div_nonneg by lia.
  change 2 with (Z.of_nat 2). by rewrite <- Nat2Z.inj_div, Nat2Z.id. }
pose proof (Nat.div_mod_eq (length xs) 2) as Hdiv.
pose proof (Nat.mod_upper_bound (length xs) 2 ltac:(lia)) as Hmod.
destruct (reverseLoop_spec xs (length xs / 2) 0 l) as (l' & Hrun & Hv & Hs);
  [done|apply swapped_start|lia|lia|].
exists l'. split; [exact Hrun|]. split; [done|]. by rewrite Hs.
Qed.

(** ** The counter and the chain *)

Lemma Add_counted l item : counted l → counted (Add l item).
Proof.
unfold counted, Add. simpl. intros ->.
rewrite values_linkLast, length_app. simpl. lia.
Qed.

Lemma Remove_counted l item : counted l → counted (Remove l item).1.
Proof.
unfold counted, Remove. intros Hc.
pose proof (unlinkFirst_spec (head l) item) as Hspec.
destruct (unlinkFirst (head l) item) as [h|]; simpl; [|done].
destruct Hspec as (before & after & Hvs & _ & Hh).
rewrite Hc, Hvs, Hh, !length_app. simpl. lia.
Qed.

Lemma perform_counted l (c : call T) :
counted l → ∃ l', perform zero l c = Returns l' ∧ counted l'.
Proof.
intros Hc. destruct c as [item|item| |index item|index item|index|]; simpl.
- eexists. split; [done|]. by apply Add_counted.
- eexists. split; [done|]. by apply Remove_counted.
- by eexists.
- destruct (decide (0 ≤ index < size l)) as [Hin|Hout].
  + destruct (Set_at l (Z.to_nat index) item Hc) as (l' & Hset & Hv & Hs);
      [unfold counted in Hc; lia|].
    rewrite Z2Nat.id in Hset by lia. rewrite Hset. simpl.
    exists l'. split; [done|]. unfold counted in *. by rewrite Hs, Hv, length_insert.
  + rewrite Set_outside by done. simpl. by exists l.
- destruct (decide (0 ≤ index ≤ size l)) as [Hin|Hout].
  + destruct (Insert_at l (Z.to_nat index) item Hc) as (l' & Hins & Hv & Hs);
      [unfold counted in Hc; lia|].
    rewrite Z2Nat.id in Hins by lia. rewrite Hins. simpl.
    exists l'. split; [done|]. unfold counted in *.
    rewrite Hs, Hv, length_app. simpl. rewrite length_take, length_drop. lia.
  + rewrite Insert_outside by done. simpl. by exists l.
- destruct (decide (0 ≤ index < size l)) as [Hin|Hout].
  + destruct (lookup_lt_is_Some_2 (values (head l)) (Z.to_nat index)) as [v Hv];
      [unfold counted in Hc; lia|].
    destruct (RemoveAt_at l (Z.to_nat index) v Hc Hv) as (l' & Hrem & Hv' & Hs).
    rewrite Z2Nat.id in Hrem by lia. rewrite Hrem. simpl.
    exists l'. split; [done|]. unfold counted in *.
    pose proof (lookup_lt_Some _ _ _ Hv) as Hlt.
    rewrite Hs, Hv', length_delete by (by eexists). lia.
  + rewrite RemoveAt_outside by done. simpl. by exists l.
- destruct (ReverseList_spec l Hc) as (l' & Hrev & Hv & Hs).
  exists l'. split; [done|]. unfold counted in *. by rewrite Hs, Hv, length_reverse.
Qed.


(** X28.  The indexed methods on a list whose counter agrees with its
    chain.  For an index within [0, size): [Get] returns the value at the
    index; [Set] writes that position only and [Get] then returns the
    value written; [RemoveAt] returns the value and leaves the chain
    without that node.  For an index within [0, size]: [Insert] puts the
    value before the node at the index, so that [Get] at the index returns
    it, and [RemoveAt] at the same index returns it and gives back the
    list as it was.  For any other index each method returns the error
    "index out of bounds" and leaves the list as it is. *)
Theorem LinkedList_index_operations l (index : Z) item :
counted l →
let vs := values (head l) in
let i := Z.to_nat index in
(0 ≤ index < size l →
   ∃ v l1 l3,
     vs !! i = Some v ∧
     Get zero l index = Returns (v, None) ∧
     Set_ l index item = Returns (l1, None) ∧
     values (head l1) = <[i := item]> vs ∧ size l1 = size l ∧
     Get zero l1 index = Returns (item, None) ∧
     RemoveAt zero l index = Returns (l3, v, None) ∧
     values (head l3) = delete i vs ∧ size l3 = size l - 1) ∧
(¬ (0 ≤ index < size l) →
   Get zero l index = Returns (zero, Some outOfBounds) ∧
   Set_ l index item = Returns (l, Some outOfBounds) ∧
   RemoveAt zero l index = Returns (l, zero, Some outOfBounds)) ∧
(0 ≤ index ≤ size l →
   ∃ l2,
     Insert l index item = Returns (l2, None) ∧
     values (head l2) = take i vs ++ item :: drop i vs ∧
     size l2 = size l + 1 ∧
     Get zero l2 index = Returns (item, None) ∧
     RemoveAt zero l2 index = Returns (l, item, None)) ∧
(¬ (0 ≤ index ≤ size l) →
   Insert l index item = Returns (l, Some outOfBounds)).
Proof.
intros Hc vs i. subst vs. unfold counted in Hc. split_and!.
- intros Hin. subst i.
  assert (∃ j : nat, index = Z.of_nat j) as [i ->]
    by (exists (Z.to_nat index); lia).
  rewrite !Nat2Z.id.
  destruct (lookup_lt_is_Some_2 (values (head l)) i) as [v Hv]; [lia|].
  pose proof (lookup_lt_Some _ _ _ Hv) as Hlt.
  destruct (Set_at l i item Hc Hlt) as (l1 & Hset & Hv1 & Hs1).
  destruct (RemoveAt_at l i v Hc Hv) as (l3 & Hrem & Hv3 & Hs3).
  assert (counted l1) as Hc1
    by (unfold counted; by rewrite Hs1, Hv1, length_insert).
  exists v, l1, l3. split_and!; try done.
  + by apply Get_at.
  + apply Get_at; [done|]. rewrite Hv1. by apply list_lookup_insert_eq.
- intros Hout. split_and!;
    [by apply Get_outside|by apply Set_outside|by apply RemoveAt_outside].
- intros Hin. subst i.
  assert (∃ j : nat, index = Z.of_nat j) as [i ->]
    by (exists (Z.to_nat index); lia).
  rewrite !Nat2Z.id.
  assert (i ≤ length (values (head l)))%nat as Hle by lia.
  destruct (Insert_at l i item Hc Hle) as (l2 & Hins & Hv2 & Hs2).
  assert (counted l2) as Hc2.
  { unfold counted. rewrite Hs2, Hv2, length_app. simpl.
    rewrite length_take, length_drop. lia. }
  assert (values (head l2) !! i = Some item) as Hi.
  { rewrite Hv2. rewrite lookup_app_r by (rewrite length_take; lia).
    rewrite length_take.
    by replace (i - i `min` length (values (head l)))%nat with 0%nat by lia. }
  exists l2. split_and!; try done.
  + by apply Get_at.
  + destruct (RemoveAt_at l2 i item Hc2 Hi) as (l' & Hrem & Hv' & Hs').
    rewrite Hrem. do 3 f_equal. apply LinkedList_eq; [|lia].
    rewrite Hv', Hv2.
    rewrite <- (take_drop i (values (head l))) at 3.
    replace i with (length (take i (values (head l)))) at 1
      by (rewrite length_take; lia).
    by rewrite delete_middle.
- intros Hout. by apply Insert_outside.
Qed.


(** X30.  [ReverseList] on a list whose counter agrees with its chain
    returns, with the values of the chain in the opposite order and the
    same size; done twice it gives back the list as it was. *)
Theorem ReverseList_reverses l :
counted l →
∃ l', ReverseList zero l = Returns l' ∧
      values (head l') = reverse (values (head l)) ∧
      size l' = size l ∧
      ReverseList zero l' = Returns l.
Proof.
intros Hc. destruct (ReverseList_spec l Hc) as (l' & Hrev & Hv & Hs).
exists l'. split_and!; try done.
assert (counted l') as Hc'
  by (unfold counted in *; by rewrite Hs, Hv, length_reverse).
destruct (ReverseList_spec l' Hc') as (l'' & -> & Hv' & Hs').
f_equal. apply LinkedList_eq; [|lia]. by rewrite Hv', Hv, reverse_involutive.
Qed.

End linked_list_proofs.

(** The list 1, 2, 3 of the demonstration, built by [Add]. *)
Definition oneTwoThree : Generics.LinkedList Z :=
Generics.Add (Generics.Add (Generics.Add Generics.NewLinkedList 1) 2) 3.

Lemma LinkedList_index_operations_witness :
Generics.counted oneTwoThree ∧
Generics.Get 0 oneTwoThree 1 = Returns (2, None) ∧
Generics.Get 0 oneTwoThree 3 = Returns (0, Some Generics.outOfBounds) ∧
∃ l2, Generics.Insert oneTwoThree 3 4 = Returns (l2, None) ∧
      Generics.RemoveAt 0 l2 3 = Returns (oneTwoThree, 4, None).
Proof.
assert (Generics.counted oneTwoThree) as Hc by reflexivity.
split; [exact Hc|].
destruct (LinkedList_index_operations 0 oneTwoThree 1 9 Hc) as (Hin & _ & _ & _).
destruct Hin as (v & l1 & l3 & Hv & Hget & _); [vm_compute; split; congruence|].
injection Hv as <-. split; [exact Hget|].
destruct (LinkedList_index_operations 0 oneTwoThree 3 4 Hc) as (_ & Hout & Hins & _).
destruct Hout as (Hget3 & _); [vm_compute; intros [_ Hlt]; discriminate|].
split; [exact Hget3|].
destruct Hins as (l2 & Hinsert & _ & _ & _ & Hback);
  [vm_compute; split; congruence|].
exists l2. split; [exact Hinsert|exact Hback].
Defined.

Lemma ReverseList_reverses_witness :
∃ l', Generics.ReverseList 0 oneTwoThree = Returns l' ∧
      Generics.values (Generics.head l') = [3; 2; 1].
Proof.
destruct (ReverseList_reverses 0 oneTwoThree) as (l' & Hrev & Hv & _);
  [reflexivity|].
exists l'. split; [exact Hrev|exact Hv].
Defined.
